(** * CRC RevEng: the reverse engine (reveng.c) and its command-line driver (cli.c)

    A shallow embedding of [reveng.c] and of the parts of [cli.c] that run
    after option parsing, followed by the properties of the search that the
    design document states.

    Polynomials over GF(2) are bit lists, most significant coefficient first
    (index 0 is the highest term), as the polynomial store has them.  Flag
    words are [Z] with the bit tests of the C code written with [Z.land].
    Lengths ([unsigned long] in C) are [nat]: every subtraction the code makes
    on them is guarded by a comparison, which the embedding keeps.  The two
    [unsigned long] counters of the search loop keep their wrap-around.

    Allocation is assumed to succeed, so the calls of [uerror] that report an
    exhausted heap do not appear. *)

From Stdlib Require Import String Ascii DecimalString.
From Stdlib Require Import ZArith Bool Lia PeanoNat List Sorted.
Import ListNotations.

(* ===================================================================== *)
(** ** The polynomial store (poly.c) *)
(* ===================================================================== *)

Module Poly.

Definition poly_t := list bool.

(** [PZERO]: the polynomial of length zero. *)
Definition pzero : poly_t := [].

Definition plen (p : poly_t) : nat := length p.

(** Modelled from the spec: poly.c is not among the sources.
    [palloc(n)] creates exactly [n] bits, all zero. *)
Definition palloc (n : nat) : poly_t := repeat false n.

(** Modelled from the spec: poly.c is not among the sources.
    [pclone] and [pcpy] are deep copies; on values they are the identity. *)
Definition pclone (p : poly_t) : poly_t := p.

(** Modelled from the spec: poly.c is not among the sources.
    [pcoeff(p, i)] is the coefficient at bit index [i], MSB first. *)
Definition pcoeff (p : poly_t) (i : nat) : bool := nth i p false.

(** Modelled from the spec: poly.c is not among the sources.
    [ptst(p)] is true iff [p] is nonzero. *)
Definition ptst (p : poly_t) : bool := existsb (fun b => b) p.

(** Modelled from the spec: poly.c is not among the sources.  [pinv] is not
    described there; reveng.c uses it on a fresh all-zero polynomial to
    obtain the all-ones one, so it complements every coefficient. *)
Definition pinv (p : poly_t) : poly_t := map negb p.

(** Modelled from the spec: poly.c is not among the sources.
    [praloc(p, n)] resizes to exactly [n] bits, truncating or zero-extending
    the low (right-hand) end. *)
Definition praloc (p : poly_t) (n : nat) : poly_t :=
  firstn n p ++ repeat false (n - length p).

(** Modelled from the spec: poly.c is not among the sources.
    [pright(p, n)] sets the length to exactly [n] keeping the original
    right-alignment: the high end is cut or padded with zeros. *)
Definition pright (p : poly_t) (n : nat) : poly_t :=
  repeat false (n - length p) ++ skipn (length p - n) p.

(** Modelled from the spec: poly.c is not among the sources.
    [pshift(dst, src, head, start, end, tail)] writes bits [start, end) of
    [src] (zeros once [src] is exhausted) after [head] zero bits and follows
    them by [tail] zero bits; [dst] gets the length of the result. *)
Definition pshift (src : poly_t) (head start end_ tail : nat) : poly_t :=
  repeat false head
  ++ firstn (end_ - start) (skipn start (src ++ repeat false (end_ - length src)))
  ++ repeat false tail.

(** XOR [src] into the leading bits of [reg]; [reg] keeps its length. *)
Fixpoint xor_into (reg src : poly_t) : poly_t :=
  match reg, src with
  | r :: reg', s :: src' => xorb r s :: xor_into reg' src'
  | _, _ => reg
  end.

(** Modelled from the spec: poly.c is not among the sources.
    [psum(dst, src, ofs)] XORs [src] into [dst] starting at bit [ofs].  The
    spec asks for a [dst] that is long enough; [engini] relies on a short
    [dst] being lengthened with zeros (it tests [plen(apoly) > dlen] after two
    such sums), which is what the model does. *)
Definition psum (dst src : poly_t) (ofs : nat) : poly_t :=
  let d := dst ++ repeat false (ofs + length src - length dst) in
  firstn ofs d ++ xor_into (skipn ofs d) src.

(** Modelled from the spec: poly.c is not among the sources.
    [pcmp(a, b)] is the lexicographic order on the bits from the left; when
    one is a prefix of the other the longer is greater.  Negative, zero or
    positive as in C. *)
Fixpoint pcmp (a b : poly_t) : Z :=
  match a, b with
  | [], [] => 0
  | [], _ :: _ => -1
  | _ :: _, [] => 1
  | x :: a', y :: b' =>
      if Bool.eqb x y then pcmp a' b' else if y then (-1) else 1
  end%Z.

(** Increment of a binary counter whose least significant bit comes first. *)
Fixpoint incr_lsb (l : list bool) : list bool :=
  match l with
  | [] => []
  | false :: t => true :: t
  | true :: t => false :: incr_lsb t
  end.

(** Modelled from the spec: poly.c is not among the sources.
    [piter(p)] treats [p] as a fixed-width binary counter (LSB at the highest
    index) and increments it; it returns false when the counter wraps to
    zero.  The pair is the new value of [*p] and the returned flag. *)
Definition piter (p : poly_t) : poly_t * bool :=
  let q := rev (incr_lsb (rev p)) in (q, ptst q).

Fixpoint drop_zeros (l : list bool) : list bool :=
  match l with
  | false :: t => drop_zeros t
  | _ => l
  end.

(** Modelled from the spec: poly.c is not among the sources.
    [pnorm(p)] strips trailing zero coefficients, reducing the length
    accordingly. *)
Definition pnorm (p : poly_t) : poly_t := rev (drop_zeros (rev p)).

(** Modelled from the spec: poly.c is not among the sources.
    [pfirst(p)] is the index of the leftmost set bit, [plen p] if none. *)
Fixpoint pfirst (p : poly_t) : nat :=
  match p with
  | [] => 0
  | true :: _ => 0
  | false :: t => S (pfirst t)
  end.

(** Modelled from the spec: poly.c is not among the sources.
    [pmpar(p, mask)] is the XOR-parity of [p] masked with [mask]. *)
Fixpoint pmpar (p mask : poly_t) : bool :=
  match p, mask with
  | x :: p', y :: m' => xorb (x && y) (pmpar p' m')
  | _, _ => false
  end.

(** Modelled from the spec: poly.c is not among the sources.
    [prev(p)] bit-reverses the whole buffer. *)
Definition prev (p : poly_t) : poly_t := rev p.

(** Modelled from the spec: poly.c is not among the sources.
    [prcp(p)]: from the chopped poly of width [w], the chopped reciprocal
    poly of the same width. *)
Definition prcp (p : poly_t) : poly_t :=
  match p with
  | [] => []
  | _ :: _ => rev (firstn (length p - 1) p) ++ [true]
  end.

(** Modelled from the spec: poly.c is not among the sources.
    [ppaste(dst, src, skip, seek, end, full)] writes [src] from bit [skip] on
    into positions [seek, end) of [dst], with [dst] set to [full] bits. *)
Definition ppaste (dst src : poly_t) (skip seek end_ full : nat) : poly_t :=
  let d := praloc dst full in
  map (fun i => if (seek <=? i) && (i <? end_)
                then nth (skip + (i - seek)) src false
                else nth i d false)
      (seq 0 full).

(** Modelled from the spec: reveng.h is not among the sources.  [P_MULXN]
    is the one flag that the CRC engine reads; the other flags follow the
    polynomial store. *)
Definition P_MULXN : Z := 4.

(** One step of the division: shift the register left by one bit, bring in
    the next message bit, and subtract the divisor when the bit shifted out
    is set.  The feedback bits are collected, last first. *)
Definition crc_step (divisor : poly_t) (st : poly_t * list bool) (b : bool)
  : poly_t * list bool :=
  let (reg, q) := st in
  match reg with
  | [] => ([], b :: q)
  | top :: rest =>
      let shifted := rest ++ [b] in
      (if top then xor_into shifted divisor else shifted, top :: q)
  end.

(** Modelled from the spec: poly.c is not among the sources.
    [pcrc(message, poly, init, xorout, flags, &quotient)] after section 4.2:
    the register starts as the first [width] bits of the message (padded on
    the right with zeros when shorter) with [init] XORed in; every further
    bit is shifted in with feedback; with [MULXN] the message is followed by
    [width] zero bits; [xorout] is XORed into the result.  The quotient holds
    the feedback bits, [len(message) - width] of them.  The first component
    is the returned CRC, the second what a non-null [quotient] receives. *)
Definition pcrc_quot (message divisor init xorout : poly_t) (flags : Z)
  : poly_t * poly_t :=
  let w := length divisor in
  let msg := if (Z.land flags P_MULXN =? 0)%Z
             then message else message ++ repeat false w in
  let msg := msg ++ repeat false (w - length msg) in
  let reg0 := xor_into (firstn w msg) init in
  let '(reg, q) := fold_left (crc_step divisor) (skipn w msg) (reg0, []) in
  (xor_into reg xorout, firstn (length message - w) (rev q)).

Definition pcrc (message divisor init xorout : poly_t) (flags : Z) : poly_t :=
  fst (pcrc_quot message divisor init xorout flags).

(** Modelled from the spec: poly.c is not among the sources.  The spec
    gives [pmod] by its use in the GCD reduction of section 4.4 only, a
    remainder with the operands left-aligned, and the comment in [modpol]
    sets it against a remainder for which the shorter operand modulo the
    longer is the shorter.  [pmod(dividend, divisor, NULL)] is the remainder
    of the division of the CRC engine, which takes the dividend from its
    first bit on, by the polynomial that [divisor] spells: the engine is
    given [divisor] without its leading term, the first bit that is set, and
    without the zeros before it; there is no init, no xorout and no
    augmentation. *)
Definition pmod (dividend divisor : poly_t) : poly_t :=
  pcrc dividend (pshift divisor 0 (pfirst divisor + 1) (plen divisor) 0)
       pzero pzero 0.

End Poly.

Export Poly.

(* ===================================================================== *)
(** ** Flag words (reveng.h) *)
(* ===================================================================== *)

(** The C test [if (x & MASK)]. *)
Definition flag_set (x mask : Z) : bool := negb (Z.land x mask =? 0)%Z.

(** Modelled from the spec: reveng.h is not among the sources.  The spec
    names the members of the two bit sets; each is one bit of its own, and
    nothing below depends on which. *)
Definition P_REFIN  : Z := 1.
Definition P_REFOUT : Z := 2.
Definition P_RTJUST : Z := 8.
Definition P_UPPER  : Z := 16.
Definition P_SPACE  : Z := 32.
Definition P_LTLBYT : Z := 64.
Definition P_DIRECT : Z := 128.
Definition P_EXHST  : Z := 256.

Definition R_HAVEP  : Z := 512.
Definition R_HAVEI  : Z := 1024.
Definition R_HAVERI : Z := 2048.
Definition R_HAVERO : Z := 4096.
Definition R_HAVEX  : Z := 8192.
Definition R_HAVEQ  : Z := 16384.
Definition R_SHORT  : Z := 32768.

(* ===================================================================== *)
(** ** Models (model_t) and the callbacks of the core *)
(* ===================================================================== *)

Record model_t := mk_model {
  spoly  : poly_t;         (* generator, chopped: the top term is left out *)
  init   : poly_t;
  flags  : Z;
  xorout : poly_t;
  check  : poly_t;
  magic  : poly_t;
  name   : option string   (* NULL unless taken from the preset table *)
}.

(** The entry that ends the result array. *)
Definition sentinel : model_t :=
  {| spoly := pzero; init := pzero; flags := 0; xorout := pzero;
     check := pzero; magic := pzero; name := None |}.

Definition bits_of_ascii (c : ascii) : list bool :=
  let '(Ascii b0 b1 b2 b3 b4 b5 b6 b7) := c in [b7; b6; b5; b4; b3; b2; b1; b0].

Fixpoint bits_of_string (s : string) : list bool :=
  match s with
  | EmptyString => []
  | String c s' => bits_of_ascii c ++ bits_of_string s'
  end.

(** Modelled from the spec: model.c is not among the sources.
    [mcheck(m)] sets [check] to the CRC of the string "123456789" and [magic]
    to the CRC of the all-ones polynomial of the model's width XOR [xorout],
    both under the model's parameters; the other fields are left alone. *)
Definition mcheck (m : model_t) : model_t :=
  {| spoly := spoly m; init := init m; flags := flags m; xorout := xorout m;
     check := pcrc (bits_of_string "123456789")
                   (spoly m) (init m) (xorout m) (flags m);
     magic := psum (pcrc (pinv (palloc (plen (spoly m))))
                         (spoly m) (init m) (xorout m) (flags m))
                   (xorout m) 0;
     name := name m |}.

(** A call of one of the callbacks that reveng.c consumes. *)
Inductive event :=
| Ufound (m : model_t)
| Uprog (gpoly : poly_t) (flags : Z) (seq : Z).

(** What the private functions of reveng.c share through their [resc] and
    [result] parameters, together with the callbacks made so far. *)
Record rstate := mk_rstate {
  result : list model_t;
  trace  : list event
}.

Definition rstate0 : rstate := {| result := []; trace := [] |}.

(* ===================================================================== *)
(** ** Private functions of reveng.c *)
(* ===================================================================== *)

(** The loop of [chkres] over [argpolys]: true when it runs to [eptr], false
    when it leaves at the first argument whose CRC is not zero. *)
Fixpoint chkres_loop (divisor init xor : poly_t) (argpolys : list poly_t) : bool :=
  match argpolys with
  | [] => true
  | a :: rest =>
      if ptst (pcrc a divisor init xor 0) then false
      else chkres_loop divisor init xor rest
  end.

Definition chkres (st : rstate) (divisor init : poly_t) (flags : Z)
    (xorout : poly_t) (argpolys : list poly_t) : rstate :=
  let xor := pclone xorout in
  let xor := if flag_set flags P_REFOUT then prev xor else xor in
  if chkres_loop divisor init xor argpolys then
    let rptr := mcheck {| spoly := pclone divisor; init := pclone init;
                          flags := flags; xorout := pclone xorout;
                          check := pzero; magic := pzero; name := None |} in
    {| result := result st ++ [rptr]; trace := trace st ++ [Ufound rptr] |}
  else st.

(** The scan of [calout] and [calini] for the first argument of the shortest
    length; [best] is [*aptr]. *)
Fixpoint shortest (best : poly_t) (rest : list poly_t) : poly_t :=
  match rest with
  | [] => best
  | p :: rest' =>
      if plen p <? plen best then shortest p rest' else shortest best rest'
  end.

Definition calout (st : rstate) (divisor init : poly_t) (flags : Z)
    (argpolys : list poly_t) : rstate :=
  match argpolys with
  | [] => st
  | a0 :: rest =>
      let aptr := shortest a0 rest in
      let xorout := pcrc aptr divisor init pzero 0 in
      let xorout := if flag_set flags P_REFOUT then prev xorout else xorout in
      chkres st divisor init flags xorout argpolys
  end.

Definition calini (st : rstate) (divisor : poly_t) (flags : Z)
    (xorout : poly_t) (argpolys : list poly_t) : rstate :=
  match argpolys with
  | [] => st
  | a0 :: rest =>
      let aptr := shortest a0 rest in
      let rcpdiv := prcp (pclone divisor) in
      let rxor := pclone xorout in
      let rxor := if flag_set (Z.lnot flags) P_REFOUT then prev rxor else rxor in
      let arg := prev (pclone aptr) in
      let init := prev (pcrc arg rcpdiv rxor pzero 0) in
      chkres st divisor init flags xorout argpolys
  end.

(** *** engini *)

(** The scan of [engini] for the arguments of the two shortest lengths.  The
    pointers [aptr] and [bptr] are kept as indices into [argpolys], so that
    the pointer test [aptr == bptr] is an index test; [i] is the index of the
    head of [rest]. *)
Fixpoint two_shortest (i : nat) (rest : list poly_t)
    (aptr alen bptr blen : nat) : nat * nat * nat * nat :=
  match rest with
  | [] => (aptr, alen, bptr, blen)
  | p :: rest' =>
      let ilen := plen p in
      if ilen <? alen then two_shortest (S i) rest' i ilen aptr alen
      else if (alen <? ilen) && ((aptr =? bptr) || (ilen <? blen))
           then two_shortest (S i) rest' aptr alen i ilen
           else two_shortest (S i) rest' aptr alen bptr blen
  end.

(** An entry of the lower half of the CRC matrix, [mat[0 .. dlen-1]].  The
    code tells three kinds of entry apart with [pident], which compares
    handles: the handle of [pzero], the handle of the mask [bpoly], and a
    bitmap of the entry's own, which is identical to neither. *)
Inductive row :=
| RowZero
| RowOne
| RowData (p : poly_t).

(** The bits behind an entry; [bpoly] is the mask that [RowOne] aliases. *)
Definition row_bits (bpoly : poly_t) (r : row) : poly_t :=
  match r with
  | RowZero => pzero
  | RowOne => bpoly
  | RowData p => p
  end.

Definition pident_pzero (r : row) : bool :=
  match r with RowZero => true | _ => false end.

(** [mat[j] = x] for [j] inside the array. *)
Fixpoint set_nth {A : Type} (j : nat) (x : A) (l : list A) : list A :=
  match l, j with
  | [], _ => []
  | _ :: t, 0 => x :: t
  | h :: t, S j' => h :: set_nth j' x t
  end.

(** The upper half of the matrix, [mat[dlen .. 2*dlen-1]]: [c] is the entry
    at hand and every next one is the CRC of a single zero bit, augmented,
    with the previous entry as Init. *)
Fixpoint crc_columns (n : nat) (divisor c : poly_t) : list poly_t :=
  match n with
  | 0 => []
  | S k => c :: crc_columns k divisor (pcrc (palloc 1) divisor c pzero P_MULXN)
  end.

(** [while(j < dlen && !pident(mat[j], pzero))] of the row reduction. *)
Fixpoint reduce (fuel : nat) (bpoly : poly_t) (rows : list row) (dlen : nat)
    (apoly : poly_t) : option poly_t :=
  match fuel with
  | 0 => None
  | S f =>
      let j := pfirst apoly in
      if (j <? dlen) && negb (pident_pzero (nth j rows RowZero))
      then reduce f bpoly rows dlen (psum apoly (row_bits bpoly (nth j rows RowZero)) 0)
      else Some apoly
  end.

(** One turn of the loop "transpose the matrix, augment with the Init
    contribution and convert to row echelon form", for row [i]. *)
Definition echelon_step (cols : list poly_t) (bpoly : poly_t) (dlen : nat)
    (rows : list row) (i : nat) : list row :=
  let apoly :=
    fold_left (fun ap j => ppaste ap (nth (dlen - 1 - j) cols pzero) i j (j + 1) (dlen + 1))
              (seq 0 dlen) pzero in
  let apoly := if ptst apoly then ppaste apoly bpoly i dlen (dlen + 1) (dlen + 1)
               else apoly in
  match reduce (S dlen) bpoly rows dlen apoly with
  | Some apoly =>
      let j := pfirst apoly in
      if j <? dlen then set_nth j (RowData apoly) rows else rows
  | None => rows
  end.

(** The [for] loop inside "iterate through all solutions".  [below] holds the
    entries that [jptr] has still to visit, the nearest first (so it starts as
    the lower half reversed); the position [dlen - 1 - i] of the bit of Init
    being computed is the number of entries after the current one. *)
Fixpoint solve_rows (bpoly pone : poly_t) (flags : Z) (below : list row)
    (apoly : poly_t) (cy : Z) : poly_t * list row * Z :=
  match below with
  | [] => (apoly, [], cy)
  | r :: rest =>
      let apoly := if pmpar apoly (row_bits bpoly r)
                   then psum apoly pone (length rest) else apoly in
      let '(r', cy') :=
        if (cy =? 0)%Z then (r, cy)
        else match r with
             | RowZero => (RowOne, Z.land cy flags)
             | RowOne => (RowZero, cy)
             | RowData _ => (r, cy)
             end in
      let '(apoly', rest', cy'') := solve_rows bpoly pone flags rest apoly cy' in
      (apoly', r' :: rest', cy'')
  end.

(** [do { ... } while(!cy)]: every turn computes one Init and hands it to
    [calout]. *)
Fixpoint solutions (fuel : nat) (st : rstate) (divisor bpoly pone : poly_t)
    (flags : Z) (argpolys : list poly_t) (rows : list row) : option rstate :=
  match fuel with
  | 0 => None
  | S f =>
      let '(apoly, below, cy) :=
        solve_rows bpoly pone flags (rev rows) (pclone bpoly) P_EXHST in
      let apoly := praloc apoly (plen divisor) in
      let st := calout st divisor apoly flags argpolys in
      if (cy =? 0)%Z
      then solutions f st divisor bpoly pone flags argpolys (rev below)
      else Some st
  end.

(** [engini].  With an empty argument array the C code reads [argpolys[0]]
    before any test of [args], which C leaves undefined; the model reads
    [pzero] there and goes on to the fall-back [calini], which returns at
    once, so what the model gives for an empty array says nothing about the
    code.  With a divisor of
    length zero the C code stores [mat[0]] into an array of no entries; the
    model drops the store. *)
Definition engini (st : rstate) (divisor : poly_t) (flags : Z)
    (argpolys : list poly_t) : rstate :=
  let dlen := plen divisor in
  let len0 := plen (nth 0 argpolys pzero) in
  let '(aptr, alen, bptr, blen) := two_shortest 1 (tl argpolys) 0 len0 0 len0 in
  if aptr =? bptr then
    calini st divisor flags (palloc dlen) argpolys
  else
    let pone := fst (piter (palloc 1)) in
    let apoly :=
      if blen <? 2 * dlen
      then psum (psum (palloc dlen) pone (2 * dlen - 1 - blen)) pone (2 * dlen - 1 - alen)
      else psum (psum (palloc (blen - dlen + 1)) pone 0) pone (blen - alen) in
    let mat_dlen := if dlen <? plen apoly
                    then pcrc apoly divisor pzero pzero 0 else apoly in
    let apoly := pcrc (nth aptr argpolys pzero) divisor pzero pzero 0 in
    let bpoly := pcrc (nth bptr argpolys pzero) divisor pzero apoly 0 in
    let cols := crc_columns dlen divisor mat_dlen in
    let rows := fold_left (echelon_step cols bpoly dlen) (seq 0 dlen)
                          (repeat RowZero dlen) in
    let bpoly := psum (palloc (dlen + 1)) pone dlen in
    match solutions (2 ^ dlen) st divisor bpoly pone flags argpolys rows with
    | Some st' => st'
    | None => st
    end.

(** *** dispch *)

Definition dispch (guess : model_t) (st : rstate) (divisor : poly_t)
    (rflags : Z) (argpolys : list poly_t) : rstate :=
  if flag_set rflags R_HAVEI && flag_set rflags R_HAVEX then
    chkres st divisor (init guess) (flags guess) (xorout guess) argpolys
  else if flag_set rflags R_HAVEI then
    calout st divisor (init guess) (flags guess) argpolys
  else if flag_set rflags R_HAVEX then
    calini st divisor (flags guess) (xorout guess) argpolys
  else
    engini st divisor (flags guess) argpolys.

(** *** modpol *)

(** The polynomial that one pair of arguments contributes: [*aptr] is [a],
    [*bptr] is [b]. *)
Definition difference (init : poly_t) (rflags : Z) (a b : poly_t) : poly_t :=
  let alen := plen a in
  let blen := plen b in
  if alen =? blen then
    psum (pclone a) b 0
  else if flag_set rflags R_HAVEI && (alen <? blen) then
    psum (psum (psum (pclone b) a (blen - alen)) init 0) init (blen - alen)
  else if flag_set rflags R_HAVEI then
    psum (psum (psum (pclone a) b (alen - blen)) init 0) init (alen - blen)
  else pzero.

(** [do { ... } while(plen(work))]: combine [work] with the running [gcd]. *)
Fixpoint gcd_loop (fuel : nat) (gcd work : poly_t) : option poly_t :=
  match fuel with
  | 0 => None
  | S f =>
      let '(gcd, work) :=
        if plen gcd <? plen work then (work, gcd) else (gcd, work) in
      let rem := pmod gcd work in
      let gcd := work in
      let work := pnorm rem in
      if plen work =? 0 then Some gcd else gcd_loop f gcd work
  end.

(** The body of the inner loop once [work] holds the difference of the pair;
    the state is [gcd] and the counter [nogcd]. *)
Definition merge_work (acc : poly_t * Z) (work : poly_t) : poly_t * Z :=
  let (gcd, nogcd) := acc in
  let work := if plen work =? 0 then work else pnorm work in
  if plen work =? 0 then acc
  else
    let nogcd := Z.shiftr nogcd 1 in
    if negb (nogcd =? 0)%Z then (pclone work, nogcd)
    else match gcd_loop (S (plen work)) gcd work with
         | Some g => (g, nogcd)
         | None => (gcd, nogcd)
         end.

(** The inner loop: [bptr] runs over the arguments after [aptr]. *)
Fixpoint modpol_inner (init : poly_t) (rflags : Z) (a : poly_t)
    (bs : list poly_t) (acc : poly_t * Z) : poly_t * Z :=
  match bs with
  | [] => acc
  | b :: bs' =>
      modpol_inner init rflags a bs' (merge_work acc (difference init rflags a b))
  end.

(** The outer loop: [aptr] runs over the arguments. *)
Fixpoint modpol_outer (init : poly_t) (rflags : Z) (args : list poly_t)
    (acc : poly_t * Z) : poly_t * Z :=
  match args with
  | [] => acc
  | a :: rest =>
      modpol_outer init rflags rest (modpol_inner init rflags a rest acc)
  end.

Definition modpol (init : poly_t) (rflags : Z) (argpolys : list poly_t) : poly_t :=
  if length argpolys <? 2 then pzero
  else fst (modpol_outer init rflags argpolys (pzero, 2%Z)).

(** *** reveng *)

Section Reveng.

(** Modelled from the spec: reveng.h is not among the sources.  [R_SPMASK]
    is the mask that spaces the progress reports, and [ulong_bits] is the
    width of [unsigned long] on the platform; both are left open. *)
Variable ulong_bits : Z.
Variable R_SPMASK : Z.

(** [x++] on an [unsigned long]. *)
Definition ulong_succ (x : Z) : Z := ((x + 1) mod 2 ^ ulong_bits)%Z.

(** The variables that the search loop of [reveng] changes. *)
Record loop_state := mk_loop_state {
  l_factor : poly_t;
  l_gpoly  : poly_t;
  l_spin   : Z;
  l_seq    : Z;
  l_st     : rstate
}.

(** The body of the [while] loop up to, and without, its last statement
    [if(!piter(&factor)) break;]; [l_factor] is the candidate that the loop
    test has just produced. *)
Definition search_body (guess : model_t) (rflags : Z) (pwork : poly_t)
    (argpolys : list poly_t) (ls : loop_state) : loop_state :=
  let factor := l_factor ls in
  let report := (Z.land (l_spin ls) R_SPMASK =? 0)%Z in
  let spin := ulong_succ (l_spin ls) in
  let st := if report
            then {| result := result (l_st ls);
                    trace := trace (l_st ls) ++ [Uprog factor (flags guess) (l_seq ls)] |}
            else l_st ls in
  let seq := if report then ulong_succ (l_seq ls) else l_seq ls in
  let '(rem, gpoly) :=
    if flag_set rflags R_SHORT then
      let rem := pcrc pwork factor pzero pzero 0 in
      if negb (ptst rem) then
        let '(rem, quot) := pcrc_quot pwork factor pzero pzero 0 in
        (rem, fst (piter (pshift quot 0 1 (plen quot - 1) 1)))
      else (rem, l_gpoly ls)
    else (pcrc pwork factor pzero pzero 0, l_gpoly ls) in
  let st := if negb (ptst rem)
            then dispch guess st (if flag_set rflags R_SHORT then gpoly else factor)
                        rflags argpolys
            else st in
  {| l_factor := factor; l_gpoly := gpoly; l_spin := spin; l_seq := seq; l_st := st |}.

(** [while(piter(&factor) && (~rflags & R_HAVEQ || pcmp(&factor, &qqpoly) < 0))]
    with its body.  [None] when the fuel runs out. *)
Fixpoint search_loop (fuel : nat) (guess : model_t) (rflags : Z)
    (qqpoly pwork : poly_t) (argpolys : list poly_t) (ls : loop_state)
    : option loop_state :=
  match fuel with
  | 0 => None
  | S f =>
      let '(factor, more) := piter (l_factor ls) in
      let ls := {| l_factor := factor; l_gpoly := l_gpoly ls; l_spin := l_spin ls;
                   l_seq := l_seq ls; l_st := l_st ls |} in
      if more && (flag_set (Z.lnot rflags) R_HAVEQ || (pcmp factor qqpoly <? 0)%Z) then
        let ls := search_body guess rflags pwork argpolys ls in
        let '(factor, more) := piter (l_factor ls) in
        let ls := {| l_factor := factor; l_gpoly := l_gpoly ls; l_spin := l_spin ls;
                     l_seq := l_seq ls; l_st := l_st ls |} in
        if negb more then Some ls
        else search_loop f guess rflags qqpoly pwork argpolys ls
      else Some ls
  end.

(** "Truncate trial factor and range end polynomial if shortest difference
    is compact": from [rflags], [factor] and [qqpoly] to their new values, or
    [None] for [goto rpquit]. *)
Definition short_setup (rflags : Z) (pwork factor qqpoly : poly_t)
  : option (Z * poly_t * poly_t) :=
  let rflags := Z.land rflags (Z.lnot R_SHORT) in
  if plen pwork <=? 2 * plen factor then
    let rflags := Z.lor rflags R_SHORT in
    if flag_set rflags R_HAVEQ || ptst factor then
      let rem := pright (pinv (palloc (plen pwork - plen factor - 1))) (plen factor) in
      if (pcmp rem factor <? 0)%Z then None
      else if (pcmp rem qqpoly <? 0)%Z then
        Some (Z.land rflags (Z.lnot R_HAVEQ),
              pright factor (plen pwork - plen factor - 1), qqpoly)
      else if flag_set rflags R_HAVEQ then
        Some (rflags, pright factor (plen pwork - plen factor - 1),
              pright qqpoly (plen pwork - plen factor - 1))
      else Some (rflags, pright factor (plen pwork - plen factor - 1), qqpoly)
    else Some (rflags, pright factor (plen pwork - plen factor - 1), qqpoly)
  else Some (rflags, factor, qqpoly).

(** The loop variables when the loop is entered with [factor]. *)
Definition loop_start (factor : poly_t) : loop_state :=
  {| l_factor := factor; l_gpoly := pzero; l_spin := 0; l_seq := 0;
     l_st := rstate0 |}.

(** The search for the generator once the GCD [pwork] is longer than
    [width + 1]: from "Otherwise initialise the trial factor to the starting
    value" to the end of the loop.  The loop gets one unit of fuel for every
    value of the trial factor. *)
Definition enumerate (guess : model_t) (qpoly : poly_t) (rflags : Z)
    (pwork : poly_t) (argpolys : list poly_t) : rstate :=
  let factor := pclone (spoly guess) in
  let qqpoly := if flag_set rflags R_HAVEQ then pclone qpoly else pzero in
  match short_setup rflags pwork factor qqpoly with
  | None => rstate0
  | Some (rflags, factor, qqpoly) =>
      let factor := pshift factor 0 0 (plen factor - 1) 1 in
      match search_loop (2 ^ plen factor) guess rflags qqpoly pwork argpolys
                        (loop_start factor) with
      | Some ls' => l_st ls'
      | None => rstate0
      end
  end.

(** From the label [requit] on: the entry that ends the array is added and
    the array returned. *)
Definition requit (st : rstate) : list model_t * list event :=
  (result st ++ [sentinel], trace st).

(** [reveng(guess, qpoly, rflags, args, argpolys)]: the result array, with
    the entry that ends it, and the callbacks made on the way.  [args] is the
    length of [argpolys]. *)
Definition reveng (guess : model_t) (qpoly : poly_t) (rflags : Z)
    (argpolys : list poly_t) : list model_t * list event :=
  let st :=
    if flag_set rflags R_HAVEP then
      dispch guess rstate0 (spoly guess) rflags argpolys
    else if plen (spoly guess) =? 0 then rstate0
    else
      let pwork := modpol (init guess) rflags argpolys in
      if plen pwork <? plen (spoly guess) + 1 then rstate0
      else if plen pwork =? plen (spoly guess) + 1 then
        let gpoly := pclone pwork in
        let gpoly := pshift gpoly 0 1 (plen gpoly) 0 in
        dispch guess rstate0 gpoly rflags argpolys
      else enumerate guess qpoly rflags pwork argpolys
  in requit st.

End Reveng.

(* ===================================================================== *)
(** ** The command-line driver (cli.c) *)
(* ===================================================================== *)

Module Cli.

Definition C_INFILE : Z := 1.
Definition C_NOPCK  : Z := 2.
Definition C_NOBFS  : Z := 4.
Definition C_RESULT : Z := 8.

Definition RECSMP : Z := 4.

Definition EXIT_SUCCESS : Z := 0.
Definition EXIT_FAILURE : Z := 1.

(** The [int] that holds a mode switch. *)
Definition chr (c : ascii) : Z := Z.of_N (N_of_ascii c).

(** What a run of the driver does that can be seen from outside: lines
    written with [puts], text written to [stderr] (without the newline that
    ends it), and its calls of [reveng]. *)
Inductive action :=
| Puts (s : string)
| Eprint (s : string)
| Call_reveng (guess : model_t) (qpoly : poly_t) (rflags : Z) (argpolys : list poly_t).

(** What the driver takes from files that are not among the sources, and
    from the platform.  [rdpoly] stands for the function of that name in
    cli.c together with the file system behind it: the polynomial read, or
    the message printed before [exit(EXIT_FAILURE)].  [presets] is the table
    behind [mcount] and [mbynum]. *)
Record cli_env := mk_cli_env {
  ulong_bits : Z;
  R_SPMASK   : Z;
  myname     : string;
  strtop     : string -> Z -> Z -> poly_t;
  rdpoly     : string -> Z -> Z -> poly_t + string;
  ptostr     : poly_t -> Z -> Z -> string;
  mtostr     : model_t -> string;
  prevch     : poly_t -> Z -> poly_t;
  psncmp     : poly_t -> poly_t -> Z;
  presets    : list model_t
}.

(** The variables of [main] when the option loop is left. *)
Record cli_state := mk_cli_state {
  c_model   : model_t;
  c_ibperhx : Z;
  c_obperhx : Z;
  c_rflags  : Z;
  c_uflags  : Z;
  c_width   : nat;
  c_mode    : Z;
  c_qpoly   : poly_t
}.

(** Commands of the driver: they add to the actions made so far and either
    go on with a value or leave through [exit] with a status. *)
Definition cmd (A : Type) : Type := list action -> list action * (A + Z).

Definition ret {A : Type} (x : A) : cmd A := fun log => (log, inl x).

Definition bind {A B : Type} (c : cmd A) (k : A -> cmd B) : cmd B :=
  fun log =>
    match c log with
    | (log', inl x) => k x log'
    | (log', inr status) => (log', inr status)
    end.

Definition act (a : action) : cmd unit := fun log => (log ++ [a], inl tt).

Definition exit {A : Type} (status : Z) : cmd A := fun log => (log, inr status).

Notation "x <- c ;; k" := (bind c (fun x => k))
  (at level 61, c at next level, right associativity).
Notation "c ;;; k" := (bind c (fun _ => k))
  (at level 61, right associativity).

Fixpoint for_each {A : Type} (f : A -> cmd unit) (l : list A) : cmd unit :=
  match l with
  | [] => ret tt
  | x :: rest => f x ;;; for_each f rest
  end.

Fixpoint map_cmd {A B : Type} (f : A -> cmd B) (l : list A) : cmd (list B) :=
  match l with
  | [] => ret []
  | x :: rest => y <- f x ;; ys <- map_cmd f rest ;; ret (y :: ys)
  end.

(** [uerror]: the callback for fatal errors. *)
Definition uerror {A : Type} (env : cli_env) (msg : string) : cmd A :=
  act (Eprint (myname env ++ ": " ++ msg)) ;;; exit EXIT_FAILURE.

(** [ufound]: the callback that reports a model. *)
Definition ufound (env : cli_env) (m : model_t) : cmd unit :=
  act (Puts (mtostr env m)).

Definition dec (n : nat) : string := NilZero.string_of_uint (Nat.to_uint n).

(** [uprog]: the callback that reports progress. *)
Definition uprog (env : cli_env) (gpoly : poly_t) (flags : Z) (seq : Z) : cmd unit :=
  if (seq =? 0)%Z then ret tt
  else
    act (Eprint (myname env ++ ": searching: width=" ++ dec (plen gpoly)
                 ++ "  poly=0x" ++ ptostr env gpoly P_RTJUST 4
                 ++ "  refin=" ++ (if flag_set flags P_REFIN then "true" else "false")
                 ++ "  refout=" ++ (if flag_set flags P_REFOUT then "true" else "false"))).

(** A call of [reveng] from the driver: the call itself, then the callbacks
    of the core in the order in which it made them. *)
Definition call_reveng (env : cli_env) (guess : model_t) (qpoly : poly_t)
    (rflags : Z) (argpolys : list poly_t) : cmd (list model_t) :=
  act (Call_reveng guess qpoly rflags argpolys) ;;;
  let '(models, events) :=
    reveng (ulong_bits env) (R_SPMASK env) guess qpoly rflags argpolys in
  for_each (fun e => match e with
                     | Ufound m => ufound env m
                     | Uprog p f s => uprog env p f s
                     end) events ;;;
  ret models.

(** Modelled from the spec: model.c is not among the sources.
    [mcanon(m)] requires the lowest bit of [spoly] to be 1 (else the error
    "poly must have +1 term"); if the width is zero and all fields are zero
    it clears the catalog name; else it masks [init] and [xorout] to the
    width. *)
Definition mcanon (env : cli_env) (m : model_t) : cmd model_t :=
  let w := plen (spoly m) in
  if (0 <? w) && negb (pcoeff (spoly m) (w - 1)) then
    uerror env "poly must have +1 term"
  else if (w =? 0) && negb (ptst (init m) || ptst (xorout m)
                            || ptst (check m) || ptst (magic m)) then
    ret {| spoly := spoly m; init := init m; flags := flags m; xorout := xorout m;
           check := check m; magic := magic m; name := None |}
  else
    ret {| spoly := spoly m; init := pright (init m) w; flags := flags m;
           xorout := pright (xorout m) w;
           check := check m; magic := magic m; name := name m |}.

(** [apoly = rdpoly(...)] or [apoly = strtop(...)], as [C_INFILE] says. *)
Definition read_arg (env : cli_env) (uflags flags ibperhx : Z) (arg : string)
  : cmd poly_t :=
  if flag_set uflags C_INFILE then
    match rdpoly env arg flags ibperhx with
    | inl p => ret p
    | inr msg => act (Eprint msg) ;;; exit EXIT_FAILURE
    end
  else ret (strtop env arg flags ibperhx).

Definition set_polys (m : model_t) (sp i x : poly_t) : model_t :=
  {| spoly := sp; init := i; flags := flags m; xorout := x;
     check := check m; magic := magic m; name := name m |}.

Definition set_flags (m : model_t) (f : Z) : model_t :=
  {| spoly := spoly m; init := init m; flags := f; xorout := xorout m;
     check := check m; magic := magic m; name := name m |}.

(** [case 'v'] up to its fall through. *)
Definition mode_v_prelude (m : model_t) : model_t :=
  let sp := prcp (spoly m) in
  let '(i, x) := if flag_set (Z.lnot (flags m)) P_REFOUT
                 then (prev (init m), prev (xorout m))
                 else (init m, xorout m) in
  set_polys m sp x i.

(** [case 'c'], which [case 'v'] falls into. *)
Definition mode_c (env : cli_env) (st : cli_state) (m : model_t)
    (argv : list string) : cmd unit :=
  let m := if flag_set (flags m) P_REFOUT
           then set_polys m (spoly m) (init m) (prev (xorout m)) else m in
  for_each (fun arg =>
      apoly <- read_arg env (c_uflags st) (flags m) (c_ibperhx st) arg ;;
      let apoly := if (c_mode st =? chr "v")%Z then prev apoly else apoly in
      let crc := pcrc apoly (spoly m) (init m) (xorout m) (flags m) in
      let crc := if (c_mode st =? chr "v")%Z then prev crc else crc in
      act (Puts (ptostr env crc (flags m) (c_obperhx st))))
    argv.

(** [case 'D']: the presets, the last of the table first. *)
Definition mode_D (env : cli_env) : cmd unit :=
  match presets env with
  | [] => uerror env "no preset models available"
  | _ :: _ => for_each (ufound env) (rev (presets env))
  end.

Definition mode_d (env : cli_env) (m : model_t) : cmd unit :=
  if flag_set (Z.lnot (flags m)) P_MULXN then
    uerror env "not a Williams model compliant algorithm"
  else act (Puts (mtostr env m)).

Definition mode_e (env : cli_env) (st : cli_state) (m : model_t)
    (argv : list string) : cmd unit :=
  for_each (fun arg =>
      apoly <- read_arg env (c_uflags st) (flags m) (c_ibperhx st) arg ;;
      let apoly := psum apoly (init m) 0 in
      act (Puts (ptostr env apoly (flags m) (c_obperhx st))))
    argv.

(** *** [case 's']: search for algorithm *)

(** The body of [while(psets)]: [pset] is the preset that [mbynum] has just
    loaded.  It returns the new [uflags]. *)
Definition preset_try (env : cli_env) (m : model_t) (rflags : Z) (width : nat)
    (apolys : list poly_t) (uflags : Z) (pset : model_t) : cmd Z :=
  if negb (plen (spoly pset) =? width)
     || flag_set (Z.lxor (flags m) (flags pset)) (Z.lor P_REFIN P_REFOUT) then ret uflags
  else if flag_set rflags R_HAVEP && negb (pcmp (spoly m) (spoly pset) =? 0)%Z then ret uflags
  else if flag_set rflags R_HAVEI && negb (psncmp env (init m) (init pset) =? 0)%Z then ret uflags
  else if flag_set rflags R_HAVEX && negb (psncmp env (xorout m) (xorout pset) =? 0)%Z then ret uflags
  else
    let apoly := pclone (xorout pset) in
    let apoly := if flag_set (flags pset) P_REFOUT then prev apoly else apoly in
    if chkres_loop (spoly pset) (init pset) apoly apolys then
      ufound env pset ;;; ret (Z.lor uflags C_RESULT)
    else ret uflags.

Fixpoint preset_scan (env : cli_env) (m : model_t) (rflags : Z) (width : nat)
    (apolys : list poly_t) (uflags : Z) (psets : list model_t) : cmd Z :=
  match psets with
  | [] => ret uflags
  | pset :: rest =>
      uflags <- preset_try env m rflags width apolys uflags pset ;;
      preset_scan env m rflags width apolys uflags rest
  end.

(** "toggle refIn/refOut and reflect arguments", at the end of either pass
    loop. *)
Definition toggle (env : cli_env) (rflags ibperhx : Z)
    (s : model_t * list poly_t) : model_t * list poly_t :=
  let (m, apolys) := s in
  if flag_set (Z.lnot rflags) R_HAVERI then
    (set_flags m (Z.lxor (flags m) (Z.lor P_REFIN P_REFOUT)),
     map (fun a => prevch env a ibperhx) apolys)
  else (m, apolys).

(** [do { ... } while(~rflags & R_HAVERI && ++pass < 2)] of the scan against
    the preset models; [fuel] bounds the number of turns. *)
Fixpoint preset_passes (fuel : nat) (env : cli_env) (rflags ibperhx : Z)
    (width : nat) (pass : Z) (s : model_t * list poly_t) (uflags : Z)
    : cmd (model_t * list poly_t * Z) :=
  match fuel with
  | 0 => ret (s, uflags)
  | S f =>
      uflags <- preset_scan env (fst s) rflags width (snd s) uflags
                            (rev (presets env)) ;;
      let s := toggle env rflags ibperhx s in
      if flag_set (Z.lnot rflags) R_HAVERI && (pass + 1 <? 2)%Z
      then preset_passes f env rflags ibperhx width (pass + 1)%Z s uflags
      else ret (s, uflags)
  end.

(** [do { ... } while(~rflags & R_HAVERI && ++pass < 2)] of the brute-force
    search. *)
Fixpoint reveng_passes (fuel : nat) (env : cli_env) (qpoly : poly_t)
    (rflags ibperhx : Z) (pass : Z) (s : model_t * list poly_t) (uflags : Z)
    : cmd Z :=
  match fuel with
  | 0 => ret uflags
  | S f =>
      candmods <- call_reveng env (fst s) qpoly rflags (snd s) ;;
      let uflags := if 0 <? plen (spoly (hd sentinel candmods))
                    then Z.lor uflags C_RESULT else uflags in
      let s := toggle env rflags ibperhx s in
      if flag_set (Z.lnot rflags) R_HAVERI && (pass + 1 <? 2)%Z
      then reveng_passes f env qpoly rflags ibperhx (pass + 1)%Z s uflags
      else ret uflags
  end.

(** The rest of [case 's'] once the scan against the presets is over. *)
Definition brute_force (env : cli_env) (qpoly : poly_t) (rflags ibperhx : Z)
    (s : model_t * list poly_t) (uflags : Z) : cmd unit :=
  if flag_set uflags C_RESULT then exit EXIT_SUCCESS
  else if flag_set uflags C_NOBFS && flag_set (Z.lnot rflags) R_HAVEP then
    uerror env "no models found"
  else if negb (Bool.eqb (negb (flag_set (flags (fst s)) P_REFIN))
                         (negb (flag_set (flags (fst s)) P_REFOUT))) then
    uerror env "cannot search for crossed-endian models"
  else
    uflags <- reveng_passes 2 env qpoly rflags ibperhx 0 s uflags ;;
    if flag_set (Z.lnot uflags) C_RESULT then uerror env "no models found"
    else ret tt.

Definition few_samples_warning (env : cli_env) (args : Z) : cmd unit :=
  if (args =? 0)%Z then
    act (Eprint (myname env ++ ": warning: you have not given any samples"))
  else if (args <? RECSMP)%Z then
    act (Eprint (myname env ++ ": warning: you have only given "
                 ++ dec (Z.to_nat args) ++ " sample"
                 ++ (if (args =? 1)%Z then "" else "s"))) ;;;
    act (Eprint (myname env ++ ": warning: to reduce false positives, give "
                 ++ dec (Z.to_nat RECSMP) ++ " or more samples"))
  else ret tt.

Definition mode_s (env : cli_env) (st : cli_state) (m : model_t)
    (qpoly : poly_t) (argv : list string) : cmd unit :=
  if flag_set (Z.lnot (flags m)) P_MULXN then
    uerror env "cannot search for non-Williams compliant models"
  else if c_width st =? 0 then
    uerror env "must specify positive -k, -P or -w before -s"
  else
    let width := c_width st in
    let m := set_polys m (praloc (spoly m) width) (praloc (init m) width)
                         (praloc (xorout m) width) in
    let '(m, width) :=
      if plen (spoly m) =? 0
      then (set_polys m (palloc width) (init m) (xorout m), width)
      else (m, plen (spoly m)) in
    let rflags := if negb (ptst qpoly)
                  then Z.land (c_rflags st) (Z.lnot R_HAVEQ) else c_rflags st in
    few_samples_warning env (Z.of_nat (length argv)) ;;;
    apolys <- map_cmd (read_arg env (c_uflags st) (flags m) (c_ibperhx st)) argv ;;
    r <- (if flag_set (Z.lnot (c_uflags st)) C_NOPCK
          then preset_passes 2 env rflags (c_ibperhx st) width 0 (m, apolys) (c_uflags st)
          else ret (m, apolys, c_uflags st)) ;;
    let '(s, uflags) := r in
    brute_force env qpoly rflags (c_ibperhx st) s uflags.

(** *** [main], from the end of the option loop *)

(** [main] after its option loop: [st] holds its variables at that point and
    [argv] the arguments from [optind] on.  The result is what the run did
    and its exit status. *)
Definition main_body (env : cli_env) (st : cli_state) (argv : list string)
  : list action * Z :=
  let width := c_width st in
  let m := set_polys (c_model st) (pright (spoly (c_model st)) width)
                     (pright (init (c_model st)) width)
                     (pright (xorout (c_model st)) width) in
  let qpoly := pright (c_qpoly st) width in
  let run : cmd unit :=
    m <- (if negb (c_mode st =? chr "s")%Z then mcanon env m else ret m) ;;
    (if (c_mode st =? chr "v")%Z then mode_c env st (mode_v_prelude m) argv
     else if (c_mode st =? chr "c")%Z then mode_c env st m argv
     else if (c_mode st =? chr "D")%Z then mode_D env
     else if (c_mode st =? chr "d")%Z then mode_d env m
     else if (c_mode st =? chr "e")%Z then mode_e env st m argv
     else if (c_mode st =? chr "s")%Z then mode_s env st m qpoly argv
     else
       act (Eprint (myname env ++ ": no mode switch specified. Use "
                    ++ myname env ++ " -h for help.")) ;;;
       exit EXIT_FAILURE) ;;;
    exit EXIT_SUCCESS in
  match run [] with
  | (log, inr status) => (log, status)
  | (log, inl _) => (log, EXIT_SUCCESS)
  end.

End Cli.

(* ===================================================================== *)
(** ** Notions used to state the properties *)
(* ===================================================================== *)

(** The number that a polynomial spells, most significant bit first. *)
Fixpoint pval (p : poly_t) : Z :=
  match p with
  | [] => 0
  | b :: t => (if b then 2 ^ Z.of_nat (length t) else 0) + pval t
  end%Z.

(** The number spelled with the least significant bit first. *)
Fixpoint lval (l : list bool) : Z :=
  match l with
  | [] => 0
  | b :: t => (if b then 1 else 0) + 2 * lval t
  end%Z.

(** The XorOut that [chkres] hands to the CRC engine for a model. *)
Definition engine_xorout (m : model_t) : poly_t :=
  if flag_set (flags m) P_REFOUT then prev (xorout m) else xorout m.

(** A model agrees with a sample when the CRC of the sample, message and
    checksum together, leaves no bit set. *)
Definition agrees (m : model_t) (s : poly_t) : Prop :=
  ptst (pcrc s (spoly m) (init m) (engine_xorout m) 0) = false.

(** Agreement in the words of property P6: XorOut as it is when [REFOUT] is
    set and reversed otherwise, and the model's flags handed to the engine. *)
Definition agrees_as_stated (m : model_t) (s : poly_t) : Prop :=
  ptst (pcrc s (spoly m) (init m)
             (if flag_set (flags m) P_REFOUT then xorout m else prev (xorout m))
             (flags m)) = false.

(** Every model of the result array so far agrees with every sample. *)
Definition sound (args : list poly_t) (st : rstate) : Prop :=
  Forall (fun m => Forall (agrees m) args) (result st).

(** The model that [chkres] adds for a divisor, Init, flags and XorOut. *)
Definition candidate (divisor init : poly_t) (flags : Z) (xorout : poly_t) : model_t :=
  mcheck {| spoly := divisor; init := init; flags := flags; xorout := xorout;
            check := pzero; magic := pzero; name := None |}.

(** [st'] is [st] with models added, each reported through [ufound] and each
    with the property [P]; nothing else has happened. *)
Definition adds_models (P : model_t -> Prop) (st st' : rstate) : Prop :=
  exists ms, result st' = result st ++ ms
             /\ trace st' = trace st ++ map Ufound ms
             /\ Forall P ms.

(** Two loop states that differ at most in the trial factor. *)
Definition same_but_factor (a b : loop_state) : Prop :=
  l_gpoly a = l_gpoly b /\ l_spin a = l_spin b
  /\ l_seq a = l_seq b /\ l_st a = l_st b.

(** The progress reports among the callbacks. *)
Definition is_uprog (e : event) : bool :=
  match e with Uprog _ _ _ => true | Ufound _ => false end.

Definition progress (t : list event) : list event := filter is_uprog t.

(** *** The trial factors of the search loop *)

(** The values that the trial factor takes in the body of the search loop,
    in order, when the loop is entered with [factor]: the loop test and the
    [break] at the end of the body, without the body. *)
Fixpoint trial_factors (fuel : nat) (rflags : Z) (qqpoly factor : poly_t)
  : list poly_t :=
  match fuel with
  | 0 => []
  | S f =>
      let '(c, more) := piter factor in
      if more && (flag_set (Z.lnot rflags) R_HAVEQ || (pcmp c qqpoly <? 0)%Z) then
        c :: (let '(c', more') := piter c in
              if negb more' then [] else trial_factors f rflags qqpoly c')
      else []
  end.

(** The loop body run on a given trial factor. *)
Definition try_factor (ulong_bits R_SPMASK : Z) (guess : model_t) (rflags : Z)
    (pwork : poly_t) (argpolys : list poly_t) (ls : loop_state) (c : poly_t)
  : loop_state :=
  search_body ulong_bits R_SPMASK guess rflags pwork argpolys
    {| l_factor := c; l_gpoly := l_gpoly ls; l_spin := l_spin ls;
       l_seq := l_seq ls; l_st := l_st ls |}.

(** The state of the results once the progress report of a turn, if one is
    due, has been made for the trial factor [c]. *)
Definition reported (R_SPMASK : Z) (guess : model_t) (ls : loop_state)
    (c : poly_t) : rstate :=
  if (Z.land (l_spin ls) R_SPMASK =? 0)%Z
  then {| result := result (l_st ls);
          trace := trace (l_st ls) ++ [Uprog c (flags guess) (l_seq ls)] |}
  else l_st ls.

(** The polynomial dispatched for a trial factor [c] that divides the GCD
    [pwork]: [c] itself or, in short mode, the quotient without its top
    term and with its lowest term set. *)
Definition trial_divisor (rflags : Z) (pwork c : poly_t) : poly_t :=
  if flag_set rflags R_SHORT then
    let quot := snd (pcrc_quot pwork c pzero pzero 0) in
    fst (piter (pshift quot 0 1 (plen quot - 1) 1))
  else c.

(** The flags, first trial factor and range end with which [reveng] enters
    its search loop, if it does. *)
Definition loop_entry (guess : model_t) (qpoly : poly_t) (rflags : Z)
    (argpolys : list poly_t) : option (Z * poly_t * poly_t) :=
  if flag_set rflags R_HAVEP then None
  else if plen (spoly guess) =? 0 then None
  else
    let pwork := modpol (init guess) rflags argpolys in
    if plen pwork <=? plen (spoly guess) + 1 then None
    else
      match short_setup rflags pwork (spoly guess)
              (if flag_set rflags R_HAVEQ then qpoly else pzero) with
      | None => None
      | Some (rflags', factor, qqpoly) =>
          Some (rflags', pshift factor 0 0 (plen factor - 1) 1, qqpoly)
      end.

(** The trial factors of a call of [reveng], in the order in which the loop
    tries them; none when the loop is not reached. *)
Definition candidates (guess : model_t) (qpoly : poly_t) (rflags : Z)
    (argpolys : list poly_t) : list poly_t :=
  match loop_entry guess qpoly rflags argpolys with
  | None => []
  | Some (rflags', factor, qqpoly) =>
      trial_factors (2 ^ plen factor) rflags' qqpoly factor
  end.

(** A list with the positions of its elements, counted from [i]. *)
Definition numbered_from {A : Type} (i : nat) (l : list A) : list (nat * A) :=
  combine (seq i (length l)) l.

Definition numbered {A : Type} (l : list A) : list (nat * A) := numbered_from 0 l.

(** The elements at the positions that are multiples of [m], the first
    element being at position [i]. *)
Definition every_nth_from {A : Type} (m : Z) (i : nat) (l : list A) : list A :=
  map snd (filter (fun p => (Z.of_nat (fst p) mod m =? 0)%Z) (numbered_from i l)).

Definition every_nth {A : Type} (m : Z) (l : list A) : list A :=
  every_nth_from m 0 l.

(** Progress reports for the polynomials [xs], with sequence numbers that
    count from [j] in an [unsigned long]. *)
Definition reports_from (ulong_bits : Z) (fl : Z) (j : nat) (xs : list poly_t)
  : list event :=
  map (fun jc => Uprog (snd jc) fl (Z.of_nat (fst jc) mod 2 ^ ulong_bits)%Z)
      (numbered_from j xs).

(** The progress reports expected for the trial factors [l]: one for every
    [m]-th of them, the first included, numbered from 0. *)
Definition expected_reports (ulong_bits m : Z) (fl : Z) (l : list poly_t)
  : list event :=
  reports_from ulong_bits fl 0 (every_nth m l).

(** A model lies in the range from the start polynomial of the guess to
    [qpoly], the end excluded. *)
Definition in_range (guess : model_t) (qpoly : poly_t) (m : model_t) : Prop :=
  (pcmp (spoly m) qpoly < 0)%Z /\ (0 <= pcmp (spoly m) (spoly guess))%Z.

(** *** The matrix of engini *)

(** The comment on the row reduction: every entry [mat[j]] of the lower half
    is the handle of [pzero], or a polynomial of [dlen + 1] bits whose first
    set bit is at [j]. *)
Definition echelon (dlen : nat) (rows : list row) : Prop :=
  length rows = dlen
  /\ forall j, j < dlen ->
       nth j rows RowZero = RowZero
       \/ exists p, nth j rows RowZero = RowData p
                    /\ plen p = dlen + 1 /\ pfirst p = j.

(** The free entries read as a binary counter, the entry that the solution
    loop visits first being the lowest digit. *)
Fixpoint counter (below : list row) : Z :=
  match below with
  | [] => 0
  | r :: rest => (match r with RowOne => 1 | _ => 0 end) + 2 * counter rest
  end%Z.

(** *** The GCD of the differences, after the words of the design *)

(** What a pair of samples contributes: their XOR when the lengths are
    equal; with Init given, each of the two with Init XORed into its leftmost
    bits, the shorter of them XORed into the longer where the right-aligned
    sample lies; nothing otherwise. *)
Definition pair_difference (init : poly_t) (have_init : bool) (a b : poly_t)
  : poly_t :=
  if plen a =? plen b then xor_into a b
  else if have_init then
    if plen a <? plen b
    then psum (psum b init 0) (psum a init 0) (plen b - plen a)
    else psum (psum a init 0) (psum b init 0) (plen a - plen b)
  else pzero.

(** All pairs of a list, each element with every later one. *)
Fixpoint all_pairs {A : Type} (l : list A) : list (A * A) :=
  match l with
  | [] => []
  | a :: rest => map (pair a) rest ++ all_pairs rest
  end.

(** One reduction step: swap [gcd] and [work] when [gcd] is the shorter,
    replace [gcd] by [pmod(gcd, work)], swap again. *)
Definition gcd_step (gcd work : poly_t) : poly_t * poly_t :=
  let '(g, w) := if plen gcd <? plen work then (work, gcd) else (gcd, work) in
  (w, pmod g w).

(** The step repeated until [work] normalises to zero. *)
Inductive gcd_reduction : poly_t -> poly_t -> poly_t -> Prop :=
| gcd_reduction_stop gcd work g w :
    gcd_step gcd work = (g, w) ->
    plen (pnorm w) = 0 ->
    gcd_reduction gcd work g
| gcd_reduction_more gcd work g w r :
    gcd_step gcd work = (g, w) ->
    plen (pnorm w) <> 0 ->
    gcd_reduction g (pnorm w) r ->
    gcd_reduction gcd work r.

(** The running GCD taken through a list of differences. *)
Inductive gcd_fold : poly_t -> list poly_t -> poly_t -> Prop :=
| gcd_fold_nil g : gcd_fold g [] g
| gcd_fold_cons g w ws g' r :
    gcd_reduction g w g' -> gcd_fold g' ws r -> gcd_fold g (w :: ws) r.

(** [d] is what the reduction gives for the samples [args]: the zero
    polynomial when there are fewer than two samples or every difference
    normalises to zero; else the first difference that does not, with every
    later one reduced into it in the order of the pairs. *)
Definition reduction_of_differences (init : poly_t) (have_init : bool)
    (args : list poly_t) (d : poly_t) : Prop :=
  if length args <? 2 then d = pzero
  else
    match filter (fun w => negb (plen w =? 0))
                 (map (fun ab => pnorm (pair_difference init have_init (fst ab) (snd ab)))
                      (all_pairs args)) with
    | [] => d = pzero
    | w :: ws => gcd_fold w ws d
    end.

(** *** Divisibility of polynomials over GF(2) *)

(** The product of two polynomials as a number: [q] holds the coefficients
    of one factor, the lowest first, and [c] spells the other; to add is to
    XOR, and to multiply by [x] is to double. *)
Fixpoint clmul (q : list bool) (c : Z) : Z :=
  match q with
  | [] => 0
  | b :: q' => Z.lxor (if b then c else 0) (2 * clmul q' c)
  end%Z.

(** [m] is a multiple of [c], both as the numbers that polynomials spell. *)
Definition multiple_of (c m : Z) : Prop := exists q, m = clmul q c.

(** The polynomial [c] divides the polynomial [p]; zeros before the first
    set bit of either do not count. *)
Definition pdivides (c p : poly_t) : Prop := multiple_of (pval c) (pval p).

(** The sum of two lists of coefficients. *)
Fixpoint qxor (a b : list bool) : list bool :=
  match a, b with
  | [], _ => b
  | _, [] => a
  | x :: a', y :: b' => xorb x y :: qxor a' b'
  end.

(** *** An environment for running the driver on examples *)

Definition bit_of_ascii (c : ascii) : bool := Ascii.eqb c "1".

Definition bits (s : string) : poly_t := map bit_of_ascii (list_ascii_of_string s).

Definition string_of_bits (p : poly_t) : string :=
  string_of_list_ascii (map (fun b : bool => if b then "1"%char else "0"%char) p).

(** An environment with no presets and no files, which reads and writes
    polynomials as strings of the digits 0 and 1. *)
Definition plain_env : Cli.cli_env :=
  {| Cli.ulong_bits := 64;
     Cli.R_SPMASK := 3;
     Cli.myname := "reveng";
     Cli.strtop := fun s _ _ => bits s;
     Cli.rdpoly := fun s _ _ => inr (s ++ ": cannot open for reading")%string;
     Cli.ptostr := fun p _ _ => string_of_bits p;
     Cli.mtostr := fun m => string_of_bits (spoly m);
     Cli.prevch := fun p _ => p;
     Cli.psncmp := pcmp;
     Cli.presets := [] |}.

(** Modelled from the spec: reveng.h is not among the sources.  [MZERO],
    the model with which [main] starts: no polynomial, no name; for the
    examples its flags are those of a big-endian augmenting algorithm. *)
Definition mzero : model_t :=
  {| spoly := pzero; init := pzero; flags := Z.lor P_RTJUST P_MULXN;
     xorout := pzero; check := pzero; magic := pzero; name := None |}.

(** *** Inputs for the examples *)

(** A guess of width 3 with Init and XorOut zero and the default flags. *)
Definition guess3 (start : string) : model_t :=
  {| spoly := bits start; init := bits "000"; flags := Z.lor P_RTJUST P_MULXN;
     xorout := bits "000"; check := pzero; magic := pzero; name := None |}.

(** A guess with every parameter given. *)
Definition guess_of (poly init xorout : string) (flags : Z) : model_t :=
  {| spoly := bits poly; init := bits init; flags := flags;
     xorout := bits xorout; check := pzero; magic := pzero; name := None |}.

(** The polynomial of [n] bits that spells the number [z]. *)
Fixpoint poly_of_Z (n : nat) (z : Z) : poly_t :=
  match n with
  | 0 => []
  | S k => poly_of_Z k (Z.div2 z) ++ [Z.odd z]
  end.

(** The bits of a string with every character reflected, as an input with
    [REFIN] is read. *)
Fixpoint reflected_bits_of_string (s : string) : list bool :=
  match s with
  | EmptyString => []
  | String c s' => rev (bits_of_ascii c) ++ reflected_bits_of_string s'
  end.

(** A message followed by its CRC-16/CCITT-FALSE checksum. *)
Definition ccitt_codeword (s : string) : poly_t :=
  bits_of_string s
  ++ pcrc (bits_of_string s) (poly_of_Z 16 0x1021) (poly_of_Z 16 0xFFFF)
          (poly_of_Z 16 0) P_MULXN.

(** *** Notions for the driver *)

(** A flag word is crossed-endian when [REFIN] and [REFOUT] differ in it. *)
Definition crossed (fl : Z) : bool :=
  negb (Bool.eqb (flag_set fl P_REFIN) (flag_set fl P_REFOUT)).

(** What may be said of a command: every action it adds has the property
    [P], and the value it goes on with, if it does not exit, has [Q]. *)
Definition runs {A : Type} (P : Cli.action -> Prop) (Q : A -> Prop)
    (c : Cli.cmd A) : Prop :=
  forall log, exists l,
    fst (c log) = log ++ l /\ Forall P l
    /\ match snd (c log) with inl x => Q x | inr _ => True end.

(** An action is safe for a run that started with endianness [c0] when, if
    it is a call of [reveng], the guess is not crossed-endian and has the
    crossing [c0] of the start. *)
Definition safe_action (c0 : bool) (a : Cli.action) : Prop :=
  match a with
  | Cli.Call_reveng g _ _ _ => crossed (flags g) = false /\ crossed (flags g) = c0
  | _ => True
  end.

Definition is_call (a : Cli.action) : bool :=
  match a with Cli.Call_reveng _ _ _ _ => true | _ => false end.

(** The variables of [main] after an option loop that has seen one mode
    switch and, when [width] is not zero, a [-w]. *)
Definition after_options (mode : ascii) (width : nat) : Cli.cli_state :=
  {| Cli.c_model := mzero; Cli.c_ibperhx := 8; Cli.c_obperhx := 8;
     Cli.c_rflags := 0; Cli.c_uflags := 0; Cli.c_width := width;
     Cli.c_mode := Cli.chr mode; Cli.c_qpoly := pzero |}.

(** The variables of [main] after the options [-w 3 -L -s]: little-endian
    output only, so [REFOUT] is set and [REFIN] is not. *)
Definition after_w3_L_s : Cli.cli_state :=
  {| Cli.c_model := Cli.set_flags mzero (Z.lor P_REFOUT P_MULXN);
     Cli.c_ibperhx := 8; Cli.c_obperhx := 8;
     Cli.c_rflags := R_HAVERO; Cli.c_uflags := 0; Cli.c_width := 3;
     Cli.c_mode := Cli.chr "s"; Cli.c_qpoly := pzero |}.

(** The same after [-w 3 -L -G -s]: the brute-force pass is to be skipped. *)
Definition after_w3_L_G_s : Cli.cli_state :=
  {| Cli.c_model := Cli.set_flags mzero (Z.lor P_REFOUT P_MULXN);
     Cli.c_ibperhx := 8; Cli.c_obperhx := 8;
     Cli.c_rflags := R_HAVERO; Cli.c_uflags := Cli.C_NOBFS; Cli.c_width := 3;
     Cli.c_mode := Cli.chr "s"; Cli.c_qpoly := pzero |}.

(** The same after [-L -s]: no width has been given. *)
Definition after_L_s : Cli.cli_state :=
  {| Cli.c_model := Cli.set_flags mzero (Z.lor P_REFOUT P_MULXN);
     Cli.c_ibperhx := 8; Cli.c_obperhx := 8;
     Cli.c_rflags := R_HAVERO; Cli.c_uflags := 0; Cli.c_width := 0;
     Cli.c_mode := Cli.chr "s"; Cli.c_qpoly := pzero |}.

(** The same after [-w 3 -L -f -s]: the samples are names of files. *)
Definition after_w3_L_f_s : Cli.cli_state :=
  {| Cli.c_model := Cli.set_flags mzero (Z.lor P_REFOUT P_MULXN);
     Cli.c_ibperhx := 8; Cli.c_obperhx := 8;
     Cli.c_rflags := R_HAVERO; Cli.c_uflags := Cli.C_INFILE; Cli.c_width := 3;
     Cli.c_mode := Cli.chr "s"; Cli.c_qpoly := pzero |}.

(** A preset of width 3 with [REFOUT] set and [REFIN] clear, and the
    environment of the examples with this preset as its table. *)
Definition crossed_preset : model_t :=
  {| spoly := bits "011"; init := bits "000"; flags := Z.lor P_REFOUT P_MULXN;
     xorout := bits "000"; check := pzero; magic := pzero;
     name := Some "CRC-3/CROSSED"%string |}.

Definition preset_env : Cli.cli_env :=
  {| Cli.ulong_bits := 64;
     Cli.R_SPMASK := 3;
     Cli.myname := "reveng";
     Cli.strtop := fun s _ _ => bits s;
     Cli.rdpoly := fun s _ _ => inr (s ++ ": cannot open for reading")%string;
     Cli.ptostr := fun p _ _ => string_of_bits p;
     Cli.mtostr := fun m => string_of_bits (spoly m);
     Cli.prevch := fun p _ => p;
     Cli.psncmp := pcmp;
     Cli.presets := [crossed_preset] |}.

(** The message with which the search for a crossed-endian model ends once
    the scan of the presets is over and has found nothing: [uflags] and
    [rflags] are those of the driver at that point. *)
Definition crossed_message (env : Cli.cli_env) (uflags rflags : Z) : string :=
  (Cli.myname env ++ ": "
   ++ (if flag_set uflags Cli.C_NOBFS && flag_set (Z.lnot rflags) R_HAVEP
       then "no models found"
       else "cannot search for crossed-endian models"))%string.

(* ===================================================================== *)
(** ** Further notions for the search *)
(* ===================================================================== *)

(** The models of a result array: the entries before the one that ends
    it. *)
Definition found (r : list model_t * list event) : list model_t :=
  removelast (fst r).

(** The models handed to [ufound], in the order of the calls. *)
Definition ufound_models (t : list event) : list model_t :=
  flat_map (fun e => match e with Ufound m => [m] | Uprog _ _ _ => [] end) t.

(** A model that a dispatch for [guess] under [rflags] on [divisor] can
    add: it has [divisor], the guess's flags, and the Init and XorOut of the
    guess where they are given. *)
Definition dispatched (guess : model_t) (rflags : Z) (divisor : poly_t)
    (m : model_t) : Prop :=
  exists i xo,
    m = candidate divisor i (flags guess) xo
    /\ (flag_set rflags R_HAVEI = true -> i = init guess)
    /\ (flag_set rflags R_HAVEX = true -> xo = xorout guess).

(** [st'] is [st] with models added, each handed to [ufound] and each with
    the property [P]; progress reports may have been made on the way. *)
Definition grows (P : model_t -> Prop) (st st' : rstate) : Prop :=
  exists ms, result st' = result st ++ ms
             /\ ufound_models (trace st') = ufound_models (trace st) ++ ms
             /\ Forall P ms.

(** The models that a call of [reveng] for [guess] under [rflags] can add:
    dispatched on a divisor of the guess's width, which is the guess's
    polynomial when that is given. *)
Definition search_result (guess : model_t) (rflags : Z) (m : model_t) : Prop :=
  exists d, dispatched guess rflags d m
            /\ plen d = plen (spoly guess)
            /\ (flag_set rflags R_HAVEP = true -> d = spoly guess).

(** [st'] is [st] with at most one model added. *)
Definition at_most_one (st st' : rstate) : Prop :=
  exists ms, result st' = result st ++ ms /\ length ms <= 1.

(** A polynomial is normal when it is empty or its lowest coefficient, the
    +1 term, is set. *)
Definition normal (p : poly_t) : Prop := p = [] \/ last p false = true.

(** The state of the loops of [modpol] once the differences [ds] have been
    taken in: either none of them has a bit set and no GCD has been started,
    or the running GCD is normal, not empty, and has the common divisors of
    [ds] that have the +1 term, and no others. *)
Definition merged (acc : poly_t * Z) (ds : list poly_t) : Prop :=
  (snd acc = 2%Z /\ fst acc = pzero /\ Forall (fun d => pval d = 0%Z) ds)
  \/ (Z.shiftr (snd acc) 1 = 0%Z /\ normal (fst acc) /\ fst acc <> []
      /\ forall c, Z.odd c = true ->
           (multiple_of c (pval (fst acc))
            <-> Forall (fun d => multiple_of c (pval d)) ds)).

(** The order of models by the number that their polynomial spells. *)
Definition by_poly (a b : model_t) : Prop := (pval (spoly a) <= pval (spoly b))%Z.

(** The [j] lowest bits of [b] are clear. *)
Definition low_clear (j b : Z) : Prop :=
  forall i, (0 <= i < j)%Z -> Z.testbit b i = false.

(* ===================================================================== *)
(** ** Reading a file: [rdpoly] and [oread] (cli.c) *)
(* ===================================================================== *)

Module File.

Definition BUFFER : Z := 32768.
Definition GSCALE : Z := 4.

(** What [rdpoly] sees of an open file: the chunks that the successive calls
    of [filtop(input, BUFFER, flags, bperhx)] return until [feof] or
    [ferror] is set, whether it is [ferror] that is set then, and whether
    [fclose] fails. *)
Record file := mk_file {
  f_chunks : Z -> Z -> list poly_t;
  f_error : bool;
  f_close_fails : bool
}.

(** The files that [fopen] can open, and what [stdin] holds. *)
Record file_system := mk_file_system {
  stdin : file;
  fopen : string -> option file
}.

(** [oread]: the handle, with the answer to [input == stdin], or the
    message printed before [exit(EXIT_FAILURE)]. *)
Definition oread (myname : string) (fs : file_system) (name : string)
  : (bool * file) + string :=
  if String.eqb name "-" then inl (true, stdin fs)
  else match fopen fs name with
       | Some handle => inl (false, handle)
       | None => inr (myname ++ ": " ++ name ++ ": cannot open for reading")%string
       end.

Section Rdpoly.

Variable ulong_bits : Z.

(** [~x] on an [unsigned long]. *)
Definition ulong_not (x : Z) : Z := (Z.lnot x mod 2 ^ ulong_bits)%Z.

(** [do { a = b; } while(b &= (b - 1UL));]: the value of [a] when the loop
    is left. *)
Fixpoint top_bit (fuel : nat) (b : Z) : option Z :=
  match fuel with
  | 0 => None
  | S f =>
      let a := b in
      let b := Z.land b ((b - 1) mod 2 ^ ulong_bits) in
      if (b =? 0)%Z then Some a else top_bit f b
  end.

(** [while(a && a < total) a += b;] *)
Fixpoint add_quanta (fuel : nat) (a b total : Z) : option Z :=
  match fuel with
  | 0 => None
  | S f =>
      if negb (a =? 0)%Z && (a <? total)%Z
      then add_quanta f ((a + b) mod 2 ^ ulong_bits) b total
      else Some a
  end.

(** "Grow apoly geometrically": the number of bits [a] that [apoly] is
    given when [total] has outgrown it.  The first loop gets one unit of
    fuel for every bit of an [unsigned long], the second one for every
    quantum that fits between a power of two and the next, and one more. *)
Definition grow (total : Z) : option Z :=
  let b := Z.land total (ulong_not (Z.shiftr total 1)) in
  match top_bit (Z.to_nat ulong_bits) b with
  | None => None
  | Some a =>
      let b := Z.shiftr a GSCALE in
      match (if (b =? 0)%Z then Some total
             else add_quanta (S (Z.to_nat (2 ^ GSCALE))) a b total) with
      | None => None
      | Some a => Some (if (a =? 0)%Z then ulong_not 0 else a)
      end
  end.

(** The body of the [while] loop for the chunk that [filtop] has returned;
    the state is [apoly] and [total].  [None] is the exit with "file too
    long". *)
Definition rdpoly_chunk (st : poly_t * Z) (chunk : poly_t) : option (poly_t * Z) :=
  let (apoly, total) := st in
  let total := ((total + Z.of_nat (plen chunk)) mod 2 ^ ulong_bits)%Z in
  if (total <? Z.of_nat (plen chunk))%Z then None
  else
    let apoly :=
      if (Z.of_nat (plen apoly) <? total)%Z then
        match grow total with
        | Some a => praloc apoly (Z.to_nat a)
        | None => apoly
        end
      else apoly in
    Some (psum apoly chunk (Z.to_nat (total - Z.of_nat (plen chunk))), total).

Fixpoint rdpoly_loop (chunks : list poly_t) (st : poly_t * Z)
  : option (poly_t * Z) :=
  match chunks with
  | [] => Some st
  | chunk :: rest =>
      match rdpoly_chunk st chunk with
      | Some st' => rdpoly_loop rest st'
      | None => None
      end
  end.

(** [rdpoly]: the polynomial read, or the message printed before
    [exit(EXIT_FAILURE)]. *)
Definition rdpoly (myname : string) (fs : file_system) (name : string)
    (flags bperhx : Z) : poly_t + string :=
  match oread myname fs name with
  | inr msg => inr msg
  | inl (is_stdin, input) =>
      match rdpoly_loop (f_chunks input flags bperhx) (pzero, 0%Z) with
      | None => inr (myname ++ ": " ++ name ++ ": file too long")%string
      | Some (apoly, total) =>
          let apoly := praloc apoly (Z.to_nat total) in
          if f_error input then
            inr (myname ++ ": " ++ name ++ ": error condition on file")%string
          else if negb is_stdin && f_close_fails input then
            inr (myname ++ ": " ++ name ++ ": error closing file")%string
          else inl apoly
      end
  end.

End Rdpoly.

End File.

(* ===================================================================== *)
(** ** The option loop of [main] (cli.c) *)
(* ===================================================================== *)

Module Options.

Import Cli.

(** What the option loop takes from files that are not among the sources:
    the size [BMP_BIT] of a bitmap word, the C library's [atoi] and [atol],
    [pkchop] of the polynomial store, [mrev] and [mbynam] of the model
    library (the latter returns its status and what it leaves in the model),
    and the text that [usage] writes. *)
Record opt_env := mk_opt_env {
  BMP_BIT    : Z;
  atoi       : string -> Z;
  atol       : string -> Z;
  pkchop     : poly_t -> poly_t;
  mrev       : model_t -> model_t;
  mbynam     : model_t -> string -> Z * model_t;
  usage_text : string
}.

(** Modelled from the spec: model.c is not among the sources.
    [mnovel(m)] clears the catalog name. *)
Definition mnovel (m : model_t) : model_t :=
  {| spoly := spoly m; init := init m; flags := flags m; xorout := xorout m;
     check := check m; magic := magic m; name := None |}.

Definition decZ (z : Z) : string := NilZero.string_of_int (Z.to_int z).

(** Assignments to the variables of [main]. *)
Definition upd_model (st : cli_state) (m : model_t) : cli_state :=
  {| c_model := m; c_ibperhx := c_ibperhx st; c_obperhx := c_obperhx st;
     c_rflags := c_rflags st; c_uflags := c_uflags st; c_width := c_width st;
     c_mode := c_mode st; c_qpoly := c_qpoly st |}.

Definition upd_flags (st : cli_state) (f : Z) : cli_state :=
  upd_model st (set_flags (c_model st) f).

Definition upd_bperhx (st : cli_state) (ibperhx obperhx : Z) : cli_state :=
  {| c_model := c_model st; c_ibperhx := ibperhx; c_obperhx := obperhx;
     c_rflags := c_rflags st; c_uflags := c_uflags st; c_width := c_width st;
     c_mode := c_mode st; c_qpoly := c_qpoly st |}.

Definition upd_rflags (st : cli_state) (rflags : Z) : cli_state :=
  {| c_model := c_model st; c_ibperhx := c_ibperhx st; c_obperhx := c_obperhx st;
     c_rflags := rflags; c_uflags := c_uflags st; c_width := c_width st;
     c_mode := c_mode st; c_qpoly := c_qpoly st |}.

Definition upd_uflags (st : cli_state) (uflags : Z) : cli_state :=
  {| c_model := c_model st; c_ibperhx := c_ibperhx st; c_obperhx := c_obperhx st;
     c_rflags := c_rflags st; c_uflags := uflags; c_width := c_width st;
     c_mode := c_mode st; c_qpoly := c_qpoly st |}.

Definition upd_width (st : cli_state) (width : nat) : cli_state :=
  {| c_model := c_model st; c_ibperhx := c_ibperhx st; c_obperhx := c_obperhx st;
     c_rflags := c_rflags st; c_uflags := c_uflags st; c_width := width;
     c_mode := c_mode st; c_qpoly := c_qpoly st |}.

Definition upd_mode (st : cli_state) (mode : Z) : cli_state :=
  {| c_model := c_model st; c_ibperhx := c_ibperhx st; c_obperhx := c_obperhx st;
     c_rflags := c_rflags st; c_uflags := c_uflags st; c_width := c_width st;
     c_mode := mode; c_qpoly := c_qpoly st |}.

Definition upd_qpoly (st : cli_state) (qpoly : poly_t) : cli_state :=
  {| c_model := c_model st; c_ibperhx := c_ibperhx st; c_obperhx := c_obperhx st;
     c_rflags := c_rflags st; c_uflags := c_uflags st; c_width := c_width st;
     c_mode := c_mode st; c_qpoly := qpoly |}.

(** [case 'r']. *)
Definition case_r (st : cli_state) : cli_state :=
  upd_flags st (Z.lor (flags (c_model st)) P_RTJUST).

(** [case 'B'], which falls through to [case 'r']. *)
Definition case_B (st : cli_state) : cli_state :=
  let st := upd_flags st (Z.land (flags (c_model st)) (Z.lnot P_REFOUT)) in
  let st := upd_rflags st (Z.lor (c_rflags st) R_HAVERO) in
  let st := upd_model st (mnovel (c_model st)) in
  case_r st.

(** [case 'b'], which falls through to [case 'B']. *)
Definition case_b (st : cli_state) : cli_state :=
  let st := upd_flags st (Z.land (flags (c_model st)) (Z.lnot P_REFIN)) in
  let st := upd_rflags st (Z.lor (c_rflags st) R_HAVERI) in
  case_B st.

(** [case 't']. *)
Definition case_t (st : cli_state) : cli_state :=
  upd_flags st (Z.land (flags (c_model st)) (Z.lnot P_RTJUST)).

(** [case 'L'], which falls through to [case 't']. *)
Definition case_L (st : cli_state) : cli_state :=
  let st := upd_flags st (Z.lor (flags (c_model st)) P_REFOUT) in
  let st := upd_rflags st (Z.lor (c_rflags st) R_HAVERO) in
  let st := upd_model st (mnovel (c_model st)) in
  case_t st.

(** [case 'l'], which falls through to [case 'L']. *)
Definition case_l (st : cli_state) : cli_state :=
  let st := upd_flags st (Z.lor (flags (c_model st)) P_REFIN) in
  let st := upd_rflags st (Z.lor (c_rflags st) R_HAVERI) in
  case_L st.

(** The mode switches. *)
Definition is_mode (c : ascii) : bool :=
  ((c =? "c") || (c =? "D") || (c =? "d") || (c =? "e") || (c =? "s")
   || (c =? "v"))%char.

Definition case_mode (env : cli_env) (c : ascii) (st : cli_state) : cmd cli_state :=
  if negb (c_mode st =? 0)%Z && negb (c_mode st =? chr c)%Z then
    act (Eprint (myname env ++ ": more than one mode switch specified.  Use "
                 ++ myname env ++ " -h for help.")) ;;;
    exit EXIT_FAILURE
  else ret (upd_mode st (chr c)).

(** The variable that [pptr] points to at the label [ipqx]. *)
Inductive target := To_spoly | To_init | To_xorout | To_qpoly.

Definition store (pptr : target) (p : poly_t) (st : cli_state) : cli_state :=
  let m := c_model st in
  match pptr with
  | To_spoly => upd_model st (set_polys m p (init m) (xorout m))
  | To_init => upd_model st (set_polys m (spoly m) p (xorout m))
  | To_xorout => upd_model st (set_polys m (spoly m) (init m) p)
  | To_qpoly => upd_qpoly st p
  end.

(** From the label [ipqx] to the [break]. *)
Definition ipqx (env : cli_env) (c : ascii) (pptr : target) (optarg : string)
    (st : cli_state) : cmd cli_state :=
  let st := store pptr (strtop env optarg 0 4) st in
  let st := upd_model st (mnovel (c_model st)) in
  let sp := spoly (c_model st) in
  (if (c =? "p")%char && (0 <? plen sp) && negb (pcoeff sp (plen sp - 1)) then
     act (Eprint (myname env ++ ": warning: POLY has no +1 term; did you mean -P "
                  ++ optarg ++ "?"))
   else ret tt) ;;;
  ret st.

(** [usage]: the help text goes to [stderr]. *)
Definition usage (oenv : opt_env) : cmd unit := act (Eprint (usage_text oenv)).

(** One turn of the option loop: the [switch] on the character [c] that
    [getopt] has returned, with its argument in [optarg].  The switch [-F]
    is as compiled without [ALWPCK], as the Makefile does. *)
Definition option_switch (env : cli_env) (oenv : opt_env) (c : ascii) (optarg : string)
    (st : cli_state) : cmd cli_state :=
  let m := c_model st in
  (if c =? "1" then
     ret (upd_flags st (Z.lor (flags m) P_EXHST))
   else if (c =? "A") || (c =? "a") then
     let obperhx := atoi oenv optarg in
     if (BMP_BIT oenv <? obperhx)%Z then
       act (Eprint (myname env ++ ": argument to -" ++ String c ""
                    ++ " must be between 1 and " ++ decZ (BMP_BIT oenv))) ;;;
       exit EXIT_FAILURE
     else ret (upd_bperhx st (if c =? "a" then obperhx else c_ibperhx st) obperhx)
   else if c =? "b" then ret (case_b st)
   else if c =? "B" then ret (case_B st)
   else if c =? "r" then ret (case_r st)
   else if is_mode c then case_mode env c st
   else if c =? "F" then ret (upd_uflags st (Z.lor (c_uflags st) C_NOPCK))
   else if c =? "f" then ret (upd_uflags st (Z.lor (c_uflags st) C_INFILE))
   else if c =? "G" then ret (upd_uflags st (Z.lor (c_uflags st) C_NOBFS))
   else if c =? "i" then
     ipqx env c To_init optarg (upd_rflags st (Z.lor (c_rflags st) R_HAVEI))
   else if (c =? "k") || (c =? "P") then
     let sp := pkchop oenv (strtop env optarg 0 4) in
     let st := upd_model st (set_polys m sp (init m) (xorout m)) in
     let st := upd_width st (plen sp) in
     let st := upd_rflags st (Z.lor (c_rflags st) R_HAVEP) in
     let sp := if c =? "P" then prcp sp else sp in
     let m := c_model st in
     ret (upd_model st (mnovel (set_polys m sp (init m) (xorout m))))
   else if c =? "l" then ret (case_l st)
   else if c =? "L" then ret (case_L st)
   else if c =? "t" then ret (case_t st)
   else if c =? "m" then
     let (found, m') := mbynam oenv m optarg in
     if (found =? 0)%Z then
       act (Eprint (myname env ++ ": preset model '" ++ optarg
                    ++ "' not found.  Use " ++ myname env
                    ++ " -D to list presets.")) ;;;
       exit EXIT_FAILURE
     else
       (if (found <? 0)%Z then uerror env "no preset models available"
        else ret tt) ;;;
       let st := upd_model st m' in
       let st := upd_width st (plen (spoly m')) in
       ret (upd_rflags st
              (Z.lor (c_rflags st)
                 (Z.lor R_HAVEP (Z.lor R_HAVEI (Z.lor R_HAVERI
                    (Z.lor R_HAVERO R_HAVEX))))))
   else if c =? "M" then
     ret (upd_flags st (Z.land (flags m) (Z.lnot P_MULXN)))
   else if c =? "p" then
     let rflags := Z.land (c_rflags st) (Z.lnot R_HAVEQ) in
     ipqx env c To_spoly optarg (upd_rflags st (Z.lor rflags R_HAVEP))
   else if c =? "q" then
     let rflags := Z.land (c_rflags st) (Z.lnot R_HAVEP) in
     ipqx env c To_qpoly optarg (upd_rflags st (Z.lor rflags R_HAVEQ))
   else if c =? "S" then ret (upd_flags st (Z.lor (flags m) P_SPACE))
   else if c =? "V" then ret (upd_model st (mrev oenv m))
   else if c =? "w" then
     ret (upd_width st (Z.to_nat (atol oenv optarg mod 2 ^ ulong_bits env)))
   else if c =? "X" then ret (upd_flags st (Z.lor (flags m) P_UPPER))
   else if c =? "x" then
     ipqx env c To_xorout optarg (upd_rflags st (Z.lor (c_rflags st) R_HAVEX))
   else if c =? "y" then ret (upd_flags st (Z.lor (flags m) P_LTLBYT))
   else if c =? "z" then ret (upd_flags st (Z.lor (flags m) P_DIRECT))
   else
     usage oenv ;;; exit EXIT_FAILURE)%char.

(** [do { c = getopt(...); switch(c) ... } while(c != -1)]: [opts] holds what
    the calls of [getopt] return before it returns -1, each character with
    the [optarg] that comes with it. *)
Fixpoint option_loop (env : cli_env) (oenv : opt_env)
    (opts : list (ascii * string)) (st : cli_state) : cmd cli_state :=
  match opts with
  | [] => ret st
  | (c, optarg) :: rest =>
      st' <- option_switch env oenv c optarg st ;;
      option_loop env oenv rest st'
  end.

(** The variables of [main] at their default values. *)
Definition defaults : cli_state :=
  {| c_model := mzero; c_ibperhx := 8; c_obperhx := 8; c_rflags := 0;
     c_uflags := 0; c_width := 0; c_mode := 0; c_qpoly := pzero |}.

(** [main]: the option loop on the results [opts] of [getopt], then the rest
    of [main] on the arguments [argv] that follow the options.  The result
    is what the run did and its exit status. *)
Definition main (env : cli_env) (oenv : opt_env)
    (opts : list (ascii * string)) (argv : list string) : list action * Z :=
  match option_loop env oenv opts defaults [] with
  | (log, inr status) => (log, status)
  | (log, inl st) =>
      let (log', status) := main_body env st argv in (log ++ log', status)
  end.

End Options.

(* ===================================================================== *)
(** ** Further notions for the driver *)
(* ===================================================================== *)

(** What may be said of a command from the actions [l] that it adds and the
    way it ends, with a value or through [exit]. *)
Definition yields {A : Type} (R : list Cli.action -> A + Z -> Prop)
    (c : Cli.cmd A) : Prop :=
  forall log, exists l, fst (c log) = log ++ l /\ R l (snd (c log)).

Definition is_puts (a : Cli.action) : bool :=
  match a with Cli.Puts _ => true | _ => false end.

Definition is_eprint (a : Cli.action) : bool :=
  match a with Cli.Eprint _ => true | _ => false end.

(** A run that fails has just written to [stderr]. *)
Definition fails_loudly (l : list Cli.action) (status : Z) : Prop :=
  status = Cli.EXIT_SUCCESS
  \/ (status = Cli.EXIT_FAILURE /\ exists l' msg, l = l' ++ [Cli.Eprint msg]).

(** A command that leaves through [exit] only with success or, after a
    message on [stderr], with failure. *)
Definition loud {A : Type} (c : Cli.cmd A) : Prop :=
  yields (fun l r => match r with
                     | inr status => fails_loudly l status
                     | inl _ => True
                     end) c.

(** A command that writes to [stderr] only and leaves through [exit] only
    with failure. *)
Definition quiet {A : Type} (c : Cli.cmd A) : Prop :=
  yields (fun l r => Forall (fun a => is_eprint a = true) l
                     /\ match r with
                        | inr status => status = Cli.EXIT_FAILURE
                        | inl _ => True
                        end) c.

(** Whether a line has been written with [puts]. *)
Definition has_puts (l : list Cli.action) : bool := existsb is_puts l.

(** [C_RESULT] is set in [u] when it was in [u0] or a line has been
    written. *)
Definition result_flag (u0 : Z) (l : list Cli.action) (u : Z) : Prop :=
  flag_set u Cli.C_RESULT = flag_set u0 Cli.C_RESULT || has_puts l.

(** How a command of the search mode ends: with success when, and only
    when, [C_RESULT] was set in [u0] or a line has been written. *)
Definition search_end (u0 : Z) (l : list Cli.action) (r : unit + Z) : Prop :=
  match r with
  | inl _ => flag_set u0 Cli.C_RESULT || has_puts l = true
  | inr status =>
      status = Cli.EXIT_SUCCESS <-> flag_set u0 Cli.C_RESULT || has_puts l = true
  end.

(** A preset [p] that the scan may report for the model [m]: it has the
    width, the reflection of input and output is that of [m], it has the
    parameters that are given, and it agrees with every sample. *)
Definition preset_fits (env : Cli.cli_env) (m : model_t) (rflags : Z)
    (width : nat) (apolys : list poly_t) (p : model_t) : Prop :=
  plen (spoly p) = width
  /\ flag_set (flags p) P_REFIN = flag_set (flags m) P_REFIN
  /\ flag_set (flags p) P_REFOUT = flag_set (flags m) P_REFOUT
  /\ (flag_set rflags R_HAVEP = true -> spoly p = spoly m)
  /\ (flag_set rflags R_HAVEI = true -> Cli.psncmp env (init m) (init p) = 0%Z)
  /\ (flag_set rflags R_HAVEX = true -> Cli.psncmp env (xorout m) (xorout p) = 0%Z)
  /\ Forall (agrees p) apolys.

(** *** The options by what they assign to *)

(** The options that fix the endianness of input and output. *)
Definition sets_endian (c : ascii) : bool :=
  ((c =? "b") || (c =? "l") || (c =? "m"))%char.

(** The options after which [REFIN] and [REFOUT] may differ. *)
Definition may_cross (c : ascii) : bool :=
  ((c =? "B") || (c =? "L") || (c =? "m") || (c =? "V"))%char.

(** The options that assign to [width]. *)
Definition sets_width (c : ascii) : bool :=
  ((c =? "w") || (c =? "k") || (c =? "P") || (c =? "m"))%char.

(** The options that may change [MULXN]. *)
Definition may_unset_mulxn (c : ascii) : bool :=
  ((c =? "M") || (c =? "m") || (c =? "V"))%char.

(** What one turn of the option loop for the character [c] does to the
    variables of [main]: it writes to [stderr] only; it leaves through
    [exit] only with failure and after a message; otherwise the mode, the
    endianness, [C_RESULT], [R_HAVERI], the width and [MULXN] change only
    through the options that are there for them. *)
Definition option_effect (c : ascii) (st : Cli.cli_state) (l : list Cli.action)
    (r : Cli.cli_state + Z) : Prop :=
  Forall (fun a => is_eprint a = true) l
  /\ match r with
     | inr status => status = Cli.EXIT_FAILURE /\ l <> []
     | inl st' =>
         Cli.c_mode st' = (if Options.is_mode c then Cli.chr c else Cli.c_mode st)
         /\ (Options.is_mode c = true ->
             Cli.c_mode st = 0%Z \/ Cli.c_mode st = Cli.chr c)
         /\ (if ((c =? "b") || (c =? "l"))%char
             then crossed (flags (Cli.c_model st')) = false
             else may_cross c = false ->
                  crossed (flags (Cli.c_model st'))
                  = crossed (flags (Cli.c_model st)))
         /\ flag_set (Cli.c_uflags st') Cli.C_RESULT
            = flag_set (Cli.c_uflags st) Cli.C_RESULT
         /\ flag_set (Cli.c_rflags st') R_HAVERI
            = flag_set (Cli.c_rflags st) R_HAVERI || sets_endian c
         /\ (sets_width c = false -> Cli.c_width st' = Cli.c_width st)
         /\ (may_unset_mulxn c = false ->
             flag_set (flags (Cli.c_model st')) P_MULXN
             = flag_set (flags (Cli.c_model st)) P_MULXN)
     end.

(** The same for the option loop on the characters [opts]. *)
Definition loop_effect (opts : list ascii) (st : Cli.cli_state)
    (l : list Cli.action) (r : Cli.cli_state + Z) : Prop :=
  Forall (fun a => is_eprint a = true) l
  /\ match r with
     | inr status => status = Cli.EXIT_FAILURE /\ l <> []
     | inl st' =>
         (Cli.c_mode st <> 0%Z -> Cli.c_mode st' = Cli.c_mode st)
         /\ (forall c, In c opts -> Options.is_mode c = true ->
                       Cli.c_mode st' = Cli.chr c)
         /\ (Forall (fun c => Options.is_mode c = false) opts ->
             Cli.c_mode st' = Cli.c_mode st)
         /\ (Forall (fun c => may_cross c = false) opts ->
             crossed (flags (Cli.c_model st)) = false ->
             crossed (flags (Cli.c_model st')) = false)
         /\ flag_set (Cli.c_uflags st') Cli.C_RESULT
            = flag_set (Cli.c_uflags st) Cli.C_RESULT
         /\ flag_set (Cli.c_rflags st') R_HAVERI
            = flag_set (Cli.c_rflags st) R_HAVERI || existsb sets_endian opts
         /\ (Forall (fun c => sets_width c = false) opts ->
             Cli.c_width st' = Cli.c_width st)
         /\ (Forall (fun c => may_unset_mulxn c = false) opts ->
             flag_set (flags (Cli.c_model st')) P_MULXN
             = flag_set (flags (Cli.c_model st)) P_MULXN)
     end.

(** An environment for running the option loop on examples: numbers are
    read as decimals, there are no presets, and [pkchop] and [mrev] leave
    their argument alone. *)
Definition plain_opt_env : Options.opt_env :=
  {| Options.BMP_BIT := 32;
     Options.atoi := fun s => match NilZero.int_of_string s with
                              | Some i => Z.of_int i | None => 0%Z end;
     Options.atol := fun s => match NilZero.int_of_string s with
                              | Some i => Z.of_int i | None => 0%Z end;
     Options.pkchop := fun p => p;
     Options.mrev := fun m => m;
     Options.mbynam := fun m _ => (0%Z, m);
     Options.usage_text := "Usage" |}.

(** A file of two chunks and a file system that holds it under one name, for
    running [rdpoly] on an example. *)
Definition two_chunks : File.file :=
  {| File.f_chunks := fun _ _ => [bits "1011"; bits "000"];
     File.f_error := false; File.f_close_fails := false |}.

Definition one_file : File.file_system :=
  {| File.stdin := {| File.f_chunks := fun _ _ => []; File.f_error := false;
                      File.f_close_fails := false |};
     File.fopen := fun name =>
       if String.eqb name "sample" then Some two_chunks else None |}.

(** The polynomial [Q * G + R], for the generator [G] whose chopped form is
    [g], a quotient [Q] and a remainder [R] of the length of [g]: every
    coefficient of [Q] that is set adds [G] at its place.  It states what the
    division of [pcrc] computes. *)
Fixpoint muladd (g Q R : list bool) : list bool :=
  match Q with
  | [] => R
  | t :: qs => t :: xor_into (muladd g qs R) (if t then g else [])
  end.

(* ===================================================================== *)
(** * Properties *)
(* ===================================================================== *)

(** ** Flag words *)

Lemma flag_set_bit (x k : Z) : (0 <= k)%Z -> flag_set x (2 ^ k) = Z.testbit x k.
Proof.
  intros Hk. unfold flag_set.
  destruct (Z.testbit x k) eqn:E.
  - apply negb_true_iff, Z.eqb_neq. intro H.
    assert (Hb : Z.testbit (Z.land x (2 ^ k)) k = true)
      by (rewrite Z.land_spec, E, Z.pow2_bits_true; auto).
    rewrite H, Z.bits_0 in Hb. discriminate.
  - apply negb_false_iff, Z.eqb_eq, Z.bits_inj'. intros n Hn.
    rewrite Z.land_spec, Z.bits_0.
    destruct (Z.eq_dec n k) as [->|Hne].
    + now rewrite E.
    + rewrite Z.pow2_bits_false by congruence. apply andb_false_r.
Qed.

Lemma flag_set_lnot (x k : Z) :
  (0 <= k)%Z -> flag_set (Z.lnot x) (2 ^ k) = negb (flag_set x (2 ^ k)).
Proof.
  intros Hk. rewrite !flag_set_bit by assumption. now apply Z.lnot_spec.
Qed.

Lemma flag_set_clear (x j k : Z) :
  (0 <= j)%Z -> (0 <= k)%Z ->
  flag_set (Z.land x (Z.lnot (2 ^ j))) (2 ^ k)
  = if (j =? k)%Z then false else flag_set x (2 ^ k).
Proof.
  intros Hj Hk. rewrite !flag_set_bit by assumption.
  rewrite Z.land_spec, Z.lnot_spec by assumption.
  rewrite Z.pow2_bits_eqb by assumption.
  destruct (j =? k)%Z; simpl; [apply andb_false_r | apply andb_true_r].
Qed.

Lemma flag_set_raise (x j k : Z) :
  (0 <= j)%Z -> (0 <= k)%Z ->
  flag_set (Z.lor x (2 ^ j)) (2 ^ k)
  = if (j =? k)%Z then true else flag_set x (2 ^ k).
Proof.
  intros Hj Hk. rewrite !flag_set_bit by assumption.
  rewrite Z.lor_spec, Z.pow2_bits_eqb by assumption.
  destruct (j =? k)%Z; simpl; [apply orb_true_r | apply orb_false_r].
Qed.

Lemma flag_set_clear_other (x j k : Z) :
  (0 <= j)%Z -> (0 <= k)%Z -> j <> k ->
  flag_set (Z.land x (Z.lnot (2 ^ j))) (2 ^ k) = flag_set x (2 ^ k).
Proof.
  intros Hj Hk Hne. rewrite flag_set_clear by assumption.
  now apply Z.eqb_neq in Hne; rewrite Hne.
Qed.

Lemma flag_set_clear_same (x k : Z) :
  (0 <= k)%Z -> flag_set (Z.land x (Z.lnot (2 ^ k))) (2 ^ k) = false.
Proof. intros Hk. now rewrite flag_set_clear, Z.eqb_refl. Qed.

Lemma flag_set_raise_other (x j k : Z) :
  (0 <= j)%Z -> (0 <= k)%Z -> j <> k ->
  flag_set (Z.lor x (2 ^ j)) (2 ^ k) = flag_set x (2 ^ k).
Proof.
  intros Hj Hk Hne. rewrite flag_set_raise by assumption.
  now apply Z.eqb_neq in Hne; rewrite Hne.
Qed.

Lemma flag_set_raise_same (x k : Z) :
  (0 <= k)%Z -> flag_set (Z.lor x (2 ^ k)) (2 ^ k) = true.
Proof. intros Hk. now rewrite flag_set_raise, Z.eqb_refl. Qed.

(** Write the masks as powers of two and settle the tests of bits that an
    assignment to the flag word has set, cleared or left alone. *)
Ltac flag_bits :=
  change P_REFIN with (2 ^ 0)%Z in *; change P_REFOUT with (2 ^ 1)%Z in *;
  change P_MULXN with (2 ^ 2)%Z in *;
  change R_HAVEP with (2 ^ 9)%Z in *; change R_HAVEI with (2 ^ 10)%Z in *;
  change R_HAVERI with (2 ^ 11)%Z in *; change R_HAVEX with (2 ^ 13)%Z in *;
  change R_HAVEQ with (2 ^ 14)%Z in *; change R_SHORT with (2 ^ 15)%Z in *;
  repeat first
    [ rewrite flag_set_lnot in * by lia
    | rewrite flag_set_clear_same in * by lia
    | rewrite flag_set_raise_same in * by lia
    | rewrite flag_set_clear_other in * by lia
    | rewrite flag_set_raise_other in * by lia ].

(** ** The CRC engine on a divisor of length zero *)

Lemma crc_step_nil divisor msg q :
  fst (fold_left (crc_step divisor) msg ([], q)) = [].
Proof.
  revert q. induction msg as [|b msg IH]; intros q; simpl; auto.
Qed.

Lemma pcrc_nil message init xorout fl : pcrc message [] init xorout fl = [].
Proof.
  unfold pcrc, pcrc_quot. simpl length. cbv zeta.
  rewrite Nat.sub_0_l. simpl repeat. simpl firstn. simpl skipn.
  change (xor_into [] init) with (@nil bool).
  pose proof (crc_step_nil [] ((if (Z.land fl P_MULXN =? 0)%Z then message else message ++ []) ++ []) []) as H.
  destruct (fold_left _ _ _) as [reg q]. simpl in *. subst. reflexivity.
Qed.

(** ** Soundness *)

Lemma chkres_loop_agrees divisor init xor args :
  chkres_loop divisor init xor args = true ->
  Forall (fun s => ptst (pcrc s divisor init xor 0) = false) args.
Proof.
  induction args as [|a args IH]; simpl; intros H; constructor.
  - destruct (ptst _); [discriminate | reflexivity].
  - destruct (ptst _); [discriminate | auto].
Qed.


Lemma chkres_sound args st divisor init fl xorout :
  sound args st -> sound args (chkres st divisor init fl xorout args).
Proof.
  intros Hs. unfold chkres.
  destruct (chkres_loop _ _ _ _) eqn:E; [|assumption].
  unfold sound. simpl result. apply Forall_app. split; [assumption|].
  constructor; [|constructor].
  apply chkres_loop_agrees in E. exact E.
Qed.

Lemma calout_sound args st divisor init fl :
  sound args st -> sound args (calout st divisor init fl args).
Proof.
  intros Hs. unfold calout. destruct args; [assumption|]. now apply chkres_sound.
Qed.

Lemma calini_sound args st divisor fl xorout :
  sound args st -> sound args (calini st divisor fl xorout args).
Proof.
  intros Hs. unfold calini. destruct args; [assumption|]. now apply chkres_sound.
Qed.

Lemma solutions_sound args fuel : forall st divisor bpoly pone fl rows st',
  sound args st ->
  solutions fuel st divisor bpoly pone fl args rows = Some st' ->
  sound args st'.
Proof.
  induction fuel as [|fuel IH]; intros st divisor bpoly pone fl rows st' Hs H;
    simpl in H; [discriminate|].
  destruct (solve_rows _ _ _ _ _ _) as [[apoly below] cy].
  destruct (cy =? 0)%Z.
  - eapply IH; [|exact H]. now apply calout_sound.
  - inversion H; subst. now apply calout_sound.
Qed.

Lemma engini_sound args st divisor fl :
  sound args st -> sound args (engini st divisor fl args).
Proof.
  intros Hs. unfold engini.
  destruct (two_shortest _ _ _ _ _ _) as [[[aptr alen] bptr] blen].
  destruct (aptr =? bptr); [now apply calini_sound|].
  destruct (solutions _ _ _ _ _ _ _ _) eqn:E; [|assumption].
  eapply solutions_sound; eauto.
Qed.

Lemma dispch_sound args guess st divisor rflags :
  sound args st -> sound args (dispch guess st divisor rflags args).
Proof.
  intros Hs. unfold dispch.
  destruct (_ && _); [now apply chkres_sound|].
  destruct (flag_set rflags R_HAVEI); [now apply calout_sound|].
  destruct (flag_set rflags R_HAVEX); [now apply calini_sound|].
  now apply engini_sound.
Qed.

Lemma search_body_sound ub sm args guess rflags pwork ls :
  sound args (l_st ls) ->
  sound args (l_st (search_body ub sm guess rflags pwork args ls)).
Proof.
  intros Hs. unfold search_body.
  set (st1 := if (Z.land (l_spin ls) sm =? 0)%Z then _ else l_st ls).
  assert (H1 : sound args st1).
  { subst st1. destruct (_ =? _)%Z; assumption. }
  clearbody st1.
  destruct (flag_set rflags R_SHORT).
  - destruct (negb (ptst (pcrc pwork (l_factor ls) pzero pzero 0))) eqn:E.
    + destruct (pcrc_quot _ _ _ _ _) as [rem quot]. simpl.
      destruct (negb (ptst rem)); simpl; [now apply dispch_sound | assumption].
    + simpl. rewrite E. simpl. assumption.
  - simpl. destruct (negb _); simpl; [now apply dispch_sound | assumption].
Qed.

Lemma search_loop_sound ub sm args guess rflags qq pwork fuel : forall ls ls',
  sound args (l_st ls) ->
  search_loop ub sm fuel guess rflags qq pwork args ls = Some ls' ->
  sound args (l_st ls').
Proof.
  induction fuel as [|fuel IH]; intros ls ls' Hs H; [discriminate|].
  cbn [search_loop] in H.
  destruct (piter (l_factor ls)) as [c more].
  destruct (more && _).
  - match type of H with context [search_body ?a ?b ?c ?d ?e ?f ?g] =>
      pose proof (search_body_sound a b f c d e g Hs) as Hb;
      destruct (search_body a b c d e f g) as [f1 g1 sp1 sq1 st1] end.
    cbn [l_factor l_st l_gpoly l_spin l_seq] in *. destruct (piter f1) as [c' more'].
    destruct (negb more').
    + inversion H; subst. exact Hb.
    + eapply IH; [|exact H]. exact Hb.
  - inversion H; subst. exact Hs.
Qed.

Lemma sound_rstate0 args : sound args rstate0.
Proof. constructor. Qed.

Lemma enumerate_sound ub sm args guess qpoly rflags pwork :
  sound args (enumerate ub sm guess qpoly rflags pwork args).
Proof.
  unfold enumerate.
  destruct (short_setup _ _ _ _) as [[[rf f] qq]|]; [|apply sound_rstate0].
  destruct (search_loop _ _ _ _ _ _ _ _ _) eqn:E; [|apply sound_rstate0].
  eapply search_loop_sound; [|exact E]. apply sound_rstate0.
Qed.

Lemma sentinel_agrees s : agrees sentinel s.
Proof. unfold agrees. simpl. now rewrite pcrc_nil. Qed.


(** ** Polynomials as numbers *)

Lemma lval_bounds l : (0 <= lval l < 2 ^ Z.of_nat (length l))%Z.
Proof.
  induction l as [|b t IH]; [simpl; lia|].
  cbn [lval length]. rewrite Nat2Z.inj_succ, Z.pow_succ_r by lia.
  destruct b; lia.
Qed.

Lemma lval_app l b :
  lval (l ++ [b]) = (lval l + (if b then 2 ^ Z.of_nat (length l) else 0))%Z.
Proof.
  induction l as [|x t IH].
  - destruct b; reflexivity.
  - cbn [app lval length]. rewrite IH, Nat2Z.inj_succ, Z.pow_succ_r by lia.
    destruct x, b; lia.
Qed.

Lemma pval_lval p : pval p = lval (rev p).
Proof.
  induction p as [|b t IH]; [reflexivity|].
  cbn [pval rev]. rewrite lval_app, length_rev, IH. lia.
Qed.

Lemma pval_bounds p : (0 <= pval p < 2 ^ Z.of_nat (plen p))%Z.
Proof.
  rewrite pval_lval. unfold plen. rewrite <- (length_rev p). apply lval_bounds.
Qed.

Lemma length_incr_lsb l : length (incr_lsb l) = length l.
Proof. induction l as [|[] t IH]; simpl; auto. Qed.

Lemma lval_incr_lsb l :
  lval (incr_lsb l) = ((lval l + 1) mod 2 ^ Z.of_nat (length l))%Z.
Proof.
  induction l as [|b t IH]; [reflexivity|].
  pose proof (lval_bounds t) as Hb.
  cbn [length]. rewrite Nat2Z.inj_succ, Z.pow_succ_r by lia.
  destruct b; cbn [incr_lsb lval].
  - rewrite IH.
    replace (1 + 2 * lval t + 1)%Z with (2 * (lval t + 1))%Z by lia.
    rewrite Z.mul_mod_distr_l by lia. lia.
  - rewrite Z.mod_small by lia. lia.
Qed.

Lemma ptst_pval p : ptst p = negb (pval p =? 0)%Z.
Proof.
  induction p as [|b t IH]; [reflexivity|].
  pose proof (pval_bounds t) as Hb.
  cbn [ptst existsb pval]. fold (ptst t). rewrite IH.
  destruct b; simpl.
  - symmetry. apply negb_true_iff, Z.eqb_neq. lia.
  - reflexivity.
Qed.

Lemma piter_spec p q more :
  piter p = (q, more) ->
  plen q = plen p
  /\ pval q = ((pval p + 1) mod 2 ^ Z.of_nat (plen p))%Z
  /\ more = negb (pval q =? 0)%Z.
Proof.
  unfold piter. intros H. inversion H; subst. clear H.
  repeat split.
  - unfold plen. now rewrite length_rev, length_incr_lsb, length_rev.
  - rewrite !pval_lval, rev_involutive, lval_incr_lsb.
    unfold plen. now rewrite length_rev.
  - apply ptst_pval.
Qed.

(** When [piter] reports no wrap-around the number has grown by one. *)
Lemma piter_more p q :
  piter p = (q, true) -> plen q = plen p /\ pval q = (pval p + 1)%Z.
Proof.
  intros H. apply piter_spec in H. destruct H as (Hl & Hv & Hm).
  split; [assumption|].
  pose proof (pval_bounds p) as Hb.
  symmetry in Hm. apply negb_true_iff, Z.eqb_neq in Hm.
  destruct (Z.eq_dec (pval p + 1) (2 ^ Z.of_nat (plen p))) as [E|E].
  - rewrite E, Z.mod_same in Hv by lia. contradiction.
  - rewrite Z.mod_small in Hv by lia. assumption.
Qed.


Lemma pcmp_sgn a : forall b,
  plen a = plen b -> Z.sgn (pcmp a b) = Z.sgn (pval a - pval b).
Proof.
  induction a as [|x a IH]; intros [|y b] Hl; try discriminate; [reflexivity|].
  injection Hl as Hl. cbn [pcmp pval].
  pose proof (pval_bounds a) as Ha. pose proof (pval_bounds b) as Hb.
  pose proof (IH b Hl) as IHb. clear IH.
  unfold plen in Ha, Hb, Hl. rewrite Hl in *.
  destruct x, y; cbn [Bool.eqb].
  - rewrite IHb. f_equal. lia.
  - rewrite !Z.sgn_pos; lia.
  - rewrite !Z.sgn_neg; lia.
  - rewrite IHb. f_equal.
Qed.

Lemma pcmp_nonneg a b :
  plen a = plen b -> (pval b <= pval a)%Z -> (0 <= pcmp a b)%Z.
Proof.
  intros Hl Hv. pose proof (pcmp_sgn a b Hl) as H.
  destruct (Z.sgn_spec (pcmp a b)) as [[? ?]|[[? ?]|[? ?]]]; lia.
Qed.

(** ** The search loop and its trial factors *)


Section Loop.

Variables (ub sm : Z) (guess : model_t) (rflags : Z) (qq pwork : poly_t)
          (args : list poly_t).

Let trial := try_factor ub sm guess rflags pwork args.
Let loop fuel := search_loop ub sm fuel guess rflags qq pwork args.

Lemma search_body_factor ls :
  l_factor (search_body ub sm guess rflags pwork args ls) = l_factor ls.
Proof.
  unfold search_body.
  destruct (if flag_set rflags R_SHORT then _ else _) as [rem gpoly].
  reflexivity.
Qed.

Lemma trial_same a b c : same_but_factor a b -> trial a c = trial b c.
Proof.
  intros (Hg & Hsp & Hsq & Hst). unfold trial, try_factor.
  now rewrite Hg, Hsp, Hsq, Hst.
Qed.

Lemma fold_trial_same l : forall a b,
  same_but_factor a b ->
  same_but_factor (fold_left trial l a) (fold_left trial l b).
Proof.
  destruct l as [|c l]; intros a b H; [exact H|].
  cbn [fold_left]. rewrite (trial_same a b c H). repeat split.
Qed.

Lemma search_loop_trials fuel : forall ls ls',
  loop fuel ls = Some ls' ->
  same_but_factor ls'
    (fold_left trial (trial_factors fuel rflags qq (l_factor ls)) ls).
Proof.
  unfold loop.
  induction fuel as [|fuel IH]; intros ls ls' H; [discriminate|].
  cbn [search_loop trial_factors] in *.
  destruct (piter (l_factor ls)) as [c more].
  destruct (more && _).
  - change (search_body ub sm guess rflags pwork args _) with (trial ls c) in H.
    pose proof (search_body_factor
                  {| l_factor := c; l_gpoly := l_gpoly ls; l_spin := l_spin ls;
                     l_seq := l_seq ls; l_st := l_st ls |}) as Hf.
    change (search_body ub sm guess rflags pwork args _) with (trial ls c) in Hf.
    cbn [l_factor] in Hf. rewrite Hf in H.
    destruct (piter c) as [c' more']. cbn [fold_left].
    destruct (negb more').
    + inversion H; subst. repeat split.
    + apply IH in H. cbn [l_factor] in H.
      destruct H as (Hg & Hsp & Hsq & Hst).
      pose proof (fold_trial_same (trial_factors fuel rflags qq c')
                    {| l_factor := c'; l_gpoly := l_gpoly (trial ls c);
                       l_spin := l_spin (trial ls c); l_seq := l_seq (trial ls c);
                       l_st := l_st (trial ls c) |} (trial ls c)
                    (conj eq_refl (conj eq_refl (conj eq_refl eq_refl))))
        as (Hg' & Hsp' & Hsq' & Hst').
      repeat split; congruence.
  - inversion H; subst. repeat split.
Qed.

(** The loop ends before its fuel does: the trial factor, read as a number,
    grows with every turn. *)
Lemma search_loop_fuel fuel : forall ls,
  (2 ^ Z.of_nat (plen (l_factor ls)) - pval (l_factor ls) <= Z.of_nat fuel)%Z ->
  exists ls', loop fuel ls = Some ls'.
Proof.
  unfold loop.
  induction fuel as [|fuel IH]; intros ls Hf.
  - pose proof (pval_bounds (l_factor ls)). lia.
  - cbn [search_loop].
    destruct (piter (l_factor ls)) as [c more] eqn:E1.
    destruct more; cbn [andb]; [|eauto].
    destruct (_ || _); [|eauto].
    apply piter_more in E1. destruct E1 as [Hl1 Hv1].
    rewrite search_body_factor. cbn [l_factor].
    destruct (piter c) as [c' more'] eqn:E2.
    destruct more'; cbn [negb]; [|eauto].
    apply piter_more in E2. destruct E2 as [Hl2 Hv2].
    apply IH. cbn [l_factor]. rewrite Hl2, Hl1. lia.
Qed.

Lemma search_loop_enough ls :
  exists ls', loop (2 ^ plen (l_factor ls)) ls = Some ls'.
Proof.
  apply search_loop_fuel. rewrite Nat2Z.inj_pow.
  pose proof (pval_bounds (l_factor ls)). change (Z.of_nat 2) with 2%Z. lia.
Qed.


(** Every trial factor has the length of the first, is greater than the
    value the loop was entered with and, with a range end in play, lies
    before it. *)
Lemma trial_factors_range fuel : forall f c,
  In c (trial_factors fuel rflags qq f) ->
  plen c = plen f /\ (pval f < pval c)%Z
  /\ (flag_set (Z.lnot rflags) R_HAVEQ = false -> (pcmp c qq < 0)%Z).
Proof.
  induction fuel as [|fuel IH]; intros f c H; [contradiction|].
  cbn [trial_factors] in H.
  destruct (piter f) as [c1 more] eqn:E1.
  destruct more; cbn [andb] in H; [|contradiction].
  destruct (_ || _) eqn:Eq; [|contradiction].
  apply piter_more in E1. destruct E1 as [Hl1 Hv1].
  destruct H as [->|H].
  - repeat split; [assumption | lia |].
    intros Hq. rewrite Hq in Eq. cbn [orb] in Eq. now apply Z.ltb_lt in Eq.
  - destruct (piter c1) as [c2 more'] eqn:E2.
    destruct more'; cbn [negb] in H; [|contradiction].
    apply piter_more in E2. destruct E2 as [Hl2 Hv2].
    apply IH in H. destruct H as (Hl & Hv & Hq).
    repeat split; [congruence | lia | assumption].
Qed.

End Loop.

(** ** What a dispatch adds *)


Lemma adds_models_refl P st : adds_models P st st.
Proof. exists []. simpl. now rewrite !app_nil_r. Qed.

Lemma adds_models_trans P st1 st2 st3 :
  adds_models P st1 st2 -> adds_models P st2 st3 -> adds_models P st1 st3.
Proof.
  intros (ms1 & Hr1 & Ht1 & HP1) (ms2 & Hr2 & Ht2 & HP2).
  exists (ms1 ++ ms2). rewrite Hr2, Hr1, Ht2, Ht1, map_app, !app_assoc.
  repeat split. now apply Forall_app.
Qed.

#[local] Hint Resolve adds_models_refl : core.

Lemma chkres_adds st divisor init fl xorout args :
  adds_models (fun m => spoly m = divisor) st
              (chkres st divisor init fl xorout args).
Proof.
  unfold chkres. destruct (chkres_loop _ _ _ _); [|auto].
  eexists [_]. cbn [result trace map]. repeat split. constructor; [reflexivity|constructor].
Qed.

Lemma calout_adds st divisor init fl args :
  adds_models (fun m => spoly m = divisor) st (calout st divisor init fl args).
Proof. unfold calout. destruct args; [auto | apply chkres_adds]. Qed.

Lemma calini_adds st divisor fl xorout args :
  adds_models (fun m => spoly m = divisor) st (calini st divisor fl xorout args).
Proof. unfold calini. destruct args; [auto | apply chkres_adds]. Qed.

Lemma solutions_adds args divisor bpoly pone fl fuel : forall st rows st',
  solutions fuel st divisor bpoly pone fl args rows = Some st' ->
  adds_models (fun m => spoly m = divisor) st st'.
Proof.
  induction fuel as [|fuel IH]; intros st rows st' H; [discriminate|].
  cbn [solutions] in H.
  destruct (solve_rows _ _ _ _ _ _) as [[apoly below] cy].
  destruct (cy =? 0)%Z.
  - eapply adds_models_trans; [apply calout_adds | eapply IH, H].
  - inversion H; subst. apply calout_adds.
Qed.

Lemma engini_adds st divisor fl args :
  adds_models (fun m => spoly m = divisor) st (engini st divisor fl args).
Proof.
  unfold engini.
  destruct (two_shortest _ _ _ _ _ _) as [[[aptr alen] bptr] blen].
  destruct (aptr =? bptr); [apply calini_adds|].
  destruct (solutions _ _ _ _ _ _ _ _) eqn:E; [|auto].
  eapply solutions_adds, E.
Qed.

Lemma dispch_adds guess st divisor rflags args :
  adds_models (fun m => spoly m = divisor) st
              (dispch guess st divisor rflags args).
Proof.
  unfold dispch.
  destruct (_ && _); [apply chkres_adds|].
  destruct (flag_set rflags R_HAVEI); [apply calout_adds|].
  destruct (flag_set rflags R_HAVEX); [apply calini_adds|].
  apply engini_adds.
Qed.

Lemma progress_app t1 t2 : progress (t1 ++ t2) = progress t1 ++ progress t2.
Proof. apply filter_app. Qed.

Lemma progress_ufound ms : progress (map Ufound ms) = [].
Proof. induction ms; simpl; auto. Qed.

Lemma adds_models_progress P st st' :
  adds_models P st st' -> progress (trace st') = progress (trace st).
Proof.
  intros (ms & _ & Ht & _).
  now rewrite Ht, progress_app, progress_ufound, app_nil_r.
Qed.

(** ** Lengths in the polynomial store *)

Lemma plen_pright p n : plen (pright p n) = n.
Proof.
  unfold pright, plen. rewrite length_app, repeat_length, length_skipn. lia.
Qed.

Lemma plen_palloc n : plen (palloc n) = n.
Proof. apply repeat_length. Qed.

Lemma plen_pinv p : plen (pinv p) = plen p.
Proof. apply length_map. Qed.

Lemma pshift_chop p : pshift p 0 1 (plen p) 0 = tl p.
Proof.
  unfold pshift, plen. rewrite Nat.sub_diag. cbn [repeat app].
  rewrite !app_nil_r. destruct p as [|b t]; [reflexivity|].
  cbn [length skipn tl]. rewrite Nat.sub_succ, Nat.sub_0_r. apply firstn_all.
Qed.

(** Clearing the lowest bit: the number drops by at most one. *)
Lemma pshift_clear_low p :
  plen p <> 0 ->
  plen (pshift p 0 0 (plen p - 1) 1) = plen p
  /\ (pval p <= pval (pshift p 0 0 (plen p - 1) 1) + 1)%Z.
Proof.
  intros Hp. unfold pshift, plen in *.
  replace (length p - 1 - length p) with 0 by lia.
  cbn [repeat app skipn]. rewrite app_nil_r, Nat.sub_0_r.
  destruct (exists_last (l := p)) as (q & b & ->).
  { intros ->. now apply Hp. }
  assert (Hf : firstn (length (q ++ [b]) - 1) (q ++ [b]) = q).
  { rewrite length_app. cbn [length]. rewrite Nat.add_sub.
    rewrite firstn_app, Nat.sub_diag, firstn_all. cbn [firstn]. apply app_nil_r. }
  rewrite Hf.
  split; [now rewrite !length_app|].
  rewrite !pval_lval, !rev_app_distr. cbn [rev app lval].
  destruct b; lia.
Qed.

(** ** The branches of reveng *)

Section Branches.

Variables (ub sm : Z) (guess : model_t) (qpoly : poly_t) (rflags : Z)
          (args : list poly_t).

Let width := plen (spoly guess).
Let D := modpol (init guess) rflags args.

Lemma reveng_have_poly :
  flag_set rflags R_HAVEP = true ->
  reveng ub sm guess qpoly rflags args
  = requit (dispch guess rstate0 (spoly guess) rflags args).
Proof. intros H. unfold reveng. now rewrite H. Qed.

Lemma reveng_too_short :
  flag_set rflags R_HAVEP = false -> plen D < width + 1 ->
  reveng ub sm guess qpoly rflags args = ([sentinel], []).
Proof.
  intros H Hlt. unfold reveng. rewrite H.
  destruct (plen (spoly guess) =? 0); [reflexivity|]. cbv zeta.
  apply Nat.ltb_lt in Hlt. fold D width. now rewrite Hlt.
Qed.

Lemma reveng_unique :
  flag_set rflags R_HAVEP = false -> width <> 0 -> plen D = width + 1 ->
  reveng ub sm guess qpoly rflags args
  = requit (dispch guess rstate0 (tl D) rflags args).
Proof.
  intros H Hw Heq. unfold reveng. rewrite H.
  apply Nat.eqb_neq in Hw. fold width. rewrite Hw. cbv zeta. fold D.
  replace (plen D <? width + 1) with false by (symmetry; apply Nat.ltb_ge; lia).
  apply Nat.eqb_eq in Heq. rewrite Heq.
  unfold pclone. now rewrite pshift_chop.
Qed.

Lemma reveng_enumerates :
  flag_set rflags R_HAVEP = false -> width <> 0 -> width + 1 < plen D ->
  reveng ub sm guess qpoly rflags args
  = requit (enumerate ub sm guess qpoly rflags D args).
Proof.
  intros H Hw Hlt. unfold reveng. rewrite H.
  apply Nat.eqb_neq in Hw. fold width. rewrite Hw. cbv zeta. fold D.
  replace (plen D <? width + 1) with false by (symmetry; apply Nat.ltb_ge; lia).
  replace (plen D =? width + 1) with false by (symmetry; apply Nat.eqb_neq; lia).
  reflexivity.
Qed.

(** Where the loop is entered, the result is that of the loop body run on
    the trial factors in turn. *)
Lemma reveng_loop rflags' f0 qq :
  loop_entry guess qpoly rflags args = Some (rflags', f0, qq) ->
  reveng ub sm guess qpoly rflags args
  = requit (l_st (fold_left (try_factor ub sm guess rflags' D args)
                            (candidates guess qpoly rflags args)
                            (loop_start f0))).
Proof.
  intros He. unfold candidates. rewrite He.
  unfold loop_entry in He.
  destruct (flag_set rflags R_HAVEP) eqn:Hp; [discriminate|].
  destruct (plen (spoly guess) =? 0) eqn:Hw; [discriminate|].
  cbv zeta in He. fold D width in He.
  destruct (plen D <=? width + 1) eqn:Hl; [discriminate|].
  apply Nat.eqb_neq in Hw. apply Nat.leb_gt in Hl.
  rewrite reveng_enumerates by assumption.
  unfold enumerate, pclone. fold width.
  destruct (short_setup _ _ _ _) as [[[rf f] q]|]; [|discriminate].
  inversion He; subst. clear He.
  set (f0 := pshift f 0 0 (plen f - 1) 1).
  destruct (search_loop_enough ub sm guess rflags' qq D args (loop_start f0))
    as [ls' Hls].
  cbn [loop_start l_factor] in Hls. rewrite Hls.
  apply search_loop_trials in Hls. destruct Hls as (_ & _ & _ & ->).
  reflexivity.
Qed.

End Branches.

(** ** One turn of the search loop *)

Section Turn.

Variables (ub sm : Z) (guess : model_t) (rflags : Z) (pwork : poly_t)
          (args : list poly_t).

Let trial := try_factor ub sm guess rflags pwork args.

Lemma try_factor_state ls c :
  l_st (trial ls c)
  = if ptst (pcrc pwork c pzero pzero 0) then reported sm guess ls c
    else dispch guess (reported sm guess ls c) (trial_divisor rflags pwork c)
                rflags args.
Proof.
  unfold trial, try_factor, search_body, trial_divisor, reported, pcrc.
  cbn [l_factor l_gpoly l_spin l_seq l_st].
  destruct (flag_set rflags R_SHORT).
  - destruct (pcrc_quot pwork c pzero pzero 0) as [rem quot]. cbn [fst snd].
    destruct (ptst rem) eqn:E; cbn [negb l_st]; rewrite ?E; reflexivity.
  - cbn [l_st]. destruct (ptst _); reflexivity.
Qed.

Lemma try_factor_counters ls c :
  l_spin (trial ls c) = ulong_succ ub (l_spin ls)
  /\ l_seq (trial ls c)
     = if (Z.land (l_spin ls) sm =? 0)%Z then ulong_succ ub (l_seq ls)
       else l_seq ls.
Proof.
  unfold trial, try_factor, search_body.
  cbn [l_factor l_gpoly l_spin l_seq l_st].
  destruct (if flag_set rflags R_SHORT then _ else _) as [rem gpoly].
  split; reflexivity.
Qed.

Lemma try_factor_progress ls c :
  progress (trace (l_st (trial ls c)))
  = progress (trace (l_st ls))
    ++ (if (Z.land (l_spin ls) sm =? 0)%Z
        then [Uprog c (flags guess) (l_seq ls)] else []).
Proof.
  rewrite try_factor_state.
  assert (Hr : progress (trace (reported sm guess ls c))
               = progress (trace (l_st ls))
                 ++ (if (Z.land (l_spin ls) sm =? 0)%Z
                     then [Uprog c (flags guess) (l_seq ls)] else [])).
  { unfold reported. destruct (_ =? _)%Z.
    - cbn [trace]. now rewrite progress_app.
    - now rewrite app_nil_r. }
  destruct (ptst _); [exact Hr|].
  rewrite (adds_models_progress _ _ _ (dispch_adds _ _ _ _ _)). exact Hr.
Qed.

(** In the full-width search the models that a turn adds carry the trial
    factor. *)
Lemma try_factor_result ls c :
  flag_set rflags R_SHORT = false ->
  exists ms, result (l_st (trial ls c)) = result (l_st ls) ++ ms
             /\ Forall (fun m => spoly m = c) ms.
Proof.
  intros Hs. rewrite try_factor_state.
  assert (Hr : result (reported sm guess ls c) = result (l_st ls)).
  { unfold reported. destruct (_ =? _)%Z; reflexivity. }
  destruct (ptst _).
  - exists []. now rewrite app_nil_r.
  - destruct (dispch_adds guess (reported sm guess ls c)
                (trial_divisor rflags pwork c) rflags args) as (ms & Hres & _ & HP).
    exists ms. rewrite Hres, Hr. split; [reflexivity|].
    unfold trial_divisor in HP. now rewrite Hs in HP.
Qed.

Lemma fold_trial_result l : forall ls,
  flag_set rflags R_SHORT = false ->
  exists ms, result (l_st (fold_left trial l ls)) = result (l_st ls) ++ ms
             /\ Forall (fun m => In (spoly m) l) ms.
Proof.
  induction l as [|c l IH]; intros ls Hs.
  - exists []. now rewrite app_nil_r.
  - cbn [fold_left].
    destruct (IH (trial ls c) Hs) as (ms2 & H2 & P2).
    destruct (try_factor_result ls c Hs) as (ms1 & H1 & P1).
    exists (ms1 ++ ms2). rewrite H2, H1, app_assoc. split; [reflexivity|].
    apply Forall_app. split.
    + eapply Forall_impl; [|exact P1]. intros m ->. now left.
    + eapply Forall_impl; [|exact P2]. intros m Hm. now right.
Qed.

End Turn.

(** ** Progress reports *)

Lemma land_mask x k : (0 <= k)%Z -> Z.land x (2 ^ k - 1) = (x mod 2 ^ k)%Z.
Proof.
  intros Hk. rewrite <- Z.land_ones by assumption.
  now rewrite Z.ones_equiv, <- Z.sub_1_r.
Qed.

Lemma mod_pow2_mod x k ub :
  (0 <= k <= ub)%Z -> ((x mod 2 ^ ub) mod 2 ^ k = x mod 2 ^ k)%Z.
Proof.
  intros Hk. apply Z.mod_mod_divide.
  exists (2 ^ (ub - k))%Z. rewrite <- Z.pow_add_r by lia. f_equal. lia.
Qed.

Lemma every_nth_from_cons {A : Type} m i (c : A) l :
  every_nth_from m i (c :: l)
  = (if (Z.of_nat i mod m =? 0)%Z then [c] else []) ++ every_nth_from m (S i) l.
Proof.
  unfold every_nth_from, numbered_from. cbn [length seq combine filter fst].
  destruct (_ =? _)%Z; reflexivity.
Qed.

Lemma reports_from_cons ub fl j c xs :
  reports_from ub fl j (c :: xs)
  = Uprog c fl (Z.of_nat j mod 2 ^ ub) :: reports_from ub fl (S j) xs.
Proof. reflexivity. Qed.

Section Reports.

Variables (ub k : Z) (guess : model_t) (rflags : Z) (pwork : poly_t)
          (args : list poly_t).
Hypothesis Hk : (0 <= k <= ub)%Z.

Let trial := try_factor ub (2 ^ k - 1) guess rflags pwork args.

Lemma fold_trial_progress l : forall ls i j,
  l_spin ls = (Z.of_nat i mod 2 ^ ub)%Z ->
  l_seq ls = (Z.of_nat j mod 2 ^ ub)%Z ->
  progress (trace (l_st (fold_left trial l ls)))
  = progress (trace (l_st ls))
    ++ reports_from ub (flags guess) j (every_nth_from (2 ^ k) i l).
Proof.
  induction l as [|c l IH]; intros ls i j Hspin Hseq.
  - cbn. now rewrite app_nil_r.
  - cbn [fold_left]. rewrite every_nth_from_cons.
    destruct (try_factor_counters ub (2 ^ k - 1) guess rflags pwork args ls c)
      as [Hs1 Hq1].
    fold trial in Hs1, Hq1.
    assert (Hmask : Z.land (l_spin ls) (2 ^ k - 1) = (Z.of_nat i mod 2 ^ k)%Z).
    { rewrite land_mask by lia. rewrite Hspin. now apply mod_pow2_mod. }
    assert (Hs2 : l_spin (trial ls c) = (Z.of_nat (S i) mod 2 ^ ub)%Z).
    { rewrite Hs1. unfold ulong_succ. rewrite Hspin, Zplus_mod_idemp_l.
      f_equal. lia. }
    pose proof (try_factor_progress ub (2 ^ k - 1) guess rflags pwork args ls c)
      as Hp. fold trial in Hp.
    rewrite Hmask in Hp, Hq1.
    destruct (Z.of_nat i mod 2 ^ k =? 0)%Z.
    + rewrite (IH (trial ls c) (S i) (S j) Hs2).
      * rewrite Hp. cbn [app]. rewrite reports_from_cons, Hseq, <- app_assoc.
        reflexivity.
      * rewrite Hq1. unfold ulong_succ. rewrite Hseq, Zplus_mod_idemp_l.
        f_equal. lia.
    + rewrite (IH (trial ls c) (S i) j Hs2).
      * rewrite Hp, app_nil_r. reflexivity.
      * now rewrite Hq1.
Qed.

End Reports.

Lemma reports_from_small ub fl xs : forall j,
  (Z.of_nat (j + length xs) <= 2 ^ ub)%Z ->
  reports_from ub fl j xs
  = map (fun jc => Uprog (snd jc) fl (Z.of_nat (fst jc))) (numbered_from j xs).
Proof.
  induction xs as [|c xs IH]; intros j Hj; [reflexivity|].
  rewrite reports_from_cons. unfold numbered_from. cbn [length seq combine map fst snd].
  cbn [length] in Hj.
  rewrite Z.mod_small by lia. f_equal.
  apply IH. lia.
Qed.

Lemma length_every_nth_from {A : Type} m i (l : list A) :
  length (every_nth_from m i l) <= length l.
Proof.
  unfold every_nth_from, numbered_from. rewrite length_map.
  etransitivity; [apply filter_length_le|].
  rewrite length_combine, length_seq. lia.
Qed.

(** ** Entering the loop *)

Lemma short_setup_flags rflags pwork factor qq rf f q :
  short_setup rflags pwork factor qq = Some (rf, f, q) ->
  flag_set rf R_HAVEI = flag_set rflags R_HAVEI
  /\ flag_set rf R_HAVEX = flag_set rflags R_HAVEX
  /\ flag_set rf R_SHORT = (plen pwork <=? 2 * plen factor)
  /\ (flag_set rf R_HAVEQ = true -> flag_set rflags R_HAVEQ = true).
Proof.
  unfold short_setup. intros H.
  destruct (plen pwork <=? 2 * plen factor).
  - destruct (_ || _).
    + destruct (_ <? 0)%Z; [discriminate|].
      destruct (_ <? 0)%Z; [|destruct (flag_set _ R_HAVEQ)];
        inversion H; subst; clear H; flag_bits; repeat split; auto; discriminate.
    + inversion H; subst; clear H. flag_bits. repeat split; auto.
  - inversion H; subst; clear H. flag_bits. repeat split; auto.
Qed.

Lemma short_setup_full rflags pwork factor qq :
  2 * plen factor < plen pwork ->
  short_setup rflags pwork factor qq
  = Some (Z.land rflags (Z.lnot R_SHORT), factor, qq).
Proof.
  intros H. unfold short_setup.
  apply Nat.leb_gt in H. now rewrite H.
Qed.

Section NoLoop.

Variables (ub sm : Z) (guess : model_t) (qpoly : poly_t) (rflags : Z)
          (args : list poly_t).

Lemma reveng_progress_no_loop :
  loop_entry guess qpoly rflags args = None ->
  progress (snd (reveng ub sm guess qpoly rflags args)) = [].
Proof.
  unfold loop_entry, reveng. intros H.
  destruct (flag_set rflags R_HAVEP).
  { cbn [requit snd].
    now rewrite (adds_models_progress _ _ _ (dispch_adds _ _ _ _ _)). }
  destruct (plen (spoly guess) =? 0); [reflexivity|].
  cbv zeta in *.
  destruct (_ <? _) eqn:E1; [reflexivity|].
  destruct (_ =? _) eqn:E2.
  { cbn [requit snd].
    now rewrite (adds_models_progress _ _ _ (dispch_adds _ _ _ _ _)). }
  apply Nat.ltb_ge in E1. apply Nat.eqb_neq in E2.
  replace (_ <=? _) with false in H by (symmetry; apply Nat.leb_gt; lia).
  unfold enumerate, pclone.
  destruct (short_setup _ _ _ _) as [[[rf f] q]|]; [discriminate|reflexivity].
Qed.

End NoLoop.


Lemma loop_entry_some guess qpoly rflags args rf f0 qq :
  loop_entry guess qpoly rflags args = Some (rf, f0, qq) ->
  flag_set rflags R_HAVEP = false
  /\ plen (spoly guess) <> 0
  /\ plen (spoly guess) + 1 < plen (modpol (init guess) rflags args)
  /\ exists f,
       short_setup rflags (modpol (init guess) rflags args) (spoly guess)
                   (if flag_set rflags R_HAVEQ then qpoly else pzero)
       = Some (rf, f, qq)
       /\ f0 = pshift f 0 0 (plen f - 1) 1.
Proof.
  unfold loop_entry. intros H.
  destruct (flag_set rflags R_HAVEP); [discriminate|].
  destruct (plen (spoly guess) =? 0) eqn:Hw; [discriminate|].
  cbv zeta in H.
  destruct (_ <=? _) eqn:Hl; [discriminate|].
  apply Nat.eqb_neq in Hw. apply Nat.leb_gt in Hl.
  destruct (short_setup _ _ _ _) as [[[rf' f] q]|] eqn:E; [|discriminate].
  inversion H; subst. repeat split; auto. now exists f.
Qed.


(** ** Short mode *)




Section Short.

Variables (rflags : Z) (pwork start qq : poly_t).

Let k := plen pwork - plen start - 1.
Let top := pright (pinv (palloc k)) (plen start).

Hypothesis Hshort : plen pwork <= 2 * plen start.



End Short.


(** ** Sums in the polynomial store, bit by bit *)

Lemma length_xor_into reg src : length (xor_into reg src) = length reg.
Proof.
  revert src. induction reg as [|r reg IH]; intros [|s src]; cbn; auto.
Qed.

Lemma nth_xor_into reg : forall src i,
  i < length reg ->
  nth i (xor_into reg src) false = xorb (nth i reg false) (nth i src false).
Proof.
  induction reg as [|r reg IH]; intros src i Hi; [cbn in Hi; lia|].
  destruct src as [|s src].
  - cbn [xor_into]. destruct i; cbn [nth]; now rewrite xorb_false_r.
  - cbn [xor_into]. destruct i as [|i]; [reflexivity|].
    cbn [nth]. apply IH. cbn in Hi. lia.
Qed.

Lemma xor_into_fits dst src :
  plen src <= plen dst -> psum dst src 0 = xor_into dst src.
Proof.
  unfold psum, plen. intros H.
  replace (0 + length src - length dst) with 0 by lia.
  cbn [repeat firstn skipn app]. now rewrite app_nil_r.
Qed.

Lemma length_psum dst src ofs :
  ofs + plen src <= plen dst -> plen (psum dst src ofs) = plen dst.
Proof.
  unfold psum, plen. intros H.
  replace (ofs + length src - length dst) with 0 by lia.
  cbn [repeat]. rewrite app_nil_r, length_app, length_xor_into.
  rewrite length_firstn, length_skipn. lia.
Qed.

Lemma nth_psum dst src ofs i :
  ofs + plen src <= plen dst -> i < plen dst ->
  nth i (psum dst src ofs) false
  = xorb (nth i dst false) (if ofs <=? i then nth (i - ofs) src false else false).
Proof.
  unfold psum, plen. intros H Hi.
  replace (ofs + length src - length dst) with 0 by lia.
  cbn [repeat]. rewrite app_nil_r.
  destruct (ofs <=? i) eqn:E.
  - apply Nat.leb_le in E.
    rewrite app_nth2 by (rewrite length_firstn; lia).
    rewrite length_firstn, Nat.min_l by lia.
    rewrite nth_xor_into by (rewrite length_skipn; lia).
    rewrite nth_skipn. f_equal. f_equal. lia.
  - apply Nat.leb_gt in E.
    rewrite app_nth1 by (rewrite length_firstn; lia).
    rewrite nth_firstn. apply Nat.ltb_lt in E. rewrite E.
    now rewrite xorb_false_r.
Qed.

(** [psum] without a condition on the lengths. *)

Lemma psum_padded dst src ofs :
  psum dst src ofs
  = psum (dst ++ repeat false (ofs + length src - length dst)) src ofs.
Proof.
  unfold psum. rewrite length_app, repeat_length.
  replace (ofs + length src
           - (length dst + (ofs + length src - length dst))) with 0 by lia.
  cbn [repeat]. now rewrite app_nil_r.
Qed.

Lemma plen_psum dst src ofs :
  plen (psum dst src ofs) = Nat.max (plen dst) (ofs + plen src).
Proof.
  rewrite psum_padded, length_psum; unfold plen;
    rewrite length_app, repeat_length; lia.
Qed.

Lemma nth_psum_any dst src ofs i :
  nth i (psum dst src ofs) false
  = xorb (nth i dst false) (if ofs <=? i then nth (i - ofs) src false else false).
Proof.
  set (d := dst ++ repeat false (ofs + length src - length dst)).
  assert (Hd : nth i d false = nth i dst false).
  { subst d. destruct (Nat.lt_ge_cases i (length dst)).
    - now rewrite app_nth1.
    - rewrite app_nth2 by lia. rewrite nth_repeat.
      now rewrite (nth_overflow dst). }
  assert (Hl : plen d = Nat.max (length dst) (ofs + length src))
    by (subst d; unfold plen; rewrite length_app, repeat_length; lia).
  rewrite psum_padded. fold d.
  destruct (Nat.lt_ge_cases i (plen d)) as [Hi|Hi].
  - rewrite nth_psum by (unfold plen in *; lia). now rewrite Hd.
  - rewrite nth_overflow
      by (fold (plen (psum d src ofs)); rewrite length_psum;
          unfold plen in *; lia).
    rewrite (nth_overflow dst) by lia.
    destruct (ofs <=? i) eqn:E; [|reflexivity].
    apply Nat.leb_le in E. now rewrite nth_overflow by lia.
Qed.

Lemma psum_init_first init long short :
  psum (psum (psum long short (plen long - plen short)) init 0) init
       (plen long - plen short)
  = psum (psum long init 0) (psum short init 0) (plen long - plen short).
Proof.
  set (d := plen long - plen short).
  apply (nth_ext _ _ false false).
  - change (plen (psum (psum (psum long short d) init 0) init d)
            = plen (psum (psum long init 0) (psum short init 0) d)).
    rewrite !plen_psum. lia.
  - intros i _. rewrite !nth_psum_any. cbn [Nat.leb]. rewrite Nat.sub_0_r.
    destruct (d <=? i).
    + rewrite Nat.sub_0_r.
      destruct (nth i long false), (nth (i - d) short false),
        (nth i init false), (nth (i - d) init false); reflexivity.
    + now rewrite !xorb_false_r.
Qed.

Lemma difference_pair init rflags a b :
  difference init rflags a b
  = pair_difference init (flag_set rflags R_HAVEI) a b.
Proof.
  unfold difference, pair_difference, pclone.
  destruct (plen a =? plen b) eqn:E.
  - apply Nat.eqb_eq in E. apply xor_into_fits. lia.
  - destruct (flag_set rflags R_HAVEI); cbn [andb]; [|reflexivity].
    destruct (plen a <? plen b); apply psum_init_first.
Qed.

(** ** Lengths of remainders *)

Lemma crc_step_length divisor st b :
  length (fst st) = length divisor ->
  length (fst (crc_step divisor st b)) = length divisor.
Proof.
  destruct st as [[|top rest] q]; cbn [fst crc_step]; intros H; [exact H|].
  assert (Hs : length (rest ++ [b]) = length divisor)
    by (rewrite length_app; cbn [length] in *; lia).
  destruct top; cbn [fst]; [now rewrite length_xor_into | exact Hs].
Qed.

Lemma crc_fold_length divisor msg : forall st,
  length (fst st) = length divisor ->
  length (fst (fold_left (crc_step divisor) msg st)) = length divisor.
Proof.
  induction msg as [|b msg IH]; intros st H; [exact H|].
  cbn [fold_left]. apply IH. now apply crc_step_length.
Qed.

Lemma plen_pcrc message divisor init xorout fl :
  plen (pcrc message divisor init xorout fl) = plen divisor.
Proof.
  unfold pcrc, pcrc_quot, plen.
  set (msg := (if (Z.land fl P_MULXN =? 0)%Z then message
               else message ++ repeat false (length divisor))).
  set (msg' := msg ++ repeat false (length divisor - length msg)).
  pose proof (crc_fold_length divisor (skipn (length divisor) msg')
                (xor_into (firstn (length divisor) msg') init, [])) as H.
  destruct (fold_left _ _ _) as [reg q]. cbn [fst] in *.
  rewrite length_xor_into. apply H.
  rewrite length_xor_into, length_firstn. subst msg'.
  rewrite length_app, repeat_length. lia.
Qed.

Lemma pshift_tail p n : pshift p 0 n (plen p) 0 = skipn n p.
Proof.
  unfold pshift, plen. rewrite Nat.sub_diag. cbn [repeat app].
  rewrite !app_nil_r. apply firstn_all2. rewrite length_skipn. lia.
Qed.

Lemma plen_pmod dividend divisor :
  plen (pmod dividend divisor) = plen divisor - pfirst divisor - 1.
Proof.
  unfold pmod. rewrite plen_pcrc, pshift_tail.
  unfold plen. rewrite length_skipn. lia.
Qed.

Lemma length_drop_zeros l : length (drop_zeros l) <= length l.
Proof.
  induction l as [|[] t IH]; cbn [drop_zeros length]; lia.
Qed.

Lemma plen_pnorm p : plen (pnorm p) <= plen p.
Proof.
  unfold pnorm, plen. rewrite length_rev.
  etransitivity; [apply length_drop_zeros|]. now rewrite length_rev.
Qed.

Lemma pnorm_nil : pnorm [] = [].
Proof. reflexivity. Qed.

(** ** The reduction loop of modpol *)

(** The loop ends within its fuel, and what it returns is the outcome of the
    reduction step repeated until [work] normalises to zero. *)
Lemma gcd_loop_reduction fuel : forall gcd work,
  Nat.min (plen gcd) (plen work) < fuel ->
  exists r, gcd_loop fuel gcd work = Some r /\ gcd_reduction gcd work r.
Proof.
  induction fuel as [|fuel IH]; intros gcd work Hf; [lia|].
  cbn [gcd_loop].
  destruct (gcd_step gcd work) as [g w] eqn:Es.
  unfold gcd_step in Es.
  destruct (plen gcd <? plen work) eqn:E;
    [apply Nat.ltb_lt in E | apply Nat.ltb_ge in E];
    inversion Es; subst g w; clear Es.
  - pose proof (plen_pmod work gcd) as Hm.
    pose proof (plen_pnorm (pmod work gcd)) as Hn.
    destruct (plen (pnorm (pmod work gcd)) =? 0) eqn:Ez.
    + apply Nat.eqb_eq in Ez. exists gcd. split; [reflexivity|].
      eapply gcd_reduction_stop; [|exact Ez].
      unfold gcd_step. apply Nat.ltb_lt in E. now rewrite E.
    + apply Nat.eqb_neq in Ez.
      destruct (IH gcd (pnorm (pmod work gcd))) as (r & Hr & Hred); [lia|].
      exists r. split; [exact Hr|].
      eapply gcd_reduction_more; [|exact Ez|exact Hred].
      unfold gcd_step. apply Nat.ltb_lt in E. now rewrite E.
  - pose proof (plen_pmod gcd work) as Hm.
    pose proof (plen_pnorm (pmod gcd work)) as Hn.
    destruct (plen (pnorm (pmod gcd work)) =? 0) eqn:Ez.
    + apply Nat.eqb_eq in Ez. exists work. split; [reflexivity|].
      eapply gcd_reduction_stop; [|exact Ez].
      unfold gcd_step. apply Nat.ltb_ge in E. now rewrite E.
    + apply Nat.eqb_neq in Ez.
      destruct (IH work (pnorm (pmod gcd work))) as (r & Hr & Hred); [lia|].
      exists r. split; [exact Hr|].
      eapply gcd_reduction_more; [|exact Ez|exact Hred].
      unfold gcd_step. apply Nat.ltb_ge in E. now rewrite E.
Qed.

(** ** The two loops of modpol over the pairs *)

Lemma modpol_inner_fold init rflags a bs : forall acc,
  modpol_inner init rflags a bs acc
  = fold_left merge_work (map (difference init rflags a) bs) acc.
Proof.
  induction bs as [|b bs IH]; intros acc; [reflexivity|].
  cbn [modpol_inner map fold_left]. apply IH.
Qed.

Lemma modpol_outer_fold init rflags args : forall acc,
  modpol_outer init rflags args acc
  = fold_left merge_work
      (map (fun ab => difference init rflags (fst ab) (snd ab)) (all_pairs args))
      acc.
Proof.
  induction args as [|a rest IH]; intros acc; [reflexivity|].
  cbn [modpol_outer all_pairs]. rewrite IH, modpol_inner_fold.
  rewrite map_app, fold_left_app, map_map. reflexivity.
Qed.

Lemma merge_work_eq gcd nogcd d :
  merge_work (gcd, nogcd) d
  = if plen (pnorm d) =? 0 then (gcd, nogcd)
    else if negb (Z.shiftr nogcd 1 =? 0)%Z then (pnorm d, Z.shiftr nogcd 1)
    else match gcd_loop (S (plen (pnorm d))) gcd (pnorm d) with
         | Some g => (g, Z.shiftr nogcd 1)
         | None => (gcd, Z.shiftr nogcd 1)
         end.
Proof.
  unfold merge_work, pclone.
  assert (Hw : (if plen d =? 0 then d else pnorm d) = pnorm d).
  { destruct (plen d =? 0) eqn:E; [|reflexivity].
    apply Nat.eqb_eq in E. destruct d; [reflexivity | discriminate]. }
  now rewrite Hw.
Qed.

(** Once a first difference has been taken ([nogcd] is 1 or 0), the loop
    takes the running GCD through the differences that are left. *)
Lemma merge_fold_running ds : forall gcd nogcd,
  Z.shiftr nogcd 1 = 0%Z ->
  gcd_fold gcd (filter (fun w => negb (plen w =? 0)) (map pnorm ds))
           (fst (fold_left merge_work ds (gcd, nogcd))).
Proof.
  induction ds as [|d ds IH]; intros gcd nogcd Hn; [constructor|].
  cbn [map filter fold_left]. rewrite merge_work_eq.
  destruct (plen (pnorm d) =? 0) eqn:Ez; cbn [negb].
  - now apply IH.
  - rewrite Hn. cbn [Z.eqb negb].
    destruct (gcd_loop_reduction (S (plen (pnorm d))) gcd (pnorm d))
      as (r & Hr & Hred); [lia|].
    rewrite Hr. econstructor; [exact Hred|]. now apply IH.
Qed.

(** Before that ([nogcd] is 2), the first difference that does not vanish
    starts the running GCD. *)
Lemma merge_fold_first ds : forall gcd,
  match filter (fun w => negb (plen w =? 0)) (map pnorm ds) with
  | [] => fst (fold_left merge_work ds (gcd, 2%Z)) = gcd
  | w :: ws => gcd_fold w ws (fst (fold_left merge_work ds (gcd, 2%Z)))
  end.
Proof.
  induction ds as [|d ds IH]; intros gcd; [reflexivity|].
  cbn [map filter fold_left]. rewrite merge_work_eq.
  destruct (plen (pnorm d) =? 0) eqn:Ez; cbn [negb].
  - apply IH.
  - change (Z.shiftr 2 1) with 1%Z. cbn [Z.eqb negb].
    apply merge_fold_running. reflexivity.
Qed.


(** ** Commands of the driver *)

Import Cli.

Section Runs.

Variable P : action -> Prop.

Lemma runs_ret {A : Type} (Q : A -> Prop) x : Q x -> runs P Q (ret x).
Proof. intros H log. exists []. cbn. now rewrite app_nil_r. Qed.

Lemma runs_exit {A : Type} (Q : A -> Prop) status : runs P Q (exit status).
Proof. intros log. exists []. cbn. now rewrite app_nil_r. Qed.

Lemma runs_act (Q : unit -> Prop) a : P a -> Q tt -> runs P Q (act a).
Proof. intros Ha Hq log. exists [a]. cbn. auto. Qed.

Lemma runs_bind {A B : Type} (Q1 : A -> Prop) (Q2 : B -> Prop) c k :
  runs P Q1 c -> (forall x, Q1 x -> runs P Q2 (k x)) -> runs P Q2 (bind c k).
Proof.
  intros Hc Hk log. unfold bind.
  destruct (Hc log) as (l1 & E1 & F1 & V1).
  destruct (c log) as [log1 [x|status]]; cbn [fst snd] in *; subst log1.
  - destruct (Hk x V1 (log ++ l1)) as (l2 & E2 & F2 & V2).
    exists (l1 ++ l2). rewrite E2, app_assoc. repeat split; auto.
    now apply Forall_app.
  - exists l1. auto.
Qed.

Lemma runs_weaken {A : Type} (Q Q' : A -> Prop) c :
  runs P Q c -> (forall x, Q x -> Q' x) -> runs P Q' c.
Proof.
  intros Hc HQ log. destruct (Hc log) as (l & E & F & V).
  exists l. repeat split; auto. destruct (snd (c log)); auto.
Qed.

Lemma runs_for_each {A : Type} (f : A -> cmd unit) l :
  (forall x, runs P (fun _ => True) (f x)) ->
  runs P (fun _ => True) (for_each f l).
Proof.
  intros Hf. induction l as [|x l IH]; cbn [for_each].
  - now apply runs_ret.
  - eapply runs_bind; [apply Hf | intros; apply IH].
Qed.

Lemma runs_map_cmd {A B : Type} (f : A -> cmd B) l :
  (forall x, runs P (fun _ => True) (f x)) ->
  runs P (fun _ => True) (map_cmd f l).
Proof.
  intros Hf. induction l as [|x l IH]; cbn [map_cmd].
  - now apply runs_ret.
  - eapply runs_bind; [apply Hf|]. intros y _.
    eapply runs_bind; [apply IH|]. intros ys _. now apply runs_ret.
Qed.

Hypothesis P_puts : forall s, P (Puts s).
Hypothesis P_eprint : forall s, P (Eprint s).

Lemma runs_uerror {A : Type} (Q : A -> Prop) env msg : runs P Q (uerror env msg).
Proof.
  unfold uerror. eapply runs_bind; [apply (runs_act (fun _ => True)); auto|].
  intros; apply runs_exit.
Qed.

Lemma runs_ufound env m : runs P (fun _ => True) (ufound env m).
Proof. apply runs_act; auto. Qed.

Lemma runs_uprog env p fl s : runs P (fun _ => True) (uprog env p fl s).
Proof.
  unfold uprog. destruct (s =? 0)%Z; [now apply runs_ret | apply runs_act; auto].
Qed.

Lemma runs_read_arg env uflags fl ib arg :
  runs P (fun _ => True) (read_arg env uflags fl ib arg).
Proof.
  unfold read_arg. destruct (flag_set uflags C_INFILE); [|now apply runs_ret].
  destruct (rdpoly env arg fl ib); [now apply runs_ret|].
  eapply runs_bind; [apply (runs_act (fun _ => True)); auto|].
  intros; apply runs_exit.
Qed.

Lemma runs_mcanon env m :
  runs P (fun m' => flags m' = flags m) (mcanon env m).
Proof.
  unfold mcanon. destruct (_ && _); [apply runs_uerror|].
  destruct (_ && _); now apply runs_ret.
Qed.

Lemma runs_mode_c env st m argv : runs P (fun _ => True) (mode_c env st m argv).
Proof.
  unfold mode_c. apply runs_for_each. intros arg.
  eapply runs_bind; [apply runs_read_arg|]. intros; apply runs_act; auto.
Qed.

Lemma runs_mode_D env : runs P (fun _ => True) (mode_D env).
Proof.
  unfold mode_D. destruct (presets env); [apply runs_uerror|].
  apply runs_for_each. intros; apply runs_ufound.
Qed.

Lemma runs_mode_d env m : runs P (fun _ => True) (mode_d env m).
Proof.
  unfold mode_d. destruct (flag_set _ _); [apply runs_uerror | apply runs_act; auto].
Qed.

Lemma runs_mode_e env st m argv : runs P (fun _ => True) (mode_e env st m argv).
Proof.
  unfold mode_e. apply runs_for_each. intros arg.
  eapply runs_bind; [apply runs_read_arg|]. intros; apply runs_act; auto.
Qed.

Lemma runs_few_samples_warning env n :
  runs P (fun _ => True) (few_samples_warning env n).
Proof.
  unfold few_samples_warning.
  destruct (n =? 0)%Z; [apply runs_act; auto|].
  destruct (n <? RECSMP)%Z; [|now apply runs_ret].
  eapply runs_bind; [apply (runs_act (fun _ => True)); auto|].
  intros; apply runs_act; auto.
Qed.

Lemma runs_preset_try env m rflags width apolys uflags pset :
  runs P (fun _ => True) (preset_try env m rflags width apolys uflags pset).
Proof.
  unfold preset_try.
  repeat (match goal with |- runs _ _ (if ?b then _ else _) => destruct b end;
          try now apply runs_ret).
  eapply runs_bind; [apply runs_ufound|]. intros; now apply runs_ret.
Qed.

Lemma runs_preset_scan env m rflags width apolys psets : forall uflags,
  runs P (fun _ => True) (preset_scan env m rflags width apolys uflags psets).
Proof.
  induction psets as [|pset rest IH]; intros uflags; cbn [preset_scan].
  - now apply runs_ret.
  - eapply runs_bind; [apply runs_preset_try|]. intros; apply IH.
Qed.

End Runs.

(** ** Endianness through the passes of the driver *)

Lemma crossed_toggle fl :
  crossed (Z.lxor fl (Z.lor P_REFIN P_REFOUT)) = crossed fl.
Proof.
  unfold crossed.
  change (Z.lor P_REFIN P_REFOUT) with 3%Z.
  change P_REFIN with (2 ^ 0)%Z. change P_REFOUT with (2 ^ 1)%Z.
  rewrite !flag_set_bit by lia. rewrite !Z.lxor_spec.
  change (Z.testbit 3 0) with true. change (Z.testbit 3 1) with true.
  destruct (Z.testbit fl 0), (Z.testbit fl 1); reflexivity.
Qed.

Lemma toggle_crossed env rflags ib s :
  crossed (flags (fst (toggle env rflags ib s))) = crossed (flags (fst s)).
Proof.
  unfold toggle. destruct s as [m apolys].
  destruct (flag_set _ _); cbn [fst set_flags flags]; [apply crossed_toggle | reflexivity].
Qed.

Section Search.

Variable c0 : bool.

Let P := safe_action c0.

Lemma safe_puts s : P (Puts s).
Proof. exact I. Qed.

Lemma safe_eprint s : P (Eprint s).
Proof. exact I. Qed.

Lemma runs_preset_passes env rflags ib width fuel : forall pass s uflags,
  runs P (fun r => crossed (flags (fst (fst r))) = crossed (flags (fst s)))
       (preset_passes fuel env rflags ib width pass s uflags).
Proof.
  induction fuel as [|fuel IH]; intros pass s uflags; cbn [preset_passes].
  - now apply runs_ret.
  - eapply runs_bind;
      [apply (runs_preset_scan P safe_puts)|].
    intros uflags' _.
    destruct (_ && _).
    + eapply runs_weaken; [apply IH|].
      intros r Hr. cbv beta in *. now rewrite Hr, toggle_crossed.
    + apply runs_ret. cbn [fst]. apply toggle_crossed.
Qed.

Lemma runs_call_reveng env guess qpoly rflags apolys :
  crossed (flags guess) = false -> c0 = false ->
  runs P (fun _ => True) (call_reveng env guess qpoly rflags apolys).
Proof.
  intros Hc H0. unfold call_reveng.
  eapply runs_bind.
  { apply (runs_act P (fun _ => True)); [|exact I].
    cbn. split; congruence. }
  intros _ _.
  destruct (reveng _ _ _ _ _ _) as [models events].
  eapply runs_bind; [|intros; now apply runs_ret].
  apply runs_for_each. intros [m|p f s].
  - apply (runs_ufound P safe_puts).
  - apply (runs_uprog P safe_eprint).
Qed.

Lemma runs_reveng_passes env qpoly rflags ib fuel : forall pass s uflags,
  crossed (flags (fst s)) = false -> c0 = false ->
  runs P (fun _ => True) (reveng_passes fuel env qpoly rflags ib pass s uflags).
Proof.
  induction fuel as [|fuel IH]; intros pass s uflags Hc H0; cbn [reveng_passes].
  - now apply runs_ret.
  - eapply runs_bind; [now apply runs_call_reveng|].
    intros candmods _.
    destruct (_ && _); [|now apply runs_ret].
    apply IH; [|exact H0]. now rewrite toggle_crossed.
Qed.

Lemma runs_brute_force env qpoly rflags ib s uflags :
  crossed (flags (fst s)) = c0 ->
  runs P (fun _ => True) (brute_force env qpoly rflags ib s uflags).
Proof.
  intros Hc. unfold brute_force.
  destruct (flag_set uflags C_RESULT); [apply runs_exit|].
  destruct (_ && _); [apply (runs_uerror P safe_eprint)|].
  replace (negb (Bool.eqb (negb (flag_set (flags (fst s)) P_REFIN))
                         (negb (flag_set (flags (fst s)) P_REFOUT))))
    with (crossed (flags (fst s)))
    by (unfold crossed; now destruct (flag_set _ P_REFIN), (flag_set _ P_REFOUT)).
  destruct (crossed (flags (fst s))) eqn:E; [apply (runs_uerror P safe_eprint)|].
  eapply runs_bind; [apply runs_reveng_passes; congruence|].
  intros uflags' _.
  destruct (flag_set _ _); [apply (runs_uerror P safe_eprint) | now apply runs_ret].
Qed.

Lemma runs_mode_s env st m qpoly argv :
  crossed (flags m) = c0 ->
  runs P (fun _ => True) (mode_s env st m qpoly argv).
Proof.
  intros Hc. unfold mode_s.
  destruct (flag_set _ _); [apply (runs_uerror P safe_eprint)|].
  destruct (c_width st =? 0); [apply (runs_uerror P safe_eprint)|].
  set (m1 := set_polys m _ _ _).
  assert (H1 : flags m1 = flags m) by reflexivity.
  clearbody m1.
  destruct (if plen (spoly m1) =? 0 then _ else _) as [m2 width] eqn:E2.
  assert (H2 : flags m2 = flags m).
  { destruct (plen (spoly m1) =? 0); inversion E2; subst; auto. }
  eapply runs_bind; [apply (runs_few_samples_warning P safe_eprint)|].
  intros _ _.
  eapply runs_bind; [apply runs_map_cmd; intros; apply (runs_read_arg P safe_eprint)|].
  intros apolys _.
  eapply runs_bind with
    (Q1 := fun r : model_t * list poly_t * Z =>
             crossed (flags (fst (fst r))) = c0).
  - destruct (flag_set _ C_NOPCK).
    + eapply runs_weaken; [apply runs_preset_passes|].
      intros r Hr. cbv beta in *. cbn [fst] in Hr. rewrite Hr. congruence.
    + apply runs_ret. cbn [fst]. congruence.
  - intros [s uflags] Hs. apply runs_brute_force. exact Hs.
Qed.

Lemma main_body_safe env st argv :
  c0 = crossed (flags (c_model st)) ->
  Forall P (fst (main_body env st argv)).
Proof.
  intros H0. unfold main_body.
  match goal with |- context [match ?run [] with _ => _ end] =>
    assert (Hr : runs P (fun _ : unit => True) run) end.
  { eapply runs_bind with (Q1 := fun m' => crossed (flags m') = c0).
    - destruct (negb _).
      + eapply runs_weaken; [apply (runs_mcanon P safe_eprint)|].
        intros m' Hm. cbv beta in Hm. rewrite Hm. cbn [set_polys flags]. congruence.
      + apply runs_ret. cbn [set_polys flags]. congruence.
    - intros m Hm.
      eapply runs_bind; [|intros; apply runs_exit].
      destruct (c_mode st =? chr "v")%Z; [apply (runs_mode_c P safe_puts safe_eprint)|].
      destruct (c_mode st =? chr "c")%Z; [apply (runs_mode_c P safe_puts safe_eprint)|].
      destruct (c_mode st =? chr "D")%Z; [apply (runs_mode_D P safe_puts safe_eprint)|].
      destruct (c_mode st =? chr "d")%Z; [apply (runs_mode_d P safe_puts safe_eprint)|].
      destruct (c_mode st =? chr "e")%Z; [apply (runs_mode_e P safe_puts safe_eprint)|].
      destruct (c_mode st =? chr "s")%Z; [now apply runs_mode_s|].
      eapply runs_bind; [apply (runs_act P (fun _ => True)); [exact I|exact I]|].
      intros; apply runs_exit. }
  destruct (Hr []) as (l & E & F & _).
  match goal with |- context [match ?r with _ => _ end] =>
    destruct r as [log [x|status]] end; cbn [fst] in *; subst; exact F.
Qed.

End Search.

Lemma pright_0 p : pright p 0 = [].
Proof.
  unfold pright. cbn [Nat.sub repeat app]. rewrite Nat.sub_0_r. apply skipn_all.
Qed.

Lemma for_each_acts {A : Type} (f : A -> cmd unit) (g : A -> action) l :
  (forall x log, f x log = (log ++ [g x], inl tt)) ->
  forall log, for_each f l log = (log ++ map g l, inl tt).
Proof.
  intros Hf. induction l as [|x l IH]; intros log; cbn [for_each map].
  - unfold ret. now rewrite app_nil_r.
  - unfold bind. rewrite Hf, IH, <- app_assoc. reflexivity.
Qed.


(** ** The loops of engini end within their fuel *)

Lemma pfirst_le p : pfirst p <= length p.
Proof. induction p as [|[] t IH]; cbn [pfirst length]; lia. Qed.

(** Adding a row whose first set bit is where that of [a] is moves the
    first set bit of [a] to the right. *)
Lemma pfirst_xor_into a : forall p,
  length a = length p -> pfirst a = pfirst p -> pfirst a < length a ->
  pfirst a < pfirst (xor_into a p).
Proof.
  induction a as [|x a IH]; intros [|y p] Hl Hf Hlt; try discriminate;
    cbn [length] in *; [lia|].
  destruct x, y; cbn [pfirst xor_into xorb] in *; try discriminate; try lia.
  apply -> Nat.succ_lt_mono. apply IH; lia.
Qed.

Lemma reduce_fuel bpoly rows dlen fuel : forall apoly,
  echelon dlen rows -> plen apoly = dlen + 1 ->
  dlen - pfirst apoly < fuel ->
  exists apoly', reduce fuel bpoly rows dlen apoly = Some apoly'
                 /\ plen apoly' = dlen + 1
                 /\ (pfirst apoly' < dlen ->
                     nth (pfirst apoly') rows RowZero = RowZero).
Proof.
  intros apoly Hech. revert apoly.
  induction fuel as [|fuel IH]; intros apoly Hl Hf; [lia|].
  cbn [reduce].
  destruct (pfirst apoly <? dlen) eqn:Ej; cbn [andb].
  - apply Nat.ltb_lt in Ej.
    destruct (proj2 Hech _ Ej) as [Hz|(p & Hp & Hlp & Hfp)].
    + rewrite Hz. cbn [pident_pzero negb]. exists apoly. auto.
    + rewrite Hp. cbn [pident_pzero negb row_bits].
      assert (Hs : psum apoly p 0 = xor_into apoly p)
        by (apply xor_into_fits; lia).
      rewrite Hs.
      assert (Hgt : pfirst apoly < pfirst (xor_into apoly p)).
      { apply pfirst_xor_into; unfold plen in *; lia. }
      apply IH.
      * unfold plen. rewrite length_xor_into. exact Hl.
      * lia.
  - exists apoly. repeat split; auto. intros H. apply Nat.ltb_ge in Ej. lia.
Qed.

Lemma length_set_nth {A : Type} (x : A) l : forall j,
  length (set_nth j x l) = length l.
Proof.
  induction l as [|h t IH]; intros [|j]; cbn [set_nth length]; auto.
Qed.

Lemma nth_set_nth {A : Type} (x d : A) l : forall j i,
  j < length l ->
  nth i (set_nth j x l) d = if i =? j then x else nth i l d.
Proof.
  induction l as [|h t IH]; intros [|j] [|i] Hj; cbn [length] in Hj;
    cbn [set_nth nth Nat.eqb]; try lia; auto.
  apply IH. lia.
Qed.

Lemma length_ppaste dst src skip seek end_ full :
  plen (ppaste dst src skip seek end_ full) = full.
Proof. unfold ppaste, plen. now rewrite length_map, length_seq. Qed.

Lemma echelon_step_keeps cols bpoly dlen rows i :
  echelon dlen rows -> echelon dlen (echelon_step cols bpoly dlen rows i).
Proof.
  intros Hech. unfold echelon_step.
  destruct dlen as [|n]; [exact Hech|].
  set (ap0 := fold_left _ (seq 0 (S n)) pzero).
  assert (H0 : plen ap0 = S n + 1).
  { subst ap0. rewrite seq_S, fold_left_app. cbn [fold_left].
    apply length_ppaste. }
  set (ap1 := if ptst ap0 then _ else ap0).
  assert (H1 : plen ap1 = S n + 1).
  { subst ap1. destruct (ptst ap0); [apply length_ppaste | exact H0]. }
  destruct (reduce_fuel bpoly rows (S n) (S (S n)) ap1 Hech H1)
    as (ap & Hr & Hl & Hz); [lia|].
  rewrite Hr.
  destruct (pfirst ap <? S n) eqn:Ej; [|exact Hech].
  apply Nat.ltb_lt in Ej. destruct Hech as [Hlen Hrows].
  split; [now rewrite length_set_nth|].
  intros j Hj. rewrite nth_set_nth by lia.
  destruct (j =? pfirst ap) eqn:E.
  - apply Nat.eqb_eq in E. right. exists ap. auto.
  - now apply Hrows.
Qed.

Lemma echelon_start dlen : echelon dlen (repeat RowZero dlen).
Proof.
  split; [apply repeat_length|].
  intros j Hj. left. apply nth_repeat.
Qed.

Lemma echelon_fold cols bpoly dlen l : forall rows,
  echelon dlen rows ->
  echelon dlen (fold_left (echelon_step cols bpoly dlen) l rows).
Proof.
  induction l as [|i l IH]; intros rows H; [exact H|].
  cbn [fold_left]. apply IH. now apply echelon_step_keeps.
Qed.

(** The row reduction never runs out of fuel. *)
Lemma echelon_step_fuel cols bpoly dlen rows i :
  echelon dlen rows -> i < dlen ->
  reduce (S dlen) bpoly rows dlen
    (let apoly :=
       fold_left (fun ap j => ppaste ap (nth (dlen - 1 - j) cols pzero) i j (j + 1) (dlen + 1))
                 (seq 0 dlen) pzero in
     if ptst apoly then ppaste apoly bpoly i dlen (dlen + 1) (dlen + 1) else apoly)
  <> None.
Proof.
  intros Hech Hi. cbv zeta.
  destruct dlen as [|n]; [lia|].
  set (ap0 := fold_left _ (seq 0 (S n)) pzero).
  assert (H0 : plen ap0 = S n + 1).
  { subst ap0. rewrite seq_S, fold_left_app. cbn [fold_left].
    apply length_ppaste. }
  set (ap1 := if ptst ap0 then _ else ap0).
  assert (H1 : plen ap1 = S n + 1).
  { subst ap1. destruct (ptst ap0); [apply length_ppaste | exact H0]. }
  destruct (reduce_fuel bpoly rows (S n) (S (S n)) ap1 Hech H1)
    as (ap & Hr & _); [lia|].
  rewrite Hr. discriminate.
Qed.

Lemma counter_bounds below : (0 <= counter below < 2 ^ Z.of_nat (length below))%Z.
Proof.
  induction below as [|r rest IH]; [cbn; lia|].
  cbn [counter length]. rewrite Nat2Z.inj_succ, Z.pow_succ_r by lia.
  destruct r; lia.
Qed.

(** A turn of the solution loop that does not end the loop counts up. *)
Lemma solve_rows_counts bpoly pone fl below : forall apoly cy apoly' below' cy',
  solve_rows bpoly pone fl below apoly cy = (apoly', below', cy') ->
  length below' = length below
  /\ (cy <> 0%Z -> cy' = 0%Z -> (counter below + 1 <= counter below')%Z)
  /\ (cy = 0%Z -> below' = below /\ cy' = 0%Z).
Proof.
  induction below as [|r rest IH]; intros apoly cy apoly' below' cy' H.
  - cbn in H. inversion H; subst. repeat split; auto. intros H1 H2. contradiction.
  - cbn [solve_rows] in H.
    set (ap1 := if pmpar apoly (row_bits bpoly r) then _ else apoly) in H.
    destruct (cy =? 0)%Z eqn:Ec.
    + apply Z.eqb_eq in Ec.
      destruct (solve_rows bpoly pone fl rest ap1 cy) as [[a2 r2] c2] eqn:E2.
      inversion H; subst apoly' below' cy'. clear H.
      destruct (IH _ _ _ _ _ E2) as (Hl & _ & Hz).
      destruct (Hz Ec) as [-> ->].
      repeat split; auto. intros Hne. contradiction.
    + apply Z.eqb_neq in Ec.
      destruct r.
      * destruct (solve_rows bpoly pone fl rest ap1 (Z.land cy fl))
          as [[a2 r2] c2] eqn:E2.
        inversion H; subst apoly' below' cy'. clear H.
        destruct (IH _ _ _ _ _ E2) as (Hl & Hup & Hz).
        split; [cbn [length]; lia|]. split; [|intros; contradiction].
        intros _ Hc2. cbn [counter].
        destruct (Z.eq_dec (Z.land cy fl) 0) as [E0|E0].
        -- destruct (Hz E0) as [-> _]. lia.
        -- specialize (Hup E0 Hc2). lia.
      * destruct (solve_rows bpoly pone fl rest ap1 cy) as [[a2 r2] c2] eqn:E2.
        inversion H; subst apoly' below' cy'. clear H.
        destruct (IH _ _ _ _ _ E2) as (Hl & Hup & Hz).
        split; [cbn [length]; lia|]. split; [|intros; contradiction].
        intros _ Hc2. cbn [counter]. specialize (Hup Ec Hc2). lia.
      * destruct (solve_rows bpoly pone fl rest ap1 cy) as [[a2 r2] c2] eqn:E2.
        inversion H; subst apoly' below' cy'. clear H.
        destruct (IH _ _ _ _ _ E2) as (Hl & Hup & Hz).
        split; [cbn [length]; lia|]. split; [|intros; contradiction].
        intros _ Hc2. cbn [counter]. specialize (Hup Ec Hc2). lia.
Qed.

Lemma solutions_fuel divisor bpoly pone fl args fuel : forall st rows,
  (2 ^ Z.of_nat (length rows) - counter (rev rows) <= Z.of_nat fuel)%Z ->
  exists st', solutions fuel st divisor bpoly pone fl args rows = Some st'.
Proof.
  induction fuel as [|fuel IH]; intros st rows Hf.
  - pose proof (counter_bounds (rev rows)) as Hb. rewrite length_rev in Hb. lia.
  - cbn [solutions].
    destruct (solve_rows bpoly pone fl (rev rows) (pclone bpoly) P_EXHST)
      as [[apoly below] cy] eqn:E.
    destruct (solve_rows_counts _ _ _ _ _ _ _ _ _ E) as (Hl & Hup & _).
    destruct (cy =? 0)%Z eqn:Ec; [|eauto].
    apply Z.eqb_eq in Ec.
    apply IH. rewrite length_rev, rev_involutive, Hl, length_rev.
    assert (counter (rev rows) + 1 <= counter below)%Z
      by (apply Hup; [discriminate | exact Ec]).
    lia.
Qed.

(** The solution loop never runs out of fuel. *)
Lemma solutions_enough st divisor bpoly pone fl args rows :
  length rows = plen divisor ->
  exists st', solutions (2 ^ plen divisor) st divisor bpoly pone fl args rows
              = Some st'.
Proof.
  intros Hl. apply solutions_fuel. rewrite Hl, Nat2Z.inj_pow.
  pose proof (counter_bounds (rev rows)). change (Z.of_nat 2) with 2%Z. lia.
Qed.

(** So [engini] is its code: the value with which the model would answer an
    exhausted loop is never used. *)
Lemma engini_runs_its_loops st divisor fl args aptr alen bptr blen :
  two_shortest 1 (tl args) 0 (plen (nth 0 args pzero)) 0 (plen (nth 0 args pzero))
  = (aptr, alen, bptr, blen) ->
  (aptr =? bptr) = false ->
  exists rows bpoly pone st',
    echelon (plen divisor) rows
    /\ solutions (2 ^ plen divisor) st divisor bpoly pone fl args rows = Some st'
    /\ engini st divisor fl args = st'.
Proof.
  intros Hts Hne.
  unfold engini. cbv zeta. rewrite Hts, Hne.
  match goal with
  | |- context [solutions _ _ _ ?bp ?po _ _
                          (fold_left (echelon_step ?cols ?b0 ?dl) ?l ?r0)] =>
      pose proof (echelon_fold cols b0 dl l r0 (echelon_start dl)) as Hech;
      destruct (solutions_enough st divisor bp po fl args
                  (fold_left (echelon_step cols b0 dl) l r0) (proj1 Hech))
        as [st' Hs]
  end.
  rewrite Hs. eexists _, _, _, st'. split; [exact Hech|]. split; [exact Hs | reflexivity].
Qed.

(** ** The engine and the search on known algorithms *)

(** CRC-16/CCITT-FALSE of "123456789" is 0x29B1. *)
Example crc16_ccitt_false_check :
  pval (pcrc (bits_of_string "123456789") (poly_of_Z 16 0x1021)
             (poly_of_Z 16 0xFFFF) (poly_of_Z 16 0) P_MULXN) = 0x29B1%Z.
Proof. vm_compute. reflexivity. Qed.

(** CRC-32/ISO-HDLC of "123456789" is 0xCBF43926: the characters are
    reflected on the way in and the register on the way out. *)
Example crc32_iso_hdlc_check :
  pval (prev (pcrc (reflected_bits_of_string "123456789")
                   (poly_of_Z 32 0x04C11DB7) (poly_of_Z 32 0xFFFFFFFF)
                   (poly_of_Z 32 0xFFFFFFFF) P_MULXN)) = 0xCBF43926%Z.
Proof. vm_compute. reflexivity. Qed.

(** A search with the polynomial of CRC-16/CCITT-FALSE known and three
    codewords of 3, 6 and 9 characters: [engini] and [calout] find Init
    0xFFFF with XorOut 0, and one more pair that no codeword of these
    lengths tells apart from it. *)
Example search_ccitt_poly_known :
  map (fun m => (pval (spoly m), pval (init m), pval (xorout m)))
      (fst (reveng 64 3
              {| spoly := poly_of_Z 16 0x1021; init := poly_of_Z 16 0;
                 flags := Z.lor P_RTJUST P_MULXN; xorout := poly_of_Z 16 0;
                 check := pzero; magic := pzero; name := None |}
              pzero R_HAVEP
              [ccitt_codeword "123456789"; ccitt_codeword "abc";
               ccitt_codeword "abcdef"]))
  = [(0x1021, 0x0FE0, 0xF01F); (0x1021, 0xFFFF, 0); (0, 0, 0)]%Z.
Proof. vm_compute. reflexivity. Qed.

(* ===================================================================== *)
(** * The claims *)
(* ===================================================================== *)

(** C1 (as the code has it).  Every model of the result array of [reveng],
    the entry that ends it included, agrees with every sample: the CRC of the
    sample under the model's [spoly] and [init], with no flags, and with
    XorOut reversed if [REFOUT] is set in the model's flags and as it is
    otherwise, has no bit set. *)
Theorem search_soundness ub sm guess qpoly rflags args :
  Forall (fun m => Forall (agrees m) args)
         (fst (reveng ub sm guess qpoly rflags args)).
Proof.
  unfold reveng.
  set (st := if flag_set rflags R_HAVEP then _ else _).
  assert (Hs : sound args st).
  { subst st.
    destruct (flag_set rflags R_HAVEP); [apply dispch_sound, sound_rstate0|].
    destruct (plen (spoly guess) =? 0); [apply sound_rstate0|].
    cbv zeta.
    destruct (_ <? _); [apply sound_rstate0|].
    destruct (_ =? _); [apply dispch_sound, sound_rstate0|].
    apply enumerate_sound. }
  unfold requit. cbn [fst]. apply Forall_app. split; [exact Hs|].
  constructor; [|constructor].
  rewrite Forall_forall. intros s _. apply sentinel_agrees.
Qed.

(** C1 as stated fails.  First on the flags handed to the engine: the
    model found for the sample 1011111 has XorOut 111, which is its own
    reverse, and the default flags, with [MULXN]; its CRC under those flags
    is not zero.  Then on the direction of the reversal, with no flag set:
    the model found for the sample 1011110 has XorOut 110 and [REFOUT]
    clear, and the CRC with the reversed XorOut 011 is not zero. *)
Lemma search_soundness_as_stated_fails :
  ~ Forall (fun m => Forall (agrees_as_stated m) [bits "1011111"])
       (fst (reveng 64 3 (guess_of "011" "000" "111" 12) pzero
                    (R_HAVEP + R_HAVEI + R_HAVEX) [bits "1011111"]))
  /\ ~ Forall (fun m => Forall (agrees_as_stated m) [bits "1011110"])
         (fst (reveng 64 3 (guess_of "011" "000" "110" 0) pzero
                      (R_HAVEP + R_HAVEI + R_HAVEX) [bits "1011110"])).
Proof.
  split; intros H.
  - apply Forall_inv in H. apply Forall_inv in H. vm_compute in H. discriminate.
  - apply Forall_inv in H. apply Forall_inv in H. vm_compute in H. discriminate.
Qed.

(** C2.  With [R_HAVEP] set [reveng] hands the guess's polynomial to
    [dispch]; [dispch] goes to [chkres] when Init and XorOut are both given,
    to [calout] when only Init is, to [calini] when only XorOut is, and to
    [engini] when neither is.  With [R_HAVEP] clear, where the search loop is
    entered, the outcome is that of the loop body run on the trial factors in
    turn, and the body hands every trial factor that divides the GCD to the
    same [dispch], under flags that agree with the caller's on [R_HAVEI] and
    [R_HAVEX]. *)
Theorem dispatch_by_given_parameters ub sm guess qpoly rflags args :
  (flag_set rflags R_HAVEP = true ->
   reveng ub sm guess qpoly rflags args
   = requit (dispch guess rstate0 (spoly guess) rflags args))
  /\ (forall st divisor rf,
        dispch guess st divisor rf args
        = match flag_set rf R_HAVEI, flag_set rf R_HAVEX with
          | true, true =>
              chkres st divisor (init guess) (flags guess) (xorout guess) args
          | true, false => calout st divisor (init guess) (flags guess) args
          | false, true => calini st divisor (flags guess) (xorout guess) args
          | false, false => engini st divisor (flags guess) args
          end)
  /\ (forall rf f0 qq,
        loop_entry guess qpoly rflags args = Some (rf, f0, qq) ->
        let D := modpol (init guess) rflags args in
        flag_set rflags R_HAVEP = false
        /\ reveng ub sm guess qpoly rflags args
           = requit (l_st (fold_left (try_factor ub sm guess rf D args)
                                     (candidates guess qpoly rflags args)
                                     (loop_start f0)))
        /\ flag_set rf R_HAVEI = flag_set rflags R_HAVEI
        /\ flag_set rf R_HAVEX = flag_set rflags R_HAVEX
        /\ forall ls c,
             l_st (try_factor ub sm guess rf D args ls c)
             = if ptst (pcrc D c pzero pzero 0) then reported sm guess ls c
               else dispch guess (reported sm guess ls c)
                           (trial_divisor rf D c) rf args).
Proof.
  split; [apply reveng_have_poly|]. split.
  - intros st divisor rf. unfold dispch.
    destruct (flag_set rf R_HAVEI), (flag_set rf R_HAVEX); reflexivity.
  - intros rf f0 qq He D.
    pose proof (reveng_loop ub sm guess qpoly rflags args rf f0 qq He) as Hr.
    apply loop_entry_some in He.
    destruct He as (Hp & _ & _ & f & Hs & _).
    apply short_setup_flags in Hs. destruct Hs as (Hi & Hx & _).
    repeat split; auto.
    intros ls c. apply try_factor_state.
Qed.

Lemma dispatch_by_given_parameters_witness :
  reveng 64 3 (guess_of "011" "000" "000" 12) pzero (R_HAVEP + R_HAVEI) [bits "1011"]
  = requit (dispch (guess_of "011" "000" "000" 12) rstate0 (bits "011")
                   (R_HAVEP + R_HAVEI) [bits "1011"])
  /\ reveng 64 3 (guess3 "000") pzero (R_HAVEI + R_HAVEX)
             [bits "1111111"; bits "0000000"]
     = requit (l_st (fold_left
                       (try_factor 64 3 (guess3 "000")
                          (Z.land (R_HAVEI + R_HAVEX) (Z.lnot R_SHORT))
                          (bits "1111111") [bits "1111111"; bits "0000000"])
                       [bits "001"; bits "011"; bits "101"; bits "111"]
                       (loop_start (bits "000")))).
Proof.
  split.
  - apply (proj1 (dispatch_by_given_parameters 64 3 (guess_of "011" "000" "000" 12)
                    pzero (R_HAVEP + R_HAVEI) [bits "1011"])).
    reflexivity.
  - apply (proj2 (proj2 (dispatch_by_given_parameters 64 3 (guess3 "000")
                    pzero (R_HAVEI + R_HAVEX) [bits "1111111"; bits "0000000"]))
             (Z.land (R_HAVEI + R_HAVEX) (Z.lnot R_SHORT))
             (bits "000") pzero).
    reflexivity.
Defined.

(** C3.  In a search without the polynomial, once the GCD [D] of the
    differences has been computed (the width is not zero): if [D] is shorter
    than [width + 1] the search is abandoned and the result holds no model;
    if [D] has length [width + 1] then [D] without its top term is
    dispatched, and that dispatch is all that happens: the loop has no trial
    factor and no progress is reported. *)
Theorem gcd_thresholds ub sm guess qpoly rflags args :
  let width := plen (spoly guess) in
  let D := modpol (init guess) rflags args in
  flag_set rflags R_HAVEP = false ->
  width <> 0 ->
  (plen D < width + 1 ->
   reveng ub sm guess qpoly rflags args = ([sentinel], []))
  /\ (plen D = width + 1 ->
      reveng ub sm guess qpoly rflags args
      = requit (dispch guess rstate0 (tl D) rflags args)
      /\ plen (tl D) = width
      /\ candidates guess qpoly rflags args = []
      /\ progress (snd (reveng ub sm guess qpoly rflags args)) = []).
Proof.
  intros width D Hp Hw. split.
  - now apply reveng_too_short.
  - intros Heq.
    assert (He : loop_entry guess qpoly rflags args = None).
    { unfold loop_entry. rewrite Hp.
      apply Nat.eqb_neq in Hw. fold width. rewrite Hw. cbv zeta. fold D.
      now replace (plen D <=? width + 1) with true
        by (symmetry; apply Nat.leb_le; lia). }
    repeat split.
    + now apply reveng_unique.
    + unfold plen in *. destruct D; cbn [length tl] in *; lia.
    + unfold candidates. now rewrite He.
    + now apply reveng_progress_no_loop.
Qed.

Lemma gcd_thresholds_witness :
  reveng 64 3 (guess3 "000") pzero (R_HAVEI + R_HAVEX) [bits "11"; bits "00"]
  = ([sentinel], [])
  /\ reveng 64 3 (guess3 "000") pzero (R_HAVEI + R_HAVEX) [bits "1011"; bits "0000"]
     = requit (dispch (guess3 "000") rstate0 (bits "011") (R_HAVEI + R_HAVEX)
                      [bits "1011"; bits "0000"]).
Proof.
  split.
  - apply (proj1 (gcd_thresholds 64 3 (guess3 "000") pzero (R_HAVEI + R_HAVEX)
                   [bits "11"; bits "00"] eq_refl ltac:(vm_compute; lia))).
    vm_compute. lia.
  - apply (proj2 (gcd_thresholds 64 3 (guess3 "000") pzero (R_HAVEI + R_HAVEX)
                   [bits "1011"; bits "0000"] eq_refl ltac:(vm_compute; lia))).
    reflexivity.
Defined.

(** C4 (as the code has it).  In a search with [R_HAVEP] clear and
    [R_HAVEQ] set in which the GCD of the differences is longer than twice
    the width, so that the loop tries polynomials of the full width, every
    model before the entry that ends the result array has
    [pcmp(spoly, qpoly) < 0] and [pcmp(spoly, startPoly) >= 0]. *)
Theorem range_honoured_full_width ub sm guess qpoly rflags args :
  let width := plen (spoly guess) in
  let D := modpol (init guess) rflags args in
  flag_set rflags R_HAVEP = false ->
  flag_set rflags R_HAVEQ = true ->
  2 * width < plen D ->
  exists ms,
    fst (reveng ub sm guess qpoly rflags args) = ms ++ [sentinel]
    /\ Forall (in_range guess qpoly) ms.
Proof.
  intros width D Hp Hq Hlong.
  destruct (Nat.eq_dec width 0) as [Hw|Hw].
  { exists []. split; [|constructor].
    unfold reveng. rewrite Hp. fold width. now rewrite Hw. }
  pose proof (short_setup_full rflags D (spoly guess) qpoly Hlong) as Hs.
  assert (He : loop_entry guess qpoly rflags args
               = Some (Z.land rflags (Z.lnot R_SHORT),
                       pshift (spoly guess) 0 0 (plen (spoly guess) - 1) 1, qpoly)).
  { unfold loop_entry. rewrite Hp, Hq.
    pose proof (proj2 (Nat.eqb_neq _ _) Hw) as Hwb.
    fold width. rewrite Hwb. cbv zeta. fold D.
    replace (plen D <=? width + 1) with false
      by (symmetry; apply Nat.leb_gt; lia).
    unfold width. now rewrite Hs. }
  rewrite (reveng_loop ub sm guess qpoly rflags args _ _ _ He).
  set (rf := Z.land rflags (Z.lnot R_SHORT)) in *.
  set (f0 := pshift (spoly guess) 0 0 (plen (spoly guess) - 1) 1) in *.
  assert (Hshort : flag_set rf R_SHORT = false) by (subst rf; flag_bits; reflexivity).
  assert (Hq' : flag_set (Z.lnot rf) R_HAVEQ = false).
  { subst rf. flag_bits. now rewrite Hq. }
  destruct (fold_trial_result ub sm guess rf
              (modpol (init guess) rflags args) args
              (candidates guess qpoly rflags args) (loop_start f0) Hshort)
    as (ms & Hres & Hin).
  exists ms. cbn [requit fst]. rewrite Hres. split; [reflexivity|].
  eapply Forall_impl; [|exact Hin].
  intros m Hm. unfold candidates in Hm. rewrite He in Hm.
  apply trial_factors_range in Hm. destruct Hm as (Hl & Hv & Hlt).
  destruct (pshift_clear_low (spoly guess) Hw) as [Hl0 Hv0]. fold f0 in Hl0, Hv0.
  split; [now apply Hlt|].
  apply pcmp_nonneg; [congruence | lia].
Qed.

Lemma range_honoured_full_width_witness :
  exists ms,
    fst (reveng 64 3 (guess3 "010") (bits "101") (R_HAVEQ + R_HAVEI + R_HAVEX)
                [bits "1111111"; bits "0000000"]) = ms ++ [sentinel]
    /\ Forall (in_range (guess3 "010") (bits "101")) ms.
Proof.
  apply (range_honoured_full_width 64 3 (guess3 "010") (bits "101")
           (R_HAVEQ + R_HAVEI + R_HAVEX) [bits "1111111"; bits "0000000"]).
  - reflexivity.
  - reflexivity.
  - vm_compute. lia.
Defined.

(** C4 as stated fails.  With a GCD of length [width + 1] the generator is
    dispatched whatever the range: the model found has [spoly = 011] while
    the range starts at [100].  In short mode the range bounds the cofactor
    that is enumerated and not the generator: the model found has
    [spoly = 011] while the range ends at [010]. *)
Lemma range_not_honoured :
  ~ Forall (in_range (guess3 "100") (bits "110"))
       (removelast (fst (reveng 64 3 (guess3 "100") (bits "110")
                                (R_HAVEQ + R_HAVEI + R_HAVEX)
                                [bits "1011"; bits "0000"])))
  /\ ~ Forall (in_range (guess3 "000") (bits "010"))
         (removelast (fst (reveng 64 3 (guess3 "000") (bits "010")
                                  (R_HAVEQ + R_HAVEI + R_HAVEX)
                                  [bits "11101"; bits "00000"]))).
Proof.
  split; intros H.
  - assert (E : map spoly
                  (removelast (fst (reveng 64 3 (guess3 "100") (bits "110")
                                           (R_HAVEQ + R_HAVEI + R_HAVEX)
                                           [bits "1011"; bits "0000"])))
                = [bits "011"]) by (vm_compute; reflexivity).
    destruct (removelast _) as [|m ms]; [discriminate|].
    injection E as E _. apply Forall_inv in H. destruct H as [_ H].
    rewrite E in H. vm_compute in H. now apply H.
  - assert (E : map spoly
                  (removelast (fst (reveng 64 3 (guess3 "000") (bits "010")
                                           (R_HAVEQ + R_HAVEI + R_HAVEX)
                                           [bits "11101"; bits "00000"])))
                = [bits "011"]) by (vm_compute; reflexivity).
    destruct (removelast _) as [|m ms]; [discriminate|].
    injection E as E _. apply Forall_inv in H. destruct H as [H _].
    rewrite E in H. vm_compute in H. discriminate.
Qed.



(** C7.  With [R_SPMASK = 2^k - 1]: of the trial factors of a search, in the
    order in which the loop tries them, [uprog] is called for the first and
    for every [(R_SPMASK + 1)]-th after it and for no other; the sequence
    number of the first call is 0 and each call has the number of the
    previous one plus 1, in an [unsigned long] (so without wrap-around as
    long as there are no more than [2 ^ ulong_bits] trial factors).  The
    driver's [uprog] does nothing when the sequence number is 0. *)
Theorem progress_reporting ub k guess qpoly rflags args env p fl :
  (0 <= k <= ub)%Z ->
  progress (snd (reveng ub (2 ^ k - 1) guess qpoly rflags args))
  = expected_reports ub (2 ^ k) (flags guess) (candidates guess qpoly rflags args)
  /\ ((Z.of_nat (length (candidates guess qpoly rflags args)) <= 2 ^ ub)%Z ->
      progress (snd (reveng ub (2 ^ k - 1) guess qpoly rflags args))
      = map (fun jc => Uprog (snd jc) (flags guess) (Z.of_nat (fst jc)))
            (numbered (every_nth (2 ^ k) (candidates guess qpoly rflags args))))
  /\ Cli.uprog env p fl 0 = Cli.ret tt.
Proof.
  intros Hk.
  assert (H1 : progress (snd (reveng ub (2 ^ k - 1) guess qpoly rflags args))
               = expected_reports ub (2 ^ k) (flags guess)
                                  (candidates guess qpoly rflags args)).
  { destruct (loop_entry guess qpoly rflags args) as [[[rf f0] qq]|] eqn:He.
    - rewrite (reveng_loop ub (2 ^ k - 1) guess qpoly rflags args rf f0 qq He).
      cbn [requit snd].
      rewrite (fold_trial_progress ub k guess rf _ args Hk _ (loop_start f0) 0 0);
        [reflexivity | |]; cbn [loop_start l_spin l_seq];
        rewrite Z.mod_0_l; auto; apply Z.pow_nonzero; lia.
    - rewrite reveng_progress_no_loop by assumption.
      unfold candidates. now rewrite He. }
  split; [exact H1|]. split; [|reflexivity].
  intros Hsmall. rewrite H1. unfold expected_reports.
  apply reports_from_small.
  pose proof (length_every_nth_from (2 ^ k) 0 (candidates guess qpoly rflags args)).
  unfold every_nth. lia.
Qed.

Lemma progress_reporting_witness :
  progress (snd (reveng 64 (2 ^ 2 - 1) (guess_of "0000" "0000" "0000" 12) pzero
                        (R_HAVEI + R_HAVEX)
                        [bits "1000000001"; bits "0000000000"]))
  = [Uprog (bits "0001") 12 0; Uprog (bits "1001") 12 1].
Proof.
  rewrite (proj1 (progress_reporting 64 2 (guess_of "0000" "0000" "0000" 12) pzero
                    (R_HAVEI + R_HAVEX) [bits "1000000001"; bits "0000000000"]
                    plain_env pzero 0 ltac:(lia))).
  reflexivity.
Defined.

(** C8 (as the code has it).  In mode [-c] with no polynomial (the width is
    zero, so [spoly] is empty when the mode is run) and arguments that are
    not file names, the driver makes no check of the polynomial: for every
    argument it prints the CRC of length zero that the engine returns, and
    the run ends with [EXIT_SUCCESS]. *)
Theorem crc_mode_without_polynomial env st argv :
  c_mode st = chr "c" ->
  c_width st = 0 ->
  flag_set (c_uflags st) C_INFILE = false ->
  main_body env st argv
  = (map (fun _ => Puts (ptostr env pzero (flags (c_model st)) (c_obperhx st))) argv,
     EXIT_SUCCESS).
Proof.
  intros Hm Hw Hf. unfold main_body. rewrite Hm, Hw, !pright_0.
  change (chr "c" =? chr "s")%Z with false.
  change (chr "c" =? chr "v")%Z with false.
  change (chr "c" =? chr "c")%Z with true.
  cbn [negb].
  set (m0 := set_polys (c_model st) [] [] []).
  assert (Hcanon : exists m', mcanon env m0 = ret m'
                              /\ spoly m' = [] /\ init m' = [] /\ xorout m' = []
                              /\ flags m' = flags (c_model st)).
  { unfold mcanon. subst m0. cbn [set_polys spoly init xorout flags plen length].
    cbn [Nat.ltb Nat.leb andb Nat.eqb ptst existsb orb].
    destruct (negb _); eexists; repeat split; reflexivity. }
  destruct Hcanon as (m' & Hc & Hsp & Hi & Hx & Hfl).
  rewrite Hc. unfold bind at 1 2. unfold ret at 1.
  assert (Hmode : forall log,
            mode_c env st m' argv log
            = (log ++ map (fun _ => Puts (ptostr env pzero (flags (c_model st))
                                                 (c_obperhx st))) argv, inl tt)).
  { unfold mode_c.
    set (m2 := if flag_set (flags m') P_REFOUT then _ else m').
    assert (H2 : spoly m2 = [] /\ flags m2 = flags (c_model st)).
    { subst m2. destruct (flag_set (flags m') P_REFOUT);
        cbn [set_polys spoly flags]; split; assumption. }
    destruct H2 as [Hsp2 Hfl2]. clearbody m2.
    apply for_each_acts. intros arg log'.
    unfold read_arg. rewrite Hf. unfold bind, ret, act.
    rewrite Hm. change (chr "c" =? chr "v")%Z with false.
    now rewrite Hsp2, pcrc_nil, Hfl2. }
  rewrite Hmode. reflexivity.
Qed.

Lemma crc_mode_without_polynomial_witness :
  main_body plain_env (after_options "c" 0) ["1011"%string; "1"%string]
  = ([Puts ""; Puts ""], EXIT_SUCCESS).
Proof.
  apply (crc_mode_without_polynomial plain_env (after_options "c" 0)
           ["1011"%string; "1"%string]); reflexivity.
Defined.

(** C8 as stated fails.  The run of [-c] on two arguments with no
    polynomial given prints two empty CRCs, writes nothing to [stderr] and
    ends with [EXIT_SUCCESS], not with a failure. *)
Lemma crc_mode_raises_no_error :
  main_body plain_env (after_options "c" 0) ["1011"%string; "1"%string]
  = ([Puts ""; Puts ""], EXIT_SUCCESS)
  /\ snd (main_body plain_env (after_options "c" 0) ["1011"%string; "1"%string])
     <> EXIT_FAILURE.
Proof. split; [reflexivity | discriminate]. Qed.

(** C10.  A call of [reveng] with [R_HAVEP], [R_HAVEI] and [R_HAVEX] all set
    and no samples: the loop of [chkres] has nothing to check, so exactly one
    model, with the guess's [spoly], [init], [xorout] and [flags], is added
    and reported through [ufound], followed by the zero-filled entry that
    ends the array; no other callback is made. *)
Theorem reveng_known_parameters_no_samples ub sm guess qpoly rflags :
  flag_set rflags R_HAVEP = true ->
  flag_set rflags R_HAVEI = true ->
  flag_set rflags R_HAVEX = true ->
  let m := candidate (spoly guess) (init guess) (flags guess) (xorout guess) in
  reveng ub sm guess qpoly rflags [] = ([m; sentinel], [Ufound m])
  /\ spoly m = spoly guess /\ init m = init guess
  /\ xorout m = xorout guess /\ flags m = flags guess.
Proof.
  intros Hp Hi Hx m. split; [|repeat split].
  unfold reveng, dispch, chkres. now rewrite Hp, Hi, Hx.
Qed.

Lemma reveng_known_parameters_no_samples_witness :
  reveng 64 3 (guess_of "00000111" "10100101" "11000011" 12) pzero
         (R_HAVEP + R_HAVEI + R_HAVEX) []
  = ([candidate (bits "00000111") (bits "10100101") 12 (bits "11000011"); sentinel],
     [Ufound (candidate (bits "00000111") (bits "10100101") 12 (bits "11000011"))]).
Proof.
  apply (reveng_known_parameters_no_samples 64 3
           (guess_of "00000111" "10100101" "11000011" 12) pzero
           (R_HAVEP + R_HAVEI + R_HAVEX)); reflexivity.
Defined.




Lemma ufound_models_app t1 t2 :
  ufound_models (t1 ++ t2) = ufound_models t1 ++ ufound_models t2.
Proof. apply flat_map_app. Qed.

Lemma ufound_models_map ms : ufound_models (map Ufound ms) = ms.
Proof. induction ms as [|m ms IH]; simpl; [|rewrite IH]; reflexivity. Qed.

Lemma grows_refl P st : grows P st st.
Proof. exists []. now rewrite !app_nil_r. Qed.

Lemma grows_trans P st1 st2 st3 :
  grows P st1 st2 -> grows P st2 st3 -> grows P st1 st3.
Proof.
  intros (ms1 & Hr1 & Ht1 & HP1) (ms2 & Hr2 & Ht2 & HP2).
  exists (ms1 ++ ms2). rewrite Hr2, Hr1, Ht2, Ht1, !app_assoc.
  repeat split. now apply Forall_app.
Qed.

Lemma grows_weaken (P Q : model_t -> Prop) st st' :
  (forall m, P m -> Q m) -> grows P st st' -> grows Q st st'.
Proof.
  intros HPQ (ms & Hr & Ht & HP). exists ms. repeat split; auto.
  eapply Forall_impl; eauto.
Qed.

Lemma adds_models_grows P st st' : adds_models P st st' -> grows P st st'.
Proof.
  intros (ms & Hr & Ht & HP). exists ms. repeat split; auto.
  now rewrite Ht, ufound_models_app, ufound_models_map.
Qed.

Lemma adds_models_weaken (P Q : model_t -> Prop) st st' :
  (forall m, P m -> Q m) -> adds_models P st st' -> adds_models Q st st'.
Proof.
  intros HPQ (ms & Hr & Ht & HP). exists ms. repeat split; auto.
  eapply Forall_impl; eauto.
Qed.

Lemma chkres_adds_candidate st divisor init fl xorout args :
  adds_models (fun m => m = candidate divisor init fl xorout) st
              (chkres st divisor init fl xorout args).
Proof.
  unfold chkres. destruct (chkres_loop _ _ _ _); [|apply adds_models_refl].
  eexists [_]. cbn [result trace map]. repeat split.
  constructor; [reflexivity|constructor].
Qed.

Lemma calout_adds_candidate st divisor init fl args :
  adds_models (fun m => exists xo, m = candidate divisor init fl xo) st
              (calout st divisor init fl args).
Proof.
  unfold calout. destruct args; [apply adds_models_refl|].
  eapply adds_models_weaken; [|apply chkres_adds_candidate].
  intros m ->. eauto.
Qed.

Lemma calini_adds_candidate st divisor fl xorout args :
  adds_models (fun m => exists i, m = candidate divisor i fl xorout) st
              (calini st divisor fl xorout args).
Proof.
  unfold calini. destruct args; [apply adds_models_refl|].
  eapply adds_models_weaken; [|apply chkres_adds_candidate].
  intros m ->. eauto.
Qed.

Lemma solutions_adds_candidate args divisor bpoly pone fl fuel : forall st rows st',
  solutions fuel st divisor bpoly pone fl args rows = Some st' ->
  adds_models (fun m => exists i xo, m = candidate divisor i fl xo) st st'.
Proof.
  assert (Hc : forall st i,
    adds_models (fun m => exists i xo, m = candidate divisor i fl xo) st
                (calout st divisor i fl args)).
  { intros st i. eapply adds_models_weaken; [|apply calout_adds_candidate].
    intros m (xo & ->). eauto. }
  induction fuel as [|fuel IH]; intros st rows st' H; [discriminate|].
  cbn [solutions] in H.
  destruct (solve_rows _ _ _ _ _ _) as [[apoly below] cy].
  destruct (cy =? 0)%Z.
  - eapply adds_models_trans; [apply Hc | eapply IH, H].
  - inversion H; subst. apply Hc.
Qed.

Lemma engini_adds_candidate st divisor fl args :
  adds_models (fun m => exists i xo, m = candidate divisor i fl xo) st
              (engini st divisor fl args).
Proof.
  unfold engini.
  destruct (two_shortest _ _ _ _ _ _) as [[[aptr alen] bptr] blen].
  destruct (aptr =? bptr).
  { eapply adds_models_weaken; [|apply calini_adds_candidate].
    intros m (i & ->). eauto. }
  destruct (solutions _ _ _ _ _ _ _ _) eqn:E; [|apply adds_models_refl].
  eapply solutions_adds_candidate, E.
Qed.

Lemma dispch_dispatched guess st divisor rflags args :
  adds_models (dispatched guess rflags divisor) st
              (dispch guess st divisor rflags args).
Proof.
  unfold dispch, dispatched.
  destruct (flag_set rflags R_HAVEI) eqn:Hi, (flag_set rflags R_HAVEX) eqn:Hx;
    cbn [andb].
  - eapply adds_models_weaken; [|apply chkres_adds_candidate].
    intros m ->. eauto.
  - eapply adds_models_weaken; [|apply calout_adds_candidate].
    intros m (xo & ->). exists (init guess), xo. repeat split; auto; discriminate.
  - eapply adds_models_weaken; [|apply calini_adds_candidate].
    intros m (i & ->). exists i, (xorout guess). repeat split; auto; discriminate.
  - eapply adds_models_weaken; [|apply engini_adds_candidate].
    intros m (i & xo & ->). exists i, xo. repeat split; auto; discriminate.
Qed.

Lemma crc_fold_quotient divisor msg : forall st,
  length (snd (fold_left (crc_step divisor) msg st)) = length msg + length (snd st).
Proof.
  induction msg as [|b msg IH]; intros [reg q]; [reflexivity|].
  cbn [fold_left]. rewrite IH. unfold crc_step.
  destruct reg; cbn [snd length]; lia.
Qed.

Lemma plen_quotient message divisor init xorout :
  plen (snd (pcrc_quot message divisor init xorout 0))
  = plen message - plen divisor.
Proof.
  unfold pcrc_quot, plen. cbn [Z.land Z.eqb].
  match goal with |- context [fold_left ?f ?l ?s] =>
    pose proof (crc_fold_quotient divisor l s) as H;
    destruct (fold_left f l s) as [reg q] end.
  cbn [snd length] in *.
  rewrite length_firstn, length_rev, H, length_skipn, length_app, repeat_length.
  lia.
Qed.

Lemma plen_piter p : plen (fst (piter p)) = plen p.
Proof.
  destruct (piter p) as [q more] eqn:E. now apply piter_spec in E.
Qed.

Lemma plen_trial_divisor rf pwork c :
  2 <= plen pwork - plen c ->
  plen (trial_divisor rf pwork c)
  = if flag_set rf R_SHORT then plen pwork - plen c - 1 else plen c.
Proof.
  intros H. unfold trial_divisor. destruct (flag_set rf R_SHORT); [|reflexivity].
  rewrite plen_piter.
  pose proof (plen_quotient pwork c pzero pzero) as Hq.
  set (quot := snd _) in *. unfold pshift, plen in *.
  rewrite !length_app, !repeat_length, length_firstn, length_skipn, length_app,
    repeat_length. simpl. lia.
Qed.

Lemma short_setup_factor rflags pwork factor qq rf f q :
  short_setup rflags pwork factor qq = Some (rf, f, q) ->
  plen f = if plen pwork <=? 2 * plen factor
           then plen pwork - plen factor - 1 else plen factor.
Proof.
  unfold short_setup. intros H.
  destruct (plen pwork <=? 2 * plen factor).
  - destruct (_ || _).
    + destruct (_ <? 0)%Z; [discriminate|].
      destruct (_ <? 0)%Z; [|destruct (flag_set _ R_HAVEQ)];
        inversion H; subst; apply plen_pright.
    + inversion H; subst. apply plen_pright.
  - inversion H; subst. reflexivity.
Qed.


Section Grows.

Variables (ub sm : Z) (guess : model_t) (rflags rf : Z) (pwork : poly_t)
          (args : list poly_t).

Hypothesis Hi : flag_set rf R_HAVEI = flag_set rflags R_HAVEI.
Hypothesis Hx : flag_set rf R_HAVEX = flag_set rflags R_HAVEX.
Hypothesis Hp : flag_set rflags R_HAVEP = false.

Let trial := try_factor ub sm guess rf pwork args.

Lemma reported_grows P ls c : grows P (l_st ls) (reported sm guess ls c).
Proof.
  unfold reported. destruct (_ =? _)%Z; [|apply grows_refl].
  exists []. cbn [result trace]. rewrite ufound_models_app. simpl.
  rewrite !app_nil_r. repeat split. constructor.
Qed.

Lemma try_factor_grows ls c :
  plen (trial_divisor rf pwork c) = plen (spoly guess) ->
  grows (search_result guess rflags) (l_st ls) (l_st (trial ls c)).
Proof.
  intros Hl. unfold trial. rewrite try_factor_state.
  destruct (ptst _); [apply reported_grows|].
  eapply grows_trans; [apply reported_grows|].
  apply adds_models_grows.
  eapply adds_models_weaken; [|apply dispch_dispatched].
  intros m (i & xo & -> & H1 & H2).
  exists (trial_divisor rf pwork c). split; [|split; [exact Hl|]].
  - exists i, xo. rewrite <- Hi, <- Hx. auto.
  - rewrite Hp. discriminate.
Qed.

Lemma fold_trial_grows l : forall ls,
  Forall (fun c => plen (trial_divisor rf pwork c) = plen (spoly guess)) l ->
  grows (search_result guess rflags) (l_st ls) (l_st (fold_left trial l ls)).
Proof.
  induction l as [|c l IH]; intros ls Hl; [apply grows_refl|].
  inversion Hl; subst. cbn [fold_left].
  eapply grows_trans; [apply (try_factor_grows ls c); assumption|].
  apply IH; assumption.
Qed.

End Grows.

Lemma dispch_search_result guess rflags d args :
  plen d = plen (spoly guess) ->
  (flag_set rflags R_HAVEP = true -> d = spoly guess) ->
  grows (search_result guess rflags) rstate0 (dispch guess rstate0 d rflags args).
Proof.
  intros Hl Hp. apply adds_models_grows.
  eapply adds_models_weaken; [|apply dispch_dispatched].
  intros m Hm. exists d. auto.
Qed.

Lemma candidates_divisors guess qpoly rflags args rf f0 qq :
  loop_entry guess qpoly rflags args = Some (rf, f0, qq) ->
  Forall (fun c => plen (trial_divisor rf (modpol (init guess) rflags args) c)
                   = plen (spoly guess))
         (candidates guess qpoly rflags args).
Proof.
  intros He. unfold candidates. rewrite He.
  apply loop_entry_some in He.
  destruct He as (Hp & Hw & Hl & f & Hs & ->).
  pose proof (short_setup_factor _ _ _ _ _ _ _ Hs) as Hf.
  apply short_setup_flags in Hs. destruct Hs as (_ & _ & Hsh & _).
  set (D := modpol (init guess) rflags args) in *.
  apply Forall_forall. intros c Hc.
  apply trial_factors_range in Hc. destruct Hc as (Hc & _).
  assert (Hf0 : plen f <> 0) by (destruct (plen D <=? _) eqn:E;
    [apply Nat.leb_le in E|]; lia).
  destruct (pshift_clear_low f Hf0) as (Hlen & _). rewrite Hlen in Hc.
  rewrite plen_trial_divisor, Hsh, Hc, Hf.
  - destruct (plen D <=? _) eqn:E; [apply Nat.leb_le in E|]; lia.
  - rewrite Hc, Hf. destruct (plen D <=? _) eqn:E;
      [apply Nat.leb_le in E | apply Nat.leb_gt in E]; lia.
Qed.

Lemma reveng_grows ub sm guess qpoly rflags args :
  exists st,
    reveng ub sm guess qpoly rflags args = requit st
    /\ grows (search_result guess rflags) rstate0 st.
Proof.
  destruct (loop_entry guess qpoly rflags args) as [[[rf f0] qq]|] eqn:He.
  - eexists. split; [eapply reveng_loop, He|].
    pose proof (candidates_divisors _ _ _ _ _ _ _ He) as Hc.
    apply loop_entry_some in He.
    destruct He as (Hp & _ & _ & f & Hs & _).
    apply short_setup_flags in Hs. destruct Hs as (Hi & Hx & _).
    apply (fold_trial_grows ub sm guess rflags rf _ args Hi Hx Hp _ (loop_start f0) Hc).
  - unfold loop_entry in He. unfold reveng.
    destruct (flag_set rflags R_HAVEP) eqn:Hp.
    { eexists. split; [reflexivity|]. now apply dispch_search_result. }
    destruct (plen (spoly guess) =? 0) eqn:Hw.
    { eexists. split; [reflexivity | apply grows_refl]. }
    cbv zeta in *.
    destruct (_ <? _) eqn:E1.
    { eexists. split; [reflexivity | apply grows_refl]. }
    destruct (plen (modpol _ _ _) =? _) eqn:E2.
    { eexists. split; [reflexivity|]. apply dispch_search_result.
      - apply Nat.eqb_eq in E2. unfold pclone. rewrite pshift_chop.
        unfold plen in *. destruct (modpol _ _ _); simpl in *; lia.
      - congruence. }
    apply Nat.ltb_ge in E1. apply Nat.eqb_neq in E2.
    replace (_ <=? _) with false in He by (symmetry; apply Nat.leb_gt; lia).
    unfold enumerate, pclone.
    destruct (short_setup _ _ _ _) as [[[rf f] q]|]; [discriminate|].
    eexists. split; [reflexivity | apply grows_refl].
Qed.

Lemma removelast_snoc {A : Type} (l : list A) x : removelast (l ++ [x]) = l.
Proof. apply removelast_last. Qed.

Lemma found_requit st : found (requit st) = result st.
Proof. unfold found, requit. cbn [fst]. apply removelast_snoc. Qed.

(** X1.  The array that [reveng] returns is the models it found followed by
    the terminating entry, and every model in it has a polynomial of the
    width of the guess. *)
Theorem result_array_shape ub sm guess qpoly rflags args :
  exists ms,
    fst (reveng ub sm guess qpoly rflags args) = ms ++ [sentinel]
    /\ Forall (fun m => plen (spoly m) = plen (spoly guess)) ms.
Proof.
  destruct (reveng_grows ub sm guess qpoly rflags args) as (st & -> & ms & Hr & _ & HP).
  exists ms. unfold requit. cbn [fst]. rewrite Hr. split; [reflexivity|].
  eapply Forall_impl; [|exact HP].
  intros m (d & (i & xo & -> & _) & Hd & _). exact Hd.
Qed.

(** X2.  [ufound] is called once for every model of the result and in the
    order of the array: the models handed to the callback are the models
    returned. *)
Theorem every_model_reported ub sm guess qpoly rflags args :
  ufound_models (snd (reveng ub sm guess qpoly rflags args))
  = found (reveng ub sm guess qpoly rflags args).
Proof.
  destruct (reveng_grows ub sm guess qpoly rflags args) as (st & -> & ms & Hr & Ht & _).
  rewrite found_requit. unfold requit. cbn [snd].
  rewrite Ht, Hr. reflexivity.
Qed.

(** X3.  Every model returned has the flags of the guess and no name, and
    it has the Poly, the Init and the XorOut of the guess wherever that
    parameter is given ([R_HAVEP], [R_HAVEI], [R_HAVEX]). *)
Theorem given_parameters_kept ub sm guess qpoly rflags args :
  Forall (fun m =>
            flags m = flags guess /\ name m = None
            /\ (flag_set rflags R_HAVEP = true -> spoly m = spoly guess)
            /\ (flag_set rflags R_HAVEI = true -> init m = init guess)
            /\ (flag_set rflags R_HAVEX = true -> xorout m = xorout guess))
         (found (reveng ub sm guess qpoly rflags args)).
Proof.
  destruct (reveng_grows ub sm guess qpoly rflags args) as (st & -> & ms & Hr & _ & HP).
  rewrite found_requit, Hr. cbn [rstate0 result app].
  eapply Forall_impl; [|exact HP].
  intros m (d & (i & xo & -> & Hi & Hx) & _ & Hp).
  cbn [candidate mcheck flags name spoly init xorout].
  repeat split; auto.
Qed.

Lemma modpol_few init rflags args : length args < 2 -> modpol init rflags args = pzero.
Proof. intros H. unfold modpol. apply Nat.ltb_lt in H. now rewrite H. Qed.

(** X4.  Without a given polynomial a search over fewer than two samples
    returns no model and makes no callback. *)
Theorem search_needs_two_samples ub sm guess qpoly rflags args :
  flag_set rflags R_HAVEP = false ->
  length args < 2 ->
  reveng ub sm guess qpoly rflags args = ([sentinel], []).
Proof.
  intros Hp Hl. apply reveng_too_short; [exact Hp|].
  rewrite modpol_few by exact Hl. simpl. lia.
Qed.

Lemma search_needs_two_samples_witness :
  reveng 64 3 (guess3 "000") pzero R_HAVEI [bits "1011"] = ([sentinel], []).
Proof.
  apply search_needs_two_samples; [reflexivity | simpl; lia].
Defined.

(** X5.  Without samples [reveng] returns no model and makes no callback
    when the polynomial is not given, or when exactly one of Init and XorOut
    is given: [modpol] has no pair to take a difference of, and [calout] and
    [calini] return at once. *)
Theorem no_samples_no_model ub sm guess qpoly rflags :
  flag_set rflags R_HAVEP = false
  \/ flag_set rflags R_HAVEI = negb (flag_set rflags R_HAVEX) ->
  reveng ub sm guess qpoly rflags [] = ([sentinel], []).
Proof.
  intros H. destruct (flag_set rflags R_HAVEP) eqn:Hp.
  - destruct H as [H|H]; [discriminate|].
    rewrite reveng_have_poly by exact Hp. unfold dispch. rewrite H.
    destruct (flag_set rflags R_HAVEX); reflexivity.
  - apply reveng_too_short; [exact Hp|]. simpl. lia.
Qed.

Lemma no_samples_no_model_witness :
  reveng 64 3 (guess3 "011") pzero (R_HAVEP + R_HAVEI) [] = ([sentinel], []).
Proof. apply no_samples_no_model. right. reflexivity. Defined.

Lemma xor_into_nil reg : xor_into reg [] = reg.
Proof. destruct reg; reflexivity. Qed.

Lemma pcrc_xorout message divisor init xorout fl :
  pcrc message divisor init xorout fl
  = xor_into (pcrc message divisor init pzero fl) xorout.
Proof.
  unfold pcrc, pcrc_quot.
  destruct (fold_left _ _ _) as [reg q]. cbn [fst]. now rewrite xor_into_nil.
Qed.

Lemma xor_into_clear reg : forall x,
  length reg = length x -> ptst (xor_into reg x) = false -> reg = x.
Proof.
  induction reg as [|r reg IH]; intros [|b x] Hl H; try discriminate; [reflexivity|].
  cbn [xor_into ptst existsb] in H. apply orb_false_iff in H. destruct H as [H1 H2].
  f_equal; [destruct r, b; simpl in *; congruence|].
  apply IH; [simpl in Hl; lia | exact H2].
Qed.

Lemma xor_into_self reg : ptst (xor_into reg reg) = false.
Proof.
  induction reg as [|r reg IH]; [reflexivity|].
  cbn [xor_into ptst existsb]. rewrite xorb_nilpotent. exact IH.
Qed.

Lemma chkres_loop_all divisor init xor args :
  Forall (fun s => ptst (pcrc s divisor init xor 0) = false) args ->
  chkres_loop divisor init xor args = true.
Proof.
  induction 1 as [|a args Ha _ IH]; [reflexivity|].
  cbn [chkres_loop]. now rewrite Ha.
Qed.

Lemma shortest_in rest : forall best, In (shortest best rest) (best :: rest).
Proof.
  induction rest as [|p rest IH]; intros best; [now left|].
  cbn [shortest]. destruct (plen p <? plen best).
  - right. apply IH.
  - destruct (IH best) as [H|H]; [now left | right; now right].
Qed.

Lemma shortest_least rest : forall best a,
  In a (best :: rest) -> plen (shortest best rest) <= plen a.
Proof.
  induction rest as [|p rest IH]; intros best a Ha.
  - destruct Ha as [<-|[]]. reflexivity.
  - cbn [shortest]. destruct (plen p <? plen best) eqn:E.
    + apply Nat.ltb_lt in E. destruct Ha as [<-|[<-|Ha]].
      * etransitivity; [apply (IH p p); now left | lia].
      * apply IH. now left.
      * apply IH. now right.
    + apply Nat.ltb_ge in E. destruct Ha as [<-|[<-|Ha]].
      * apply IH. now left.
      * etransitivity; [apply (IH best best); now left | lia].
      * apply IH. now right.
Qed.

Lemma prev_prev p : prev (prev p) = p.
Proof. apply rev_involutive. Qed.

Lemma chkres_passes st divisor init fl xorout args :
  chkres_loop divisor init (if flag_set fl P_REFOUT then prev xorout else xorout) args
  = true ->
  chkres st divisor init fl xorout args
  = {| result := result st ++ [candidate divisor init fl xorout];
       trace := trace st ++ [Ufound (candidate divisor init fl xorout)] |}.
Proof. intros H. unfold chkres, pclone. now rewrite H. Qed.

(** The XorOut that [calout] computes is the only one of the width that the
    first shortest sample admits. *)
Lemma calout_xorout divisor init xo a0 rest :
  plen xo = plen divisor ->
  Forall (fun s => ptst (pcrc s divisor init xo 0) = false) (a0 :: rest) ->
  pcrc (shortest a0 rest) divisor init pzero 0 = xo.
Proof.
  intros Hl Hall.
  rewrite Forall_forall in Hall.
  specialize (Hall _ (shortest_in rest a0)).
  rewrite pcrc_xorout in Hall.
  apply xor_into_clear in Hall; [exact Hall|].
  change (plen (pcrc (shortest a0 rest) divisor init pzero 0) = plen xo).
  now rewrite plen_pcrc.
Qed.

(** X6.  With Poly and Init given and XorOut not, if some XorOut of the
    width makes every sample pass the engine, then [reveng] returns exactly
    one model, the one with that XorOut (stored reflected when [REFOUT] is
    set). *)
Theorem calout_finds_xorout ub sm guess qpoly rflags args xo :
  flag_set rflags R_HAVEP = true ->
  flag_set rflags R_HAVEI = true ->
  flag_set rflags R_HAVEX = false ->
  args <> [] ->
  plen xo = plen (spoly guess) ->
  Forall (fun s => ptst (pcrc s (spoly guess) (init guess) xo 0) = false) args ->
  found (reveng ub sm guess qpoly rflags args)
  = [candidate (spoly guess) (init guess) (flags guess)
               (if flag_set (flags guess) P_REFOUT then prev xo else xo)].
Proof.
  intros Hp Hi Hx Hne Hl Hall.
  rewrite reveng_have_poly, found_requit by exact Hp.
  unfold dispch. rewrite Hi, Hx. cbn [andb].
  destruct args as [|a0 rest]; [congruence|].
  unfold calout. rewrite (calout_xorout _ _ xo) by assumption.
  rewrite chkres_passes; [reflexivity|].
  apply chkres_loop_all.
  destruct (flag_set (flags guess) P_REFOUT); [rewrite prev_prev|]; exact Hall.
Qed.

Lemma calout_finds_xorout_witness :
  found (reveng 64 3 (guess_of "011" "000" "000" 12) pzero (R_HAVEP + R_HAVEI)
                [bits "1011"; bits "1011000"])
  = [candidate (bits "011") (bits "000") 12 (bits "000")].
Proof.
  apply (calout_finds_xorout 64 3 (guess_of "011" "000" "000" 12) pzero
           (R_HAVEP + R_HAVEI) [bits "1011"; bits "1011000"] (bits "000"));
    try reflexivity; [discriminate|].
  repeat constructor.
Defined.

Lemma two_shortest_equal n rest : forall i,
  Forall (fun a => plen a = n) rest ->
  two_shortest i rest 0 n 0 n = (0, n, 0, n).
Proof.
  induction rest as [|p rest IH]; intros i H; [reflexivity|].
  apply Forall_cons_iff in H. destruct H as [Hp Hrest].
  cbn [two_shortest]. rewrite Hp.
  rewrite Nat.ltb_irrefl. cbn [andb]. now apply IH.
Qed.

(** X7.  When all samples have the same length, [engini] does what [calini]
    does for an XorOut of zeros of the width. *)
Theorem engini_equal_lengths st divisor fl args n :
  Forall (fun a => plen a = n) args ->
  engini st divisor fl args = calini st divisor fl (palloc (plen divisor)) args.
Proof.
  intros H. unfold engini.
  destruct args as [|a0 rest]; [reflexivity|].
  apply Forall_cons_iff in H. destruct H as [Ha Hrest].
  cbn [nth tl]. rewrite Ha, (two_shortest_equal n) by assumption.
  reflexivity.
Qed.

Lemma engini_equal_lengths_witness :
  engini rstate0 (bits "011") 12 [bits "1011"; bits "0000"]
  = calini rstate0 (bits "011") 12 (palloc (plen (bits "011")))
           [bits "1011"; bits "0000"].
Proof.
  apply (engini_equal_lengths rstate0 (bits "011") 12 [bits "1011"; bits "0000"] 4).
  repeat constructor.
Defined.

(** With [P_EXHST] in the flags the carry of the solution loop stays set. *)
Lemma solve_rows_exhst bpoly pone fl below : forall apoly apoly' below' cy',
  flag_set fl P_EXHST = true ->
  solve_rows bpoly pone fl below apoly P_EXHST = (apoly', below', cy') ->
  cy' = P_EXHST.
Proof.
  intros apoly apoly' below' cy' Hf.
  assert (Hl : Z.land P_EXHST fl = P_EXHST).
  { unfold flag_set in Hf. apply negb_true_iff, Z.eqb_neq in Hf.
    change P_EXHST with (2 ^ 8)%Z in *.
    rewrite Z.land_comm.
    destruct (Z.testbit fl 8) eqn:E.
    - apply Z.bits_inj'. intros k Hk. rewrite Z.land_spec.
      destruct (Z.eq_dec k 8) as [->|Hne].
      + now rewrite E, Z.pow2_bits_true.
      + rewrite Z.pow2_bits_false by lia. apply andb_false_r.
    - exfalso. apply Hf. apply Z.bits_inj'. intros k Hk.
      rewrite Z.land_spec, Z.bits_0.
      destruct (Z.eq_dec k 8) as [->|Hne].
      + now rewrite E.
      + rewrite Z.pow2_bits_false by lia. apply andb_false_r. }
  revert apoly apoly' below' cy'.
  induction below as [|r rest IH]; intros apoly apoly' below' cy' H.
  - inversion H. reflexivity.
  - cbn [solve_rows] in H.
    change (P_EXHST =? 0)%Z with false in H.
    destruct r; cbn iota in H; rewrite ?Hl in H;
      match type of H with
      | context [solve_rows ?b ?p ?f ?l ?a ?c] =>
          destruct (solve_rows b p f l a c) as [[a1 b1] c1] eqn:E
      end;
      inversion H; subst; eapply IH; exact E.
Qed.

Lemma solutions_exhst fuel st divisor bpoly pone fl args rows st' :
  flag_set fl P_EXHST = true ->
  solutions fuel st divisor bpoly pone fl args rows = Some st' ->
  exists i, st' = calout st divisor i fl args.
Proof.
  intros Hf H. destruct fuel as [|fuel]; [discriminate|].
  cbn [solutions] in H.
  destruct (solve_rows _ _ _ _ _ _) as [[apoly below] cy] eqn:E.
  apply solve_rows_exhst in E; [|exact Hf]. subst cy.
  change (P_EXHST =? 0)%Z with false in H. inversion H. eauto.
Qed.


Lemma chkres_at_most_one st divisor init fl xorout args :
  at_most_one st (chkres st divisor init fl xorout args).
Proof.
  unfold chkres. destruct (chkres_loop _ _ _ _).
  - eexists [_]. cbn [result]. split; [reflexivity | simpl; lia].
  - exists []. rewrite app_nil_r. split; [reflexivity | simpl; lia].
Qed.

Lemma calout_at_most_one st divisor init fl args :
  at_most_one st (calout st divisor init fl args).
Proof.
  unfold calout. destruct args; [|apply chkres_at_most_one].
  exists []. rewrite app_nil_r. split; [reflexivity | simpl; lia].
Qed.

Lemma calini_at_most_one st divisor fl xorout args :
  at_most_one st (calini st divisor fl xorout args).
Proof.
  unfold calini. destruct args; [|apply chkres_at_most_one].
  exists []. rewrite app_nil_r. split; [reflexivity | simpl; lia].
Qed.

Lemma engini_exhst st divisor fl args :
  flag_set fl P_EXHST = true -> at_most_one st (engini st divisor fl args).
Proof.
  intros Hf. unfold engini.
  destruct (two_shortest _ _ _ _ _ _) as [[[aptr alen] bptr] blen].
  destruct (aptr =? bptr); [apply calini_at_most_one|].
  destruct (solutions _ _ _ _ _ _ _ _) eqn:E.
  - apply solutions_exhst in E; [|exact Hf]. destruct E as (i & ->).
    apply calout_at_most_one.
  - exists []. rewrite app_nil_r. split; [reflexivity | simpl; lia].
Qed.

(** X8.  With the polynomial given, [reveng] returns at most one model when
    Init or XorOut is given or [P_EXHST] is set in the flags of the guess. *)
Theorem one_model_per_polynomial ub sm guess qpoly rflags args :
  flag_set rflags R_HAVEP = true ->
  flag_set rflags R_HAVEI || flag_set rflags R_HAVEX
  || flag_set (flags guess) P_EXHST = true ->
  length (found (reveng ub sm guess qpoly rflags args)) <= 1.
Proof.
  intros Hp H. rewrite reveng_have_poly, found_requit by exact Hp.
  assert (Ho : at_most_one rstate0 (dispch guess rstate0 (spoly guess) rflags args)).
  { unfold dispch.
    destruct (flag_set rflags R_HAVEI) eqn:Hi, (flag_set rflags R_HAVEX) eqn:Hx;
      cbn [andb orb] in *.
    - apply chkres_at_most_one.
    - apply calout_at_most_one.
    - apply calini_at_most_one.
    - now apply engini_exhst. }
  destruct Ho as (ms & -> & Hl). exact Hl.
Qed.

Lemma one_model_per_polynomial_witness :
  length (found (reveng 64 3 (guess_of "011" "000" "000" (P_EXHST + P_MULXN)) pzero
                        R_HAVEP [bits "1011"; bits "1011000"])) <= 1.
Proof.
  apply one_model_per_polynomial; reflexivity.
Defined.


Lemma drop_zeros_head l : drop_zeros l = [] \/ hd false (drop_zeros l) = true.
Proof.
  induction l as [|[|] l IH]; simpl; auto.
Qed.

Lemma last_rev {A : Type} (l : list A) d : last (rev l) d = hd d l.
Proof.
  destruct l as [|a l]; [reflexivity|]. simpl. apply last_last.
Qed.

Lemma normal_pnorm p : normal (pnorm p).
Proof.
  unfold normal, pnorm.
  destruct (drop_zeros_head (rev p)) as [->|H]; [now left|].
  right. now rewrite last_rev.
Qed.

Lemma gcd_loop_normal fuel : forall gcd work r,
  normal gcd -> normal work ->
  gcd_loop fuel gcd work = Some r -> normal r.
Proof.
  induction fuel as [|fuel IH]; intros gcd work r Hg Hw H; [discriminate|].
  cbn [gcd_loop] in H.
  destruct (plen gcd <? plen work).
  - destruct (plen (pnorm (pmod work gcd)) =? 0).
    + now inversion H; subst.
    + eapply IH; [| |exact H]; [assumption | apply normal_pnorm].
  - destruct (plen (pnorm (pmod gcd work)) =? 0).
    + now inversion H; subst.
    + eapply IH; [| |exact H]; [assumption | apply normal_pnorm].
Qed.

Lemma merge_work_normal acc d : normal (fst acc) -> normal (fst (merge_work acc d)).
Proof.
  destruct acc as [gcd nogcd]. intros Hg. rewrite merge_work_eq.
  destruct (plen (pnorm d) =? 0); [exact Hg|].
  destruct (negb _); [apply normal_pnorm|].
  destruct (gcd_loop _ _ _) eqn:E; [|exact Hg].
  cbn [fst] in *. eapply gcd_loop_normal; [| |exact E]; [assumption | apply normal_pnorm].
Qed.

Lemma merge_fold_normal ds : forall acc,
  normal (fst acc) -> normal (fst (fold_left merge_work ds acc)).
Proof.
  induction ds as [|d ds IH]; intros acc H; [exact H|].
  cbn [fold_left]. apply IH. now apply merge_work_normal.
Qed.

(** X9.  The polynomial that [modpol] returns is normalised: it is the zero
    polynomial or its lowest coefficient is set. *)
Theorem modpol_normalised init rflags args :
  modpol init rflags args = pzero
  \/ last (modpol init rflags args) false = true.
Proof.
  unfold modpol. destruct (length args <? 2); [now left|].
  rewrite modpol_outer_fold. apply merge_fold_normal. now left.
Qed.

(** *** Samples of pairwise different lengths *)

Lemma merge_work_zero acc : merge_work acc pzero = acc.
Proof. destruct acc. reflexivity. Qed.

Lemma merge_fold_zeros ds : forall acc,
  Forall (fun d => d = pzero) ds -> fold_left merge_work ds acc = acc.
Proof.
  induction ds as [|d ds IH]; intros acc H; [reflexivity|].
  apply Forall_cons_iff in H. destruct H as [-> H].
  cbn [fold_left]. rewrite merge_work_zero. now apply IH.
Qed.

Lemma difference_lengths init rflags a b :
  flag_set rflags R_HAVEI = false -> plen a <> plen b ->
  difference init rflags a b = pzero.
Proof.
  intros Hi Hl. unfold difference. rewrite Hi. cbn [andb].
  apply Nat.eqb_neq in Hl. now rewrite Hl.
Qed.

Lemma all_pairs_lengths (args : list poly_t) :
  NoDup (map plen args) ->
  Forall (fun ab => plen (fst ab) <> plen (snd ab)) (all_pairs args).
Proof.
  induction args as [|a rest IH]; intros H; [constructor|].
  cbn [map] in H. apply NoDup_cons_iff in H. destruct H as [Hn Hd].
  cbn [all_pairs]. apply Forall_app. split; [|now apply IH].
  apply Forall_forall. intros [x y] Hin.
  apply in_map_iff in Hin. destruct Hin as (b & Heq & Hb).
  inversion Heq; subst. cbn [fst snd]. intros Hl.
  apply Hn. rewrite Hl. now apply in_map.
Qed.

(** X10.  With neither the polynomial nor Init given, samples of which no
    two have the same length give no model: [reveng] returns the terminating
    entry only and makes no callback. *)
Theorem unequal_lengths_need_init ub sm guess qpoly rflags args :
  flag_set rflags R_HAVEP = false ->
  flag_set rflags R_HAVEI = false ->
  NoDup (map plen args) ->
  reveng ub sm guess qpoly rflags args = ([sentinel], []).
Proof.
  intros Hp Hi Hd. apply reveng_too_short; [exact Hp|].
  assert (Hm : modpol (init guess) rflags args = pzero).
  { unfold modpol. destruct (length args <? 2); [reflexivity|].
    rewrite modpol_outer_fold, merge_fold_zeros; [reflexivity|].
    apply Forall_map.
    eapply Forall_impl; [|apply all_pairs_lengths, Hd].
    intros [a b] Hl. now apply difference_lengths. }
  rewrite Hm. simpl. lia.
Qed.

Lemma unequal_lengths_need_init_witness :
  reveng 64 3 (guess3 "000") pzero R_HAVEX
         [bits "1011"; bits "1011000"; bits "11101"] = ([sentinel], []).
Proof.
  apply unequal_lengths_need_init; try reflexivity.
  repeat constructor; simpl; intuition discriminate.
Defined.

Lemma pval_snoc l b : pval (l ++ [b]) = (2 * pval l + (if b then 1 else 0))%Z.
Proof.
  induction l as [|x l IH]; [destruct b; reflexivity|].
  cbn [app pval]. rewrite IH, length_app. cbn [length].
  rewrite Nat.add_1_r, Nat2Z.inj_succ, Z.pow_succ_r by lia.
  destruct x; lia.
Qed.

Lemma pval_clear_low p :
  Z.even (pval (pshift p 0 0 (plen p - 1) 1)) = true.
Proof.
  unfold pshift. cbn [repeat app]. rewrite pval_snoc.
  rewrite Z.add_0_r, Z.even_mul. reflexivity.
Qed.

Section Order.

Variables (rf : Z) (qq : poly_t).

Lemma trial_factors_nth fuel : forall f i c,
  Z.even (pval f) = true ->
  nth_error (trial_factors fuel rf qq f) i = Some c ->
  plen c = plen f /\ pval c = (pval f + 2 * Z.of_nat i + 1)%Z.
Proof.
  induction fuel as [|fuel IH]; intros f i c Hev H; [destruct i; discriminate|].
  cbn [trial_factors] in H.
  destruct (piter f) as [c1 more] eqn:E1.
  destruct more; [|destruct i; discriminate].
  destruct (_ || _); [|destruct i; discriminate].
  destruct (piter_more _ _ E1) as (Hl1 & Hc1).
  destruct i as [|i].
  - inversion H; subst. split; [exact Hl1 | lia].
  - cbn [nth_error] in H.
    destruct (piter c1) as [c2 more2] eqn:E2.
    destruct (negb more2) eqn:Em; [destruct i; discriminate|].
    apply negb_false_iff in Em. subst more2.
    destruct (piter_more _ _ E2) as (Hl2 & Hv2).
    assert (Hev2 : Z.even (pval c2) = true).
    { rewrite Hv2, Hc1. replace (pval f + 1 + 1)%Z with (pval f + 2)%Z by lia.
      now rewrite Z.even_add, Hev. }
    destruct (IH c2 i c Hev2 H) as (Hl & Hv).
    split; [congruence|]. rewrite Hv, Hv2, Hc1. lia.
Qed.

Hypothesis Hq : flag_set (Z.lnot rf) R_HAVEQ = true.

Lemma trial_factors_count fuel : forall f,
  Z.even (pval f) = true ->
  (2 ^ Z.of_nat (plen f) - pval f <= 2 * Z.of_nat fuel)%Z ->
  (2 * Z.of_nat (length (trial_factors fuel rf qq f))
   = 2 ^ Z.of_nat (plen f) - pval f - (if (plen f =? 0)%nat then 1 else 0))%Z.
Proof.
  induction fuel as [|fuel IH]; intros f Hev Hfuel.
  - pose proof (pval_bounds f). lia.
  - cbn [trial_factors].
    destruct (piter f) as [c1 more] eqn:E1.
    destruct (piter_spec _ _ _ E1) as (Hl1 & Hv1 & Hm1).
    pose proof (pval_bounds f) as Hb.
    destruct (plen f) as [|n] eqn:En.
    { change (2 ^ Z.of_nat 0)%Z with 1%Z in *.
      rewrite Hv1, Z.mod_1_r in Hm1. cbn in Hm1. subst more.
      cbn [andb length Nat.eqb]. lia. }
    assert (Hc1 : pval c1 = (pval f + 1)%Z).
    { rewrite Hv1. apply Z.mod_small.
      rewrite Nat2Z.inj_succ, Z.pow_succ_r in * by lia.
      destruct (proj1 (Z.even_spec _) Hev) as [k Hk]. lia. }
    assert (more = true) as ->.
    { rewrite Hm1, Hc1. apply negb_true_iff, Z.eqb_neq. lia. }
    rewrite Hq. cbn [andb orb length].
    destruct (piter c1) as [c2 more2] eqn:E2.
    destruct (piter_spec _ _ _ E2) as (Hl2 & Hv2 & Hm2).
    rewrite Hl1 in Hl2, Hv2.
    destruct more2; cbn [negb].
    + symmetry in Hm2. apply negb_true_iff, Z.eqb_neq in Hm2.
      assert (Hc2 : pval c2 = (pval f + 2)%Z).
      { rewrite Hv2, Hc1 in *. pose proof (pval_bounds c1) as Hb1.
        rewrite Hl1, Hc1 in Hb1.
        destruct (Z.eq_dec (pval f + 1 + 1) (2 ^ Z.of_nat (S n))) as [Heq|Hne].
        - rewrite Heq, Z.mod_same in Hm2 by lia. congruence.
        - rewrite Z.mod_small by lia. lia. }
      assert (Hev2 : Z.even (pval c2) = true).
      { rewrite Hc2. now rewrite Z.even_add, Hev. }
      specialize (IH c2 Hev2). rewrite Hl2 in IH. cbn [Nat.eqb] in IH.
      cbn [Nat.eqb]. rewrite Nat2Z.inj_succ with (n := length _).
      rewrite Hc2 in IH. lia.
    + symmetry in Hm2. apply negb_false_iff, Z.eqb_eq in Hm2.
      rewrite Hv2, Hc1 in Hm2. pose proof (pval_bounds c1) as Hb1.
      rewrite Hl1, Hc1 in Hb1.
      assert (pval f + 1 + 1 = 2 ^ Z.of_nat (S n))%Z.
      { destruct (Z.eq_dec (pval f + 1 + 1) (2 ^ Z.of_nat (S n))) as [Heq|Hne];
          [exact Heq|]. rewrite Z.mod_small in Hm2 by lia. lia. }
      cbn [length Nat.eqb]. lia.
Qed.

End Order.

(** X11.  Where the search loop is entered, the result of [reveng] is that
    of the loop body run on the candidates in turn; the trial factor at
    entry is even; the candidate of index [i] has the length of the entry
    factor and spells its number plus [2 i + 1], so the candidates are the
    odd polynomials above it in ascending order; and without a range end the
    loop tries all of them up to the polynomial of all ones. *)
Theorem enumeration_order ub sm guess qpoly rflags args rf f0 qq :
  loop_entry guess qpoly rflags args = Some (rf, f0, qq) ->
  reveng ub sm guess qpoly rflags args
  = requit (l_st (fold_left (try_factor ub sm guess rf
                               (modpol (init guess) rflags args) args)
                            (candidates guess qpoly rflags args)
                            (loop_start f0)))
  /\ Z.even (pval f0) = true
  /\ (forall i c,
        nth_error (candidates guess qpoly rflags args) i = Some c ->
        plen c = plen f0 /\ pval c = (pval f0 + 2 * Z.of_nat i + 1)%Z)
  /\ (flag_set rf R_HAVEQ = false ->
      (2 * Z.of_nat (length (candidates guess qpoly rflags args))
       = 2 ^ Z.of_nat (plen f0) - pval f0)%Z).
Proof.
  intros He.
  split; [exact (reveng_loop ub sm guess qpoly rflags args rf f0 qq He)|].
  unfold candidates. rewrite He.
  apply loop_entry_some in He.
  destruct He as (Hp & Hw & Hl & f & Hs & ->).
  pose proof (short_setup_factor _ _ _ _ _ _ _ Hs) as Hf.
  assert (Hf0 : plen f <> 0) by (destruct (_ <=? _) eqn:E;
    [apply Nat.leb_le in E|]; lia).
  destruct (pshift_clear_low f Hf0) as (Hlen & _).
  pose proof (pval_clear_low f) as Hev.
  split; [exact Hev|]. split.
  - intros i c. now apply trial_factors_nth.
  - intros Hq.
    rewrite trial_factors_count.
    + rewrite Hlen. apply Nat.eqb_neq in Hf0. rewrite Hf0. lia.
    + flag_bits. now rewrite Hq.
    + exact Hev.
    + rewrite Nat2Z.inj_pow. pose proof (pval_bounds (pshift f 0 0 (plen f - 1) 1)).
      change (Z.of_nat 2) with 2%Z. lia.
Qed.

Lemma enumeration_order_witness :
  reveng 64 3 (guess3 "010") pzero (R_HAVEI + R_HAVEX)
         [bits "1111111"; bits "0000000"]
  = requit (l_st (fold_left
                    (try_factor 64 3 (guess3 "010")
                       (Z.land (R_HAVEI + R_HAVEX) (Z.lnot R_SHORT))
                       (modpol (init (guess3 "010")) (R_HAVEI + R_HAVEX)
                               [bits "1111111"; bits "0000000"])
                       [bits "1111111"; bits "0000000"])
                    (candidates (guess3 "010") pzero (R_HAVEI + R_HAVEX)
                                [bits "1111111"; bits "0000000"])
                    (loop_start (bits "010"))))
  /\ Z.even (pval (bits "010")) = true
  /\ (forall i c,
        nth_error (candidates (guess3 "010") pzero (R_HAVEI + R_HAVEX)
                              [bits "1111111"; bits "0000000"]) i = Some c ->
        plen c = plen (bits "010")
        /\ pval c = (pval (bits "010") + 2 * Z.of_nat i + 1)%Z)
  /\ (flag_set (Z.land (R_HAVEI + R_HAVEX) (Z.lnot R_SHORT)) R_HAVEQ = false ->
      (2 * Z.of_nat (length (candidates (guess3 "010") pzero (R_HAVEI + R_HAVEX)
                                        [bits "1111111"; bits "0000000"]))
       = 2 ^ Z.of_nat (plen (bits "010")) - pval (bits "010"))%Z).
Proof.
  apply (enumeration_order 64 3 (guess3 "010") pzero (R_HAVEI + R_HAVEX)
           [bits "1111111"; bits "0000000"]
           (Z.land (R_HAVEI + R_HAVEX) (Z.lnot R_SHORT)) (bits "010") pzero).
  reflexivity.
Defined.

(** *** The order of the models *)


Lemma trial_factors_sorted rf qq fuel : forall f,
  StronglySorted (fun a b => (pval a <= pval b)%Z) (trial_factors fuel rf qq f).
Proof.
  induction fuel as [|fuel IH]; intros f; [constructor|].
  cbn [trial_factors].
  destruct (piter f) as [c1 more] eqn:E1.
  destruct (more && _); [|constructor].
  destruct (piter c1) as [c2 more2] eqn:E2.
  destruct more2; cbn [negb]; [|repeat constructor].
  constructor; [apply IH|].
  apply Forall_forall. intros c Hc.
  apply trial_factors_range in Hc. destruct Hc as (_ & Hc & _).
  apply piter_more in E2. lia.
Qed.

Lemma sorted_groups c ms1 : forall ms2,
  Forall (fun m => spoly m = c) ms1 ->
  StronglySorted by_poly ms2 ->
  Forall (fun m => (pval c <= pval (spoly m))%Z) ms2 ->
  StronglySorted by_poly (ms1 ++ ms2).
Proof.
  induction ms1 as [|m ms1 IH]; intros ms2 H1 H2 H3; [exact H2|].
  apply Forall_cons_iff in H1. destruct H1 as [Hm H1].
  cbn [app]. constructor; [now apply IH|].
  apply Forall_app. split.
  - eapply Forall_impl; [|exact H1]. intros a Ha. unfold by_poly. rewrite Hm, Ha. lia.
  - eapply Forall_impl; [|exact H3]. intros a Ha. unfold by_poly. now rewrite Hm.
Qed.

Section Sorted.

Variables (ub sm : Z) (guess : model_t) (rf : Z) (pwork : poly_t)
          (args : list poly_t).

Hypothesis Hs : flag_set rf R_SHORT = false.

Let trial := try_factor ub sm guess rf pwork args.

Lemma fold_trial_sorted l : forall ls,
  StronglySorted (fun a b => (pval a <= pval b)%Z) l ->
  exists ms, result (l_st (fold_left trial l ls)) = result (l_st ls) ++ ms
             /\ StronglySorted by_poly ms
             /\ Forall (fun m => In (spoly m) l) ms.
Proof.
  induction l as [|c l IH]; intros ls Hl.
  - exists []. rewrite app_nil_r. repeat split; constructor.
  - cbn [fold_left]. inversion Hl as [|? ? Hl' Hc]; subst.
    destruct (IH (trial ls c) Hl') as (ms2 & H2 & S2 & P2).
    destruct (try_factor_result ub sm guess rf pwork args ls c Hs) as (ms1 & H1 & P1).
    exists (ms1 ++ ms2). fold trial in H1. rewrite H2, H1, app_assoc.
    split; [reflexivity|]. split.
    + apply (sorted_groups c); [exact P1 | exact S2 |].
      eapply Forall_impl; [|exact P2]. intros m Hm.
      rewrite Forall_forall in Hc. now apply Hc.
    + apply Forall_app. split.
      * eapply Forall_impl; [|exact P1]. intros m ->. now left.
      * eapply Forall_impl; [|exact P2]. intros m Hm. now right.
Qed.

End Sorted.

(** X12.  In the full-width search (no polynomial given, the GCD of the
    differences longer than twice the width) the models are returned in
    ascending order of the number that their polynomial spells. *)
Theorem models_in_ascending_order ub sm guess qpoly rflags args :
  flag_set rflags R_HAVEP = false ->
  2 * plen (spoly guess) < plen (modpol (init guess) rflags args) ->
  StronglySorted by_poly (found (reveng ub sm guess qpoly rflags args)).
Proof.
  intros Hp Hl.
  destruct (loop_entry guess qpoly rflags args) as [[[rf f0] qq]|] eqn:He.
  - rewrite (reveng_loop _ _ _ _ _ _ _ _ _ He), found_requit.
    unfold candidates. rewrite He.
    apply loop_entry_some in He. destruct He as (_ & _ & _ & f & Hs & _).
    apply short_setup_flags in Hs. destruct Hs as (_ & _ & Hsh & _).
    apply Nat.leb_gt in Hl. rewrite Hl in Hsh.
    edestruct (fold_trial_sorted ub sm guess rf
                 (modpol (init guess) rflags args) args Hsh) as (ms & -> & Hms & _).
    + apply trial_factors_sorted.
    + exact Hms.
  - unfold loop_entry in He. rewrite Hp in He.
    destruct (plen (spoly guess) =? 0) eqn:Hw.
    + unfold reveng. rewrite Hp, Hw. constructor.
    + cbv zeta in He. apply Nat.eqb_neq in Hw.
      replace (_ <=? _) with false in He by (symmetry; apply Nat.leb_gt; lia).
      rewrite short_setup_full in He by exact Hl. discriminate.
Qed.

Lemma models_in_ascending_order_witness :
  StronglySorted by_poly
    (found (reveng 64 3 (guess3 "000") pzero (R_HAVEI + R_HAVEX)
                   [bits "1111111"; bits "0000000"])).
Proof.
  apply models_in_ascending_order; [reflexivity | simpl; lia].
Defined.


Import File.

(** *** Bits *)


Lemma low_clear_mod j b : (0 <= j)%Z -> low_clear j b -> (b mod 2 ^ j = 0)%Z.
Proof.
  intros Hj H. apply Z.bits_inj'. intros i Hi. rewrite Z.bits_0.
  destruct (Z.lt_ge_cases i j).
  - rewrite Z.mod_pow2_bits_low by lia. apply H. lia.
  - apply Z.mod_pow2_bits_high. lia.
Qed.

Lemma bits_below n x :
  (0 <= n)%Z -> (0 <= x)%Z ->
  (forall i, (n <= i)%Z -> Z.testbit x i = false) -> (x < 2 ^ n)%Z.
Proof.
  intros Hn Hx H.
  destruct (Z.eq_dec x 0) as [->|Hne]; [apply Z.pow_pos_nonneg; lia|].
  destruct (Z.lt_ge_cases x (2 ^ n)) as [|Hge]; [assumption|exfalso].
  assert (Hlog : (n <= Z.log2 x)%Z) by (apply Z.log2_le_pow2; lia).
  specialize (H _ Hlog). rewrite Z.bit_log2 in H by lia. discriminate.
Qed.

Lemma testbit_ge k x : (0 <= k)%Z -> (0 <= x)%Z -> Z.testbit x k = true -> (2 ^ k <= x)%Z.
Proof.
  intros Hk Hx H.
  destruct (Z.lt_ge_cases x (2 ^ k)) as [Hlt|]; [exfalso|assumption].
  destruct (Z.eq_dec x 0) as [->|Hne]; [rewrite Z.bits_0 in H; discriminate|].
  rewrite Z.bits_above_log2 in H; [discriminate | lia |].
  apply Z.log2_lt_pow2; lia.
Qed.

Lemma land_bounds a b : (0 <= a)%Z -> (0 <= Z.land a b <= a)%Z.
Proof.
  intros Ha. apply Z.ldiff_le; [exact Ha|].
  apply Z.bits_inj'. intros i Hi.
  rewrite Z.ldiff_spec, Z.land_spec, Z.bits_0.
  destruct (Z.testbit a i), (Z.testbit b i); reflexivity.
Qed.

Section ClearLowest.

Variable b : Z.
Hypothesis Hb : (0 < b)%Z.

Let k := Z.log2 b.
Let b' := Z.land b (b - 1).

Lemma clear_lowest_bounds : (0 <= b' < b)%Z.
Proof.
  pose proof (land_bounds (b - 1) b ltac:(lia)) as H.
  unfold b'. rewrite Z.land_comm. lia.
Qed.

Lemma clear_lowest_zero : b' = 0%Z -> b = (2 ^ k)%Z.
Proof.
  intros H0.
  pose proof (Z.log2_spec b Hb) as Hs. fold k in Hs.
  destruct (Z.eq_dec b (2 ^ k)) as [|Hne]; [assumption|exfalso].
  assert (Hk : (0 <= k)%Z) by apply Z.log2_nonneg.
  assert (H1 : Z.testbit b k = true) by (apply Z.bit_log2; lia).
  assert (H2 : Z.testbit (b - 1) k = true).
  { replace k with (Z.log2 (b - 1)); [apply Z.bit_log2; lia|].
    apply Z.log2_unique; lia. }
  assert (H3 : Z.testbit b' k = true) by (unfold b'; now rewrite Z.land_spec, H1, H2).
  rewrite H0, Z.bits_0 in H3. discriminate.
Qed.

Lemma clear_lowest_log2 : b' <> 0%Z -> Z.log2 b' = k.
Proof.
  intros Hne.
  pose proof (Z.log2_spec b Hb) as Hs. fold k in Hs.
  pose proof clear_lowest_bounds as Hbd.
  assert (Hk : (0 <= k)%Z) by apply Z.log2_nonneg.
  assert (Hgt : b <> (2 ^ k)%Z).
  { intros Heq. apply Hne. unfold b'. rewrite Heq.
    apply Z.bits_inj'. intros i Hi. rewrite Z.land_spec, Z.bits_0.
    destruct (Z.eq_dec i k) as [->|Hik].
    - replace (2 ^ k - 1)%Z with (Z.ones k) by (rewrite Z.ones_equiv; lia).
      rewrite Z.ones_spec_high by lia. apply andb_false_r.
    - rewrite Z.pow2_bits_false by lia. reflexivity. }
  assert (H1 : Z.testbit b k = true) by (apply Z.bit_log2; lia).
  assert (H2 : Z.testbit (b - 1) k = true).
  { replace k with (Z.log2 (b - 1)); [apply Z.bit_log2; lia|].
    apply Z.log2_unique; lia. }
  assert (H3 : Z.testbit b' k = true) by (unfold b'; now rewrite Z.land_spec, H1, H2).
  apply testbit_ge in H3; [|lia|lia].
  apply Z.log2_unique; lia.
Qed.

Lemma clear_lowest_low j : (0 <= j)%Z -> low_clear j b -> low_clear (j + 1) b'.
Proof.
  intros Hj Hl i Hi. unfold b'. rewrite Z.land_spec.
  destruct (Z.eq_dec i j) as [->|Hij]; [|rewrite Hl by lia; reflexivity].
  destruct (Z.testbit b j) eqn:E; [|reflexivity]. cbn [andb].
  pose proof (low_clear_mod j b Hj Hl) as Hm.
  pose proof (Z.div_mod b (2 ^ j) ltac:(apply Z.pow_nonzero; lia)) as Hd.
  rewrite Hm, Z.add_0_r in Hd.
  assert (Hp : (0 < 2 ^ j)%Z) by (apply Z.pow_pos_nonneg; lia).
  assert (Hq : ((b - 1) / 2 ^ j = b / 2 ^ j - 1)%Z).
  { symmetry. apply (Z.div_unique_pos _ _ _ (2 ^ j - 1)); [lia|].
    rewrite Hd at 1. ring. }
  rewrite Z.testbit_odd, Z.shiftr_div_pow2 in E |- * by lia.
  rewrite Hq, Z.odd_sub, E. reflexivity.
Qed.

End ClearLowest.


Lemma top_bit_spec ub fuel : forall b j,
  (0 <= j)%Z -> (0 < b < 2 ^ ub)%Z -> low_clear j b ->
  (ub <= j + Z.of_nat fuel)%Z ->
  top_bit ub fuel b = Some (2 ^ Z.log2 b)%Z.
Proof.
  assert (Hub : forall b, (0 < b < 2 ^ ub)%Z -> (0 <= ub)%Z).
  { intros b Hb. destruct (Z.lt_ge_cases ub 0) as [Hn|]; [|assumption].
    rewrite Z.pow_neg_r in Hb by assumption. lia. }
  induction fuel as [|fuel IH]; intros b j Hj Hb Hl Hf.
  - exfalso. pose proof (Hub b Hb) as H0.
    assert (Hm : (b mod 2 ^ ub = 0)%Z).
    { apply low_clear_mod; [assumption|]. intros i Hi. apply Hl. lia. }
    rewrite Z.mod_small in Hm by lia. lia.
  - cbn [top_bit]. rewrite (Z.mod_small (b - 1)) by lia.
    pose proof (clear_lowest_bounds b ltac:(lia)) as Hbd.
    destruct (Z.land b (b - 1) =? 0)%Z eqn:E.
    + apply Z.eqb_eq in E. f_equal. apply clear_lowest_zero; [lia | exact E].
    + apply Z.eqb_neq in E.
      assert (Hl' : low_clear (j + 1) (Z.land b (b - 1)))
        by (apply clear_lowest_low; (lia || assumption)).
      rewrite (IH (Z.land b (b - 1)) (j + 1)%Z ltac:(lia) ltac:(lia) Hl' ltac:(lia)).
      now rewrite clear_lowest_log2 by (lia || assumption).
Qed.

Lemma top_of_total ub total :
  (0 < total < 2 ^ ub)%Z ->
  let b := Z.land total (ulong_not ub (Z.shiftr total 1)) in
  (0 < b < 2 ^ ub)%Z /\ Z.log2 b = Z.log2 total.
Proof.
  intros Ht b.
  pose proof (Z.log2_spec total ltac:(lia)) as Hs.
  set (k := Z.log2 total) in *.
  assert (Hk : (0 <= k)%Z) by apply Z.log2_nonneg.
  assert (Hku : (k < ub)%Z) by (apply Z.log2_lt_pow2; lia).
  pose proof (land_bounds total (ulong_not ub (Z.shiftr total 1)) ltac:(lia)) as Hbd.
  fold b in Hbd.
  assert (Hbit : Z.testbit b k = true).
  { unfold b, ulong_not. rewrite Z.land_spec, Z.mod_pow2_bits_low by lia.
    rewrite Z.lnot_spec, Z.shiftr_spec by lia.
    rewrite (Z.bits_above_log2 total (k + 1)) by (fold k; lia).
    unfold k. rewrite Z.bit_log2 by lia. reflexivity. }
  apply testbit_ge in Hbit; [|lia|lia].
  split; [lia|]. apply Z.log2_unique; lia.
Qed.

Section Quanta.

Variables (ub total q a0 : Z).
Hypothesis Hq : (0 < q)%Z.
Hypothesis Ha0 : (a0 = 16 * q)%Z.
Hypothesis Htot : (a0 <= total < 2 * a0)%Z.
Hypothesis Hub : (2 * a0 <= 2 ^ ub)%Z.

Lemma add_quanta_spec fuel : forall i,
  (0 <= i <= 16)%Z -> Z.of_nat fuel = (17 - i)%Z ->
  (a0 + i * q < 2 ^ ub)%Z ->
  (a0 + i * q - q < total)%Z ->
  exists a', add_quanta ub fuel (a0 + i * q) q total = Some a'
    /\ ((a' = 0%Z /\ (2 ^ ub - q < total)%Z)
        \/ ((total <= a' < total + q)%Z /\ (a' < 2 ^ ub)%Z /\ a' <> 0%Z)).
Proof.
  induction fuel as [|fuel IH]; intros i Hi Hf Hlt Hprev; [lia|].
  cbn [add_quanta].
  replace (a0 + i * q =? 0)%Z with false by (symmetry; apply Z.eqb_neq; nia).
  cbn [negb andb].
  destruct (a0 + i * q <? total)%Z eqn:E.
  - apply Z.ltb_lt in E.
    assert (Hi16 : (i < 16)%Z) by nia.
    destruct (Z.eq_dec (a0 + i * q + q) (2 ^ ub)) as [Heq|Hne].
    + rewrite Heq, Z.mod_same by lia.
      destruct fuel as [|fuel]; [lia|]. cbn [add_quanta Z.eqb negb andb].
      exists 0%Z. split; [reflexivity|]. left. split; [reflexivity | lia].
    + assert (Hsm : (a0 + i * q + q < 2 ^ ub)%Z) by nia.
      rewrite Z.mod_small by nia.
      replace (a0 + i * q + q)%Z with (a0 + (i + 1) * q)%Z by ring.
      apply IH; try lia; nia.
  - apply Z.ltb_ge in E. eexists. split; [reflexivity|].
    right. repeat split; nia.
Qed.

End Quanta.

(** What one growth of the buffer of [rdpoly] gives. *)
Lemma grow_spec ub total :
  (0 < total < 2 ^ ub)%Z ->
  exists a, grow ub total = Some a
            /\ (total <= a < 2 ^ ub)%Z
            /\ (16 * (a - total) <= total)%Z.
Proof.
  intros Ht. unfold grow.
  destruct (top_of_total ub total Ht) as (Hb & Hlog).
  set (b := Z.land total _) in *.
  assert (Hub : (0 <= ub)%Z).
  { destruct (Z.lt_ge_cases ub 0) as [Hn|]; [|assumption].
    rewrite Z.pow_neg_r in Ht by assumption. lia. }
  rewrite (top_bit_spec ub (Z.to_nat ub) b 0%Z ltac:(lia) Hb ltac:(intros i Hi; lia)
             ltac:(rewrite Z2Nat.id by lia; lia)).
  rewrite Hlog.
  pose proof (Z.log2_spec total ltac:(lia)) as Hs.
  set (k := Z.log2 total) in *.
  assert (Hk : (0 <= k)%Z) by apply Z.log2_nonneg.
  assert (Hku : (k < ub)%Z) by (apply Z.log2_lt_pow2; lia).
  assert (Hpk : (2 * 2 ^ k <= 2 ^ ub)%Z).
  { rewrite <- Z.pow_succ_r by lia. apply Z.pow_le_mono_r; lia. }
  rewrite Z.pow_succ_r in Hs by lia.
  unfold GSCALE. rewrite Z.shiftr_div_pow2 by lia.
  change (2 ^ 4)%Z with 16%Z.
  destruct (2 ^ k / 16 =? 0)%Z eqn:Eq.
  - replace (total =? 0)%Z with false by (symmetry; apply Z.eqb_neq; lia).
    exists total. split; [reflexivity|]. lia.
  - apply Z.eqb_neq in Eq.
    assert (Hk4 : (4 <= k)%Z).
    { destruct (Z.lt_ge_cases k 4) as [Hlt|]; [|assumption]. exfalso. apply Eq.
      apply Z.div_small. split; [lia|].
      change 16%Z with (2 ^ 4)%Z. apply Z.pow_lt_mono_r; lia. }
    assert (H16 : (2 ^ k = 16 * (2 ^ k / 16))%Z).
    { replace k with (4 + (k - 4))%Z at 1 2 by lia.
      rewrite Z.pow_add_r by lia. change (2 ^ 4)%Z with 16%Z.
      rewrite (Z.mul_comm 16), Z.div_mul by lia. ring. }
    set (q := (2 ^ k / 16)%Z) in *.
    assert (Hq : (0 < q)%Z) by lia.
    change (S (Z.to_nat 16)) with 17.
    destruct (add_quanta_spec ub total q (2 ^ k)%Z Hq H16 ltac:(lia) Hpk 17 0%Z)
      as (a' & Ha' & Hcase); try lia.
    rewrite Z.mul_0_l, Z.add_0_r in Ha'. rewrite Ha'.
    destruct Hcase as [(-> & Hov)|(Hr & Hlt & Hne)].
    + cbn [Z.eqb]. unfold ulong_not. change (Z.lnot 0) with (-1)%Z.
      exists ((-1) mod 2 ^ ub)%Z. split; [reflexivity|].
      assert (Hm : ((-1) mod 2 ^ ub = 2 ^ ub - 1)%Z).
      { symmetry. apply (Z.mod_unique_pos _ _ (-1)); lia. }
      rewrite Hm. lia.
    + apply Z.eqb_neq in Hne. rewrite Hne.
      exists a'. split; [reflexivity|]. lia.
Qed.

(** X13.  The growth of the buffer in [rdpoly]: for a total of bits read
    that is positive and fits an unsigned long, the new size is computed, it
    is at least the total and fits an unsigned long, and it exceeds the
    total by at most a sixteenth of it. *)
Theorem rdpoly_growth ub total :
  (0 < total < 2 ^ ub)%Z ->
  exists a, grow ub total = Some a
            /\ (total <= a < 2 ^ ub)%Z
            /\ (16 * (a - total) <= total)%Z.
Proof. exact (grow_spec ub total). Qed.

Lemma rdpoly_growth_witness :
  exists a, grow 64 100000 = Some a
            /\ (100000 <= a < 2 ^ 64)%Z
            /\ (16 * (a - 100000) <= 100000)%Z.
Proof. apply rdpoly_growth. lia. Defined.

(* ===================================================================== *)
(** ** Reading a sample (cli.c, rdpoly) *)
(* ===================================================================== *)

Lemma xor_into_zeros n : forall c,
  length c <= n -> xor_into (repeat false n) c = c ++ repeat false (n - length c).
Proof.
  induction n as [|n IH]; intros [|b c] H; cbn in *; try lia; try reflexivity.
  rewrite IH by lia. now destruct b.
Qed.

(** [psum] of a chunk into the zeros that follow what has been read. *)
Lemma psum_append done n c :
  plen c <= n ->
  psum (done ++ repeat false n) c (plen done)
  = done ++ c ++ repeat false (n - plen c).
Proof.
  intros H. unfold psum, plen in *.
  rewrite length_app, repeat_length.
  replace (length done + length c - (length done + n)) with 0 by lia.
  cbn [repeat]. rewrite app_nil_r.
  rewrite firstn_app, firstn_all, Nat.sub_diag, firstn_O, app_nil_r.
  rewrite skipn_app, skipn_all, Nat.sub_diag, skipn_O. cbn [app].
  now rewrite xor_into_zeros.
Qed.

Lemma praloc_grows done n a :
  plen done + n <= a ->
  praloc (done ++ repeat false n) a = done ++ repeat false (a - plen done).
Proof.
  intros H. unfold praloc, plen in *.
  rewrite firstn_all2 by (rewrite length_app, repeat_length; lia).
  rewrite length_app, repeat_length, <- app_assoc, <- repeat_app.
  do 2 f_equal. lia.
Qed.

Lemma praloc_trims done n :
  praloc (done ++ repeat false n) (plen done) = done.
Proof.
  unfold praloc, plen.
  rewrite firstn_app, firstn_all, Nat.sub_diag, firstn_O, app_nil_r.
  rewrite length_app. replace (length done - _) with 0 by lia.
  apply app_nil_r.
Qed.

Section Reading.

Variable ub : Z.

Lemma rdpoly_chunk_appends done n chunk :
  (Z.of_nat (plen done + plen chunk) < 2 ^ ub)%Z ->
  exists n',
    rdpoly_chunk ub (done ++ repeat false n, Z.of_nat (plen done)) chunk
    = Some ((done ++ chunk) ++ repeat false n', Z.of_nat (plen (done ++ chunk))).
Proof.
  intros Hlt. unfold rdpoly_chunk.
  assert (Hsum : ((Z.of_nat (plen done) + Z.of_nat (plen chunk)) mod 2 ^ ub
                  = Z.of_nat (plen (done ++ chunk)))%Z).
  { unfold plen in *. rewrite length_app, Nat2Z.inj_add.
    apply Z.mod_small. lia. }
  rewrite Hsum.
  replace (_ <? Z.of_nat (plen chunk))%Z with false
    by (symmetry; apply Z.ltb_ge; unfold plen; rewrite length_app; lia).
  replace (Z.to_nat (Z.of_nat (plen (done ++ chunk)) - Z.of_nat (plen chunk)))
    with (plen done) by (unfold plen; rewrite length_app; lia).
  destruct (Z.of_nat (plen (done ++ repeat false n)) <? Z.of_nat (plen (done ++ chunk)))%Z
    eqn:E.
  - apply Z.ltb_lt in E.
    destruct (grow_spec ub (Z.of_nat (plen (done ++ chunk)))) as (a & -> & Ha & _).
    { unfold plen in *. rewrite !length_app in *. lia. }
    rewrite praloc_grows
      by (unfold plen in *; rewrite !length_app, repeat_length in *; lia).
    rewrite psum_append
      by (unfold plen in *; rewrite !length_app in *; lia).
    eexists. rewrite app_assoc. reflexivity.
  - apply Z.ltb_ge in E.
    rewrite psum_append
      by (unfold plen in *; rewrite !length_app, repeat_length in *; lia).
    eexists. rewrite app_assoc. reflexivity.
Qed.

Lemma rdpoly_loop_appends chunks : forall done n,
  (Z.of_nat (plen done + plen (concat chunks)) < 2 ^ ub)%Z ->
  exists n',
    rdpoly_loop ub chunks (done ++ repeat false n, Z.of_nat (plen done))
    = Some ((done ++ concat chunks) ++ repeat false n',
            Z.of_nat (plen (done ++ concat chunks))).
Proof.
  induction chunks as [|chunk rest IH]; intros done n Hlt.
  - exists n. cbn [rdpoly_loop concat]. now rewrite !app_nil_r.
  - cbn [rdpoly_loop concat] in *.
    assert (Hl : plen (chunk ++ concat rest) = plen chunk + plen (concat rest))
      by apply length_app.
    destruct (rdpoly_chunk_appends done n chunk) as (n1 & ->); [lia|].
    destruct (IH (done ++ chunk) n1) as (n2 & ->).
    + unfold plen in *. rewrite length_app. lia.
    + exists n2. now rewrite <- !(app_assoc done).
Qed.

(** X20.  When the file opens, reading raises no error, closing does not
    fail and the number of bits read fits an unsigned long, [rdpoly] returns
    the chunks of the file, in order, as one polynomial. *)
Theorem rdpoly_reads_the_chunks myname fs name fl bp is_stdin input :
  oread myname fs name = inl (is_stdin, input) ->
  f_error input = false ->
  negb is_stdin && f_close_fails input = false ->
  (Z.of_nat (plen (concat (f_chunks input fl bp))) < 2 ^ ub)%Z ->
  rdpoly ub myname fs name fl bp = inl (concat (f_chunks input fl bp)).
Proof.
  intros Ho He Hc Hlt. unfold rdpoly. rewrite Ho.
  destruct (rdpoly_loop_appends (f_chunks input fl bp) [] 0 Hlt) as (n & Hn).
  cbn [app repeat plen length Z.of_nat] in Hn.
  change (rdpoly_loop ub (f_chunks input fl bp) (pzero, 0%Z))
    with (rdpoly_loop ub (f_chunks input fl bp) ([] ++ repeat false 0, 0%Z)).
  cbn [app repeat]. rewrite Hn, He, Hc.
  rewrite Nat2Z.id. now rewrite praloc_trims.
Qed.

End Reading.

Lemma rdpoly_reads_the_chunks_witness :
  rdpoly 64 "reveng" one_file "sample" 12 8 = inl (bits "1011000").
Proof.
  apply (rdpoly_reads_the_chunks 64 "reveng" one_file "sample" 12 8 false two_chunks);
    reflexivity.
Defined.

(* ===================================================================== *)
(** ** The backward division of calini (reveng.c) *)
(* ===================================================================== *)

Lemma length_muladd g Q R : length (muladd g Q R) = length Q + length R.
Proof.
  induction Q as [|t qs IH]; [reflexivity|].
  cbn [muladd length]. now rewrite length_xor_into, IH.
Qed.

Lemma xor_into_twice A : forall g, xor_into (xor_into A g) g = A.
Proof.
  induction A as [|a A IH]; intros [|b g]; cbn [xor_into]; try reflexivity.
  rewrite IH. f_equal. now destruct a, b.
Qed.

Lemma xor_into_app A : forall g B,
  length g <= length A -> xor_into (A ++ B) g = xor_into A g ++ B.
Proof.
  induction A as [|a A IH]; intros [|b g] B H; cbn in *; try lia.
  - now destruct B.
  - now destruct (A ++ B).
  - rewrite IH by lia. reflexivity.
Qed.

Lemma xor_into_comm A : forall B C,
  xor_into (xor_into A B) C = xor_into (xor_into A C) B.
Proof.
  induction A as [|a A IH]; intros [|b B] [|c C]; cbn [xor_into]; try reflexivity.
  rewrite IH. f_equal. now destruct a, b, c.
Qed.

Lemma xor_into_zeros_r A : forall n, xor_into A (repeat false n) = A.
Proof.
  induction A as [|a A IH]; intros [|n]; cbn [xor_into repeat]; try reflexivity.
  rewrite IH. now destruct a.
Qed.

Lemma xor_into_pad A : forall B n,
  xor_into A (B ++ repeat false n) = xor_into A B.
Proof.
  induction A as [|a A IH]; intros [|b B] n; try reflexivity.
  - cbn [app]. now rewrite xor_into_zeros_r, xor_into_nil.
  - cbn [xor_into app]. now rewrite IH.
Qed.

Lemma xor_into_snoc A : forall B a b,
  length A = length B ->
  xor_into (A ++ [a]) (B ++ [b]) = xor_into A B ++ [xorb a b].
Proof.
  induction A as [|x A IH]; intros [|y B] a b H; cbn in *; try lia; try reflexivity.
  rewrite IH by lia. reflexivity.
Qed.

Lemma xor_into_shift A : forall B n,
  xor_into (repeat false n ++ B) (repeat false n ++ A)
  = repeat false n ++ xor_into B A.
Proof.
  intros B n. induction n as [|n IH]; [reflexivity|].
  cbn [repeat app xor_into]. now rewrite IH.
Qed.

(** Reversing a sum with a left-aligned operand aligns the operand on the
    right. *)
Lemma rev_xor_into A : forall g,
  length g <= length A ->
  rev (xor_into A g) = xor_into (rev A) (repeat false (length A - length g) ++ rev g).
Proof.
  induction A as [|a A IH]; intros g H.
  - destruct g; [reflexivity | cbn in H; lia].
  - destruct g as [|b g].
    + cbn [xor_into length rev app]. rewrite Nat.sub_0_r.
      change (repeat false (S (length A)) ++ []) with (repeat false (S (length A)) ++ repeat false 0).
      now rewrite xor_into_pad, xor_into_zeros_r.
    + cbn [xor_into length rev] in *. rewrite IH by lia.
      rewrite Nat.sub_succ, app_assoc.
      rewrite xor_into_snoc.
      * now rewrite xorb_comm.
      * rewrite length_rev, length_app, repeat_length, length_rev. lia.
Qed.

Section Division.

Variable g : list bool.

(** Division returns the remainder of what it is given. *)
Lemma division_has_quotient bits : forall reg q0,
  length reg = length g -> length g <> 0 ->
  exists Q, length Q = length bits
            /\ reg ++ bits
               = muladd g Q (fst (fold_left (crc_step g) bits (reg, q0))).
Proof.
  induction bits as [|b bits IH]; intros reg q0 Hl Hg.
  - exists []. split; [reflexivity|]. cbn. apply app_nil_r.
  - destruct reg as [|top rest]; [cbn in Hl; lia|].
    cbn [fold_left crc_step].
    assert (Hs : length (if top then xor_into (rest ++ [b]) g else rest ++ [b])
                 = length g)
      by (destruct top; rewrite ?length_xor_into, length_app; cbn in *; lia).
    destruct (IH _ (top :: q0) Hs Hg) as (Q & HQ & Heq).
    exists (top :: Q). split; [cbn; lia|].
    cbn [muladd app]. f_equal.
    pose proof (f_equal (fun x => xor_into x (if top then g else [])) Heq) as Heq'.
    cbn beta in Heq'. etransitivity; [|exact Heq'].
    destruct top.
    + rewrite xor_into_app by (rewrite length_xor_into, length_app; cbn in *; lia).
      rewrite xor_into_twice, <- app_assoc. reflexivity.
    + rewrite xor_into_nil, <- app_assoc. reflexivity.
Qed.

(** Division of [Q * G + R] returns [R]. *)
Lemma division_of_muladd Q : forall R bits reg q0,
  length reg = length g -> length R = length g -> length g <> 0 ->
  reg ++ bits = muladd g Q R ->
  fst (fold_left (crc_step g) bits (reg, q0)) = R.
Proof.
  induction Q as [|t qs IH]; intros R bits reg q0 Hl HR Hg Heq.
  - cbn [muladd] in Heq.
    assert (bits = []).
    { apply (f_equal (@length bool)) in Heq. rewrite length_app in Heq.
      destruct bits; [reflexivity | cbn in Heq; lia]. }
    subst bits. rewrite app_nil_r in Heq. now subst.
  - destruct reg as [|top rest]; [cbn in Hl; lia|].
    cbn [muladd app] in Heq. inversion Heq as [[Ht Hrest]]. subst t.
    destruct bits as [|b bits].
    { exfalso. apply (f_equal (@length bool)) in Hrest.
      rewrite length_xor_into, length_muladd, app_nil_r in Hrest. cbn in Hl. lia. }
    cbn [fold_left crc_step]. apply IH; try assumption.
    + destruct top; rewrite ?length_xor_into, length_app; cbn in *; lia.
    + destruct top.
      * rewrite <- xor_into_app by (rewrite length_app; cbn in *; lia).
        rewrite <- app_assoc. cbn [app]. rewrite Hrest. apply xor_into_twice.
      * rewrite <- app_assoc. cbn [app]. rewrite Hrest.
        now destruct (muladd g qs R).
Qed.

End Division.

Lemma repeat_snoc {A : Type} (x : A) n : repeat x n ++ [x] = repeat x (S n).
Proof. symmetry. apply repeat_cons. Qed.

Lemma rev_repeat_false n : rev (repeat false n) = repeat false n.
Proof.
  induction n as [|n IH]; [reflexivity|].
  cbn [repeat rev]. rewrite IH. apply repeat_snoc.
Qed.

Section Product.

Variable g : list bool.

Let zeros := repeat false (length g).

(** [Q * G + R] is [Q * G] with [R] added at the low end. *)
Lemma muladd_split Q : forall R,
  length R = length g ->
  muladd g Q R = xor_into (muladd g Q zeros) (repeat false (length Q) ++ R).
Proof.
  induction Q as [|t qs IH]; intros R HR.
  - cbn [muladd length repeat app]. unfold zeros.
    rewrite xor_into_zeros by lia. rewrite HR, Nat.sub_diag. cbn. now rewrite app_nil_r.
  - cbn [muladd length repeat app xor_into]. rewrite xorb_false_r. f_equal.
    rewrite IH by assumption. apply xor_into_comm.
Qed.

(** The product for a quotient with one more coefficient at the low end. *)
Lemma muladd_snoc Q : forall t,
  muladd g (Q ++ [t]) zeros
  = xor_into (muladd g Q zeros ++ [false])
             (repeat false (length Q) ++ (if t then true :: g else [])).
Proof.
  induction Q as [|s qs IH]; intros t.
  - cbn [app muladd length repeat]. unfold zeros. rewrite repeat_snoc.
    destruct t.
    + rewrite !xor_into_zeros by (cbn; lia). cbn [length].
      rewrite !Nat.sub_diag. cbn. now rewrite !app_nil_r.
    + now rewrite !xor_into_nil.
  - cbn [app muladd length repeat xor_into]. rewrite xorb_false_r. f_equal.
    rewrite IH.
    rewrite <- (xor_into_app (muladd g qs zeros))
      by (rewrite length_muladd; unfold zeros; rewrite repeat_length;
          destruct s; cbn; lia).
    apply xor_into_comm.
Qed.

End Product.

(** The full reciprocal polynomial is the reverse of the full polynomial. *)
Lemma prcp_full g :
  last g false = true -> true :: prcp g = rev g ++ [true].
Proof.
  intros Hl. destruct g as [|b g]; [discriminate|].
  unfold prcp. set (p := b :: g) in *.
  assert (Hp : p = firstn (length p - 1) p ++ [true]).
  { rewrite <- Hl. rewrite Nat.sub_1_r, <- (removelast_firstn_len p).
    apply app_removelast_last. discriminate. }
  transitivity (rev (firstn (length p - 1) p ++ [true]) ++ [true]).
  - rewrite rev_app_distr. reflexivity.
  - now rewrite <- Hp.
Qed.

Lemma length_prcp g : length (prcp g) = length g.
Proof.
  destruct g as [|b g]; [reflexivity|]. unfold prcp.
  rewrite length_app, length_rev, length_firstn. cbn. lia.
Qed.

(** Reversing a product reverses its factors. *)
Lemma rev_product g Q :
  last g false = true ->
  rev (muladd g Q (repeat false (length g)))
  = muladd (prcp g) (rev Q) (repeat false (length (prcp g))).
Proof.
  intros Hl. induction Q as [|t qs IH].
  - cbn [muladd rev]. now rewrite rev_repeat_false, length_prcp.
  - cbn [muladd rev]. rewrite muladd_snoc, <- IH, length_rev.
    set (M := muladd g qs (repeat false (length g))).
    assert (HM : length M = length qs + length g)
      by (unfold M; now rewrite length_muladd, repeat_length).
    destruct t.
    + rewrite rev_xor_into by lia. rewrite HM, Nat.add_sub.
      rewrite (prcp_full g Hl), app_assoc.
      rewrite xor_into_snoc
        by (rewrite length_rev, length_app, repeat_length, length_rev; lia).
      reflexivity.
    + rewrite xor_into_nil, app_nil_r, xor_into_zeros_r. reflexivity.
Qed.

Lemma pcrc_register (m d i : list bool) :
  length d <= length m ->
  pcrc m d i [] 0
  = fst (fold_left (crc_step d) (skipn (length d) m)
                   (xor_into (firstn (length d) m) i, [])).
Proof.
  intros H. unfold pcrc, pcrc_quot. cbn [Z.land Z.eqb].
  replace (length d - length m) with 0 by lia. cbn [repeat]. rewrite app_nil_r.
  destruct (fold_left _ _ _) as [reg q]. cbn [fst]. apply xor_into_nil.
Qed.

Lemma division_start (m d i : list bool) :
  length i <= length d -> length d <= length m ->
  xor_into (firstn (length d) m) i ++ skipn (length d) m = xor_into m i.
Proof.
  intros Hi Hd. rewrite <- xor_into_app by (rewrite length_firstn; lia).
  now rewrite firstn_skipn.
Qed.

Section Reciprocal.

Variables (g a X I : list bool).

Hypothesis Hg : last g false = true.
Hypothesis Ha : length g <= length a.
Hypothesis HX : length X = length g.
Hypothesis HI : length I = length g.

Let k := length a - length g.

(** A sample that is a multiple with the remainder [X] once [I] has been
    added at its high end is, reversed, a multiple of the reciprocal with
    the remainder [rev I] once [rev X] has been added. *)
Lemma reverse_division Q :
  length Q = k ->
  xor_into a I = muladd g Q X ->
  xor_into (rev a) (rev X) = muladd (prcp g) (rev Q) (rev I).
Proof.
  intros HQ HP.
  assert (Hgn : length g <> 0) by (destruct g; [discriminate | cbn; lia]).
  rewrite muladd_split in HP by assumption.
  rewrite muladd_split by (rewrite length_rev, length_prcp; assumption).
  rewrite <- rev_product by assumption. rewrite length_rev.
  set (M := muladd g Q (repeat false (length g))) in *.
  assert (HM : length M = length a)
    by (unfold M; rewrite length_muladd, repeat_length; unfold k in HQ; lia).
  assert (Hra : a = xor_into (xor_into M (repeat false (length Q) ++ X)) I)
    by (rewrite <- HP; symmetry; apply xor_into_twice).
  rewrite Hra at 1.
  rewrite rev_xor_into by (rewrite !length_xor_into; lia).
  rewrite !length_xor_into, HM, HI.
  rewrite rev_xor_into
    by (rewrite length_app, repeat_length; unfold k in HQ; lia).
  rewrite length_app, repeat_length, HM, HX.
  replace (length a - (length Q + length g)) with 0 by (unfold k in HQ; lia).
  cbn [repeat app]. rewrite rev_app_distr, rev_repeat_false.
  rewrite xor_into_comm, xor_into_pad, xor_into_twice.
  unfold k in HQ. now rewrite HQ.
Qed.

End Reciprocal.

Lemma last_prcp g : g <> [] -> last (prcp g) false = true.
Proof.
  destruct g as [|b g]; [congruence|]. intros _. unfold prcp.
  apply last_last.
Qed.

Lemma prcp_prcp g : last g false = true -> prcp (prcp g) = g.
Proof.
  intros Hl.
  assert (Hne : g <> []) by (destruct g; [discriminate | congruence]).
  pose proof (prcp_full g Hl) as H1.
  pose proof (prcp_full (prcp g) (last_prcp g Hne)) as H2.
  assert (H3 : rev (true :: prcp g) = true :: g)
    by (rewrite H1, rev_app_distr, rev_involutive; reflexivity).
  cbn [rev] in H3. rewrite H3 in H2. now injection H2.
Qed.

(** The Init that the backward division of [calini] computes is the only one
    of the width that a sample admits. *)
Lemma backward_init (g a X I : list bool) :
  last g false = true -> length g <= length a ->
  length X = length g -> length I = length g ->
  ptst (pcrc a g I X 0) = false ->
  prev (pcrc (prev a) (prcp g) (prev X) pzero 0) = I.
Proof.
  intros Hg Ha HX HI Hc.
  assert (Hgn : length g <> 0) by (destruct g; [discriminate | cbn; lia]).
  rewrite pcrc_xorout in Hc.
  apply xor_into_clear in Hc;
    [|change (plen (pcrc a g I pzero 0) = length X); now rewrite plen_pcrc].
  unfold pzero in Hc. rewrite pcrc_register in Hc by assumption.
  destruct (division_has_quotient g (skipn (length g) a)
              (xor_into (firstn (length g) a) I) [])
    as (Q & HQ & Hdiv);
    [rewrite length_xor_into, length_firstn; lia | assumption |].
  assert (Hdiv' : xor_into a I = muladd g Q X).
  { rewrite <- (division_start a g I) by lia. rewrite <- Hc. exact Hdiv. }
  clear Hdiv. rename Hdiv' into Hdiv.
  rewrite length_skipn in HQ.
  apply (reverse_division g a X I Hg Ha HX HI Q HQ) in Hdiv.
  unfold prev, pzero.
  rewrite pcrc_register by (rewrite length_prcp, length_rev; assumption).
  rewrite (division_of_muladd (prcp g) (rev Q) (rev I)).
  - apply rev_involutive.
  - rewrite length_xor_into, length_firstn, length_rev, length_prcp. lia.
  - now rewrite length_rev, length_prcp.
  - now rewrite length_prcp.
  - rewrite division_start
      by (rewrite ?length_rev, length_prcp; lia).
    exact Hdiv.
Qed.

(** The Init that the backward division computes fits the sample. *)
Lemma backward_init_fits (g a X : list bool) :
  last g false = true -> length g <= length a -> length X = length g ->
  ptst (pcrc a g (prev (pcrc (prev a) (prcp g) (prev X) pzero 0)) X 0) = false.
Proof.
  intros Hg Ha HX.
  assert (Hgn : length g <> 0) by (destruct g; [discriminate | cbn; lia]).
  assert (Hne : g <> []) by (destruct g; [discriminate | congruence]).
  set (I' := pcrc (prev a) (prcp g) (prev X) pzero 0).
  assert (HI' : length I' = length g)
    by (change (plen I' = length g); unfold I'; rewrite plen_pcrc; apply length_prcp).
  pose proof (eq_refl I') as HR. unfold I' at 2 in HR.
  unfold prev, pzero in HR.
  rewrite pcrc_register in HR by (rewrite length_prcp, length_rev; assumption).
  destruct (division_has_quotient (prcp g) (skipn (length (prcp g)) (rev a))
              (xor_into (firstn (length (prcp g)) (rev a)) (rev X)) [])
    as (Q & HQ & Hdiv);
    [rewrite length_xor_into, length_firstn, length_rev, length_prcp; lia
    | now rewrite length_prcp |].
  assert (Hdiv' : xor_into (rev a) (rev X) = muladd (prcp g) Q I').
  { rewrite <- (division_start (rev a) (prcp g) (rev X))
      by (rewrite ?length_rev, length_prcp; lia).
    rewrite HR. exact Hdiv. }
  clear Hdiv. rename Hdiv' into Hdiv.
  rewrite length_skipn, length_rev, length_prcp in HQ.
  apply (reverse_division (prcp g) (rev a) I' (rev X)) in Hdiv;
    [| now apply last_prcp
     | rewrite length_rev, length_prcp; assumption
     | now rewrite length_prcp
     | now rewrite length_rev, length_prcp
     | rewrite length_rev, length_prcp; assumption ].
  rewrite !rev_involutive, prcp_prcp in Hdiv by assumption.
  rewrite pcrc_xorout. unfold pzero. rewrite pcrc_register by assumption.
  rewrite (division_of_muladd g (rev Q) X).
  - apply xor_into_self.
  - rewrite length_xor_into, length_firstn. lia.
  - assumption.
  - assumption.
  - rewrite division_start by (unfold prev; rewrite ?length_rev; lia).
    exact Hdiv.
Qed.

(** The XorOut that [calini] reverses is the XorOut of the engine,
    reversed. *)
Lemma calini_rxor fl xo :
  (if flag_set (Z.lnot fl) P_REFOUT then prev xo else xo)
  = prev (if flag_set fl P_REFOUT then prev xo else xo).
Proof.
  change P_REFOUT with (2 ^ 1)%Z. rewrite flag_set_lnot by lia.
  destruct (flag_set fl (2 ^ 1)); cbn [negb]; [now rewrite prev_prev | reflexivity].
Qed.

Lemma plen_engine_xorout (fl : Z) xo :
  plen (if flag_set fl P_REFOUT then prev xo else xo) = plen xo.
Proof. destruct (flag_set fl P_REFOUT); [apply length_rev | reflexivity]. Qed.

(** X21.  With Poly and XorOut given and Init not, for a polynomial with
    the +1 term and samples at least as long as the width: if some Init of
    the width makes every sample pass the engine, then [reveng] returns
    exactly one model, the one with that Init. *)
Theorem calini_finds_init ub sm guess qpoly rflags args i :
  flag_set rflags R_HAVEP = true ->
  flag_set rflags R_HAVEI = false ->
  flag_set rflags R_HAVEX = true ->
  args <> [] ->
  last (spoly guess) false = true ->
  plen i = plen (spoly guess) ->
  plen (xorout guess) = plen (spoly guess) ->
  Forall (fun s => plen (spoly guess) <= plen s) args ->
  Forall (fun s => ptst (pcrc s (spoly guess) i
                           (if flag_set (flags guess) P_REFOUT
                            then prev (xorout guess) else xorout guess) 0)
                   = false) args ->
  found (reveng ub sm guess qpoly rflags args)
  = [candidate (spoly guess) i (flags guess) (xorout guess)].
Proof.
  intros Hp Hi Hx Hne Hg Hli Hlx Hlen Hall.
  rewrite reveng_have_poly, found_requit by exact Hp.
  unfold dispch. rewrite Hi, Hx. cbn [andb].
  destruct args as [|a0 rest]; [congruence|].
  unfold calini, pclone. rewrite calini_rxor.
  rewrite Forall_forall in Hlen, Hall.
  rewrite (backward_init _ _ _ i); try assumption.
  - rewrite chkres_passes; [reflexivity|].
    apply chkres_loop_all. now apply Forall_forall.
  - apply Hlen, shortest_in.
  - etransitivity; [apply plen_engine_xorout | exact Hlx].
  - apply Hall, shortest_in.
Qed.

Lemma calini_finds_init_witness :
  found (reveng 64 3 (guess_of "011" "000" "000" 12) pzero (R_HAVEP + R_HAVEX)
                [bits "1011"; bits "1011000"])
  = [candidate (bits "011") (bits "000") 12 (bits "000")].
Proof.
  apply (calini_finds_init 64 3 (guess_of "011" "000" "000" 12) pzero
           (R_HAVEP + R_HAVEX) [bits "1011"; bits "1011000"] (bits "000"));
    try reflexivity; [discriminate | repeat constructor | repeat constructor].
Defined.

(** X22.  With Poly and XorOut given and Init not, for a polynomial with
    the +1 term, a single sample at least as long as the width always gives
    exactly one model: [calini] finds an Init of the width that fits it. *)
Theorem calini_one_sample ub sm guess qpoly rflags a :
  flag_set rflags R_HAVEP = true ->
  flag_set rflags R_HAVEI = false ->
  flag_set rflags R_HAVEX = true ->
  last (spoly guess) false = true ->
  plen (xorout guess) = plen (spoly guess) ->
  plen (spoly guess) <= plen a ->
  exists i,
    plen i = plen (spoly guess)
    /\ found (reveng ub sm guess qpoly rflags [a])
       = [candidate (spoly guess) i (flags guess) (xorout guess)].
Proof.
  intros Hp Hi Hx Hg Hlx Hlen.
  rewrite reveng_have_poly, found_requit by exact Hp.
  unfold dispch. rewrite Hi, Hx. cbn [andb].
  unfold calini, pclone. cbn [shortest]. rewrite calini_rxor.
  eexists. split; [|rewrite chkres_passes; [reflexivity|]].
  - unfold prev, plen. rewrite length_rev.
    change (plen (pcrc (rev a) (prcp (spoly guess))
                   (rev (if flag_set (flags guess) P_REFOUT
                         then rev (xorout guess) else xorout guess)) pzero 0)
            = length (spoly guess)).
    rewrite plen_pcrc. apply length_prcp.
  - cbn [chkres_loop].
    rewrite backward_init_fits; [reflexivity | assumption | assumption |].
    etransitivity; [apply plen_engine_xorout | exact Hlx].
Qed.

Lemma calini_one_sample_witness :
  exists i,
    plen i = plen (bits "011")
    /\ found (reveng 64 3 (guess_of "011" "000" "101" 12) pzero
                     (R_HAVEP + R_HAVEX) [bits "1011000"])
       = [candidate (bits "011") i 12 (bits "101")].
Proof.
  apply (calini_one_sample 64 3 (guess_of "011" "000" "101" 12) pzero
           (R_HAVEP + R_HAVEX) (bits "1011000")); try reflexivity.
  repeat constructor.
Defined.

(* ===================================================================== *)
(** ** The GCD of modpol (reveng.c) *)
(* ===================================================================== *)

(** *** Multiples over GF(2) *)

Section CarryLess.

Local Open Scope Z_scope.

Lemma lxor_swap a b c d :
  Z.lxor (Z.lxor a b) (Z.lxor c d) = Z.lxor (Z.lxor a c) (Z.lxor b d).
Proof.
  apply Z.bits_inj'. intros n _. rewrite !Z.lxor_spec.
  destruct (Z.testbit a n), (Z.testbit b n), (Z.testbit c n), (Z.testbit d n);
    reflexivity.
Qed.

Lemma double_lxor a b : 2 * Z.lxor a b = Z.lxor (2 * a) (2 * b).
Proof.
  replace (2 * Z.lxor a b) with (Z.shiftl (Z.lxor a b) 1)
    by (rewrite Z.shiftl_mul_pow2 by lia; lia).
  replace (2 * a) with (Z.shiftl a 1) by (rewrite Z.shiftl_mul_pow2 by lia; lia).
  replace (2 * b) with (Z.shiftl b 1) by (rewrite Z.shiftl_mul_pow2 by lia; lia).
  apply Z.shiftl_lxor.
Qed.

Lemma clmul_qxor c a : forall b,
  clmul (qxor a b) c = Z.lxor (clmul a c) (clmul b c).
Proof.
  induction a as [|x a IH]; intros [|y b]; cbn [qxor clmul].
  - reflexivity.
  - now rewrite Z.lxor_0_l.
  - now rewrite Z.lxor_0_r.
  - rewrite IH, double_lxor, lxor_swap. f_equal.
    destruct x, y; cbn [xorb];
      now rewrite ?Z.lxor_nilpotent, ?Z.lxor_0_l, ?Z.lxor_0_r.
Qed.

Lemma multiple_0 c : multiple_of c 0.
Proof. now exists []. Qed.

Lemma multiple_refl c : multiple_of c c.
Proof. exists [true]. cbn [clmul]. now rewrite Z.lxor_0_r. Qed.

Lemma multiple_double c m : multiple_of c m -> multiple_of c (2 * m).
Proof. intros [q ->]. exists (false :: q). cbn [clmul]. now rewrite Z.lxor_0_l. Qed.

Lemma multiple_pow2 c m k : multiple_of c m -> multiple_of c (2 ^ Z.of_nat k * m).
Proof.
  intros H. induction k as [|k IH]; [now rewrite Z.mul_1_l|].
  rewrite Nat2Z.inj_succ, Z.pow_succ_r, <- Z.mul_assoc by lia.
  now apply multiple_double.
Qed.

Lemma multiple_lxor c m n :
  multiple_of c m -> multiple_of c n -> multiple_of c (Z.lxor m n).
Proof. intros [q ->] [r ->]. exists (qxor q r). symmetry. apply clmul_qxor. Qed.

Lemma multiple_clmul c w q : multiple_of c w -> multiple_of c (clmul q w).
Proof.
  intros H. induction q as [|b q IH]; cbn [clmul]; [apply multiple_0|].
  apply multiple_lxor; [destruct b; [exact H | apply multiple_0]|].
  now apply multiple_double.
Qed.

Lemma multiple_trans c w m : multiple_of c w -> multiple_of w m -> multiple_of c m.
Proof. intros H [q ->]. now apply multiple_clmul. Qed.

(** A polynomial with the +1 term that divides [x * m] divides [m]. *)
Lemma multiple_halve c m :
  Z.odd c = true -> multiple_of c (2 * m) -> multiple_of c m.
Proof.
  intros Hc [q Hq]. destruct q as [|b q]; cbn [clmul] in Hq.
  - replace m with 0 by lia. apply multiple_0.
  - assert (Hb : b = false).
    { pose proof (f_equal (fun z => Z.testbit z 0) Hq) as H0. cbn beta in H0.
      rewrite Z.lxor_spec, !Z.bit0_odd, !Z.odd_mul in H0. cbn in H0.
      destruct b; [|reflexivity]. rewrite Hc in H0. discriminate. }
    subst b. rewrite Z.lxor_0_l in Hq. exists q. lia.
Qed.

Lemma multiple_unpow2 c m k :
  Z.odd c = true -> multiple_of c (2 ^ Z.of_nat k * m) -> multiple_of c m.
Proof.
  intros Hc. induction k as [|k IH]; [now rewrite Z.mul_1_l|].
  rewrite Nat2Z.inj_succ, Z.pow_succ_r, <- Z.mul_assoc by lia.
  intros H. apply IH. now apply multiple_halve.
Qed.

Lemma low_bit_lxor (b : bool) x :
  (if b then 1 else 0) + 2 * x = Z.lxor (if b then 1 else 0) (2 * x).
Proof.
  destruct b; [|now rewrite Z.lxor_0_l].
  apply Z.add_nocarry_lxor. rewrite Z.land_comm.
  change 1 with (Z.ones 1). rewrite Z.land_ones by lia.
  change (2 ^ 1) with 2. rewrite Z.mul_comm. apply Z.mod_mul. lia.
Qed.

Lemma top_bit_lxor (b : bool) n u :
  0 <= n -> 0 <= u < 2 ^ n ->
  (if b then 2 ^ n else 0) + u = Z.lxor (if b then 2 ^ n else 0) u.
Proof.
  intros Hn Hu. destruct b; [|now rewrite Z.lxor_0_l].
  apply Z.add_nocarry_lxor. apply Z.bits_inj'. intros k Hk.
  rewrite Z.land_spec, Z.bits_0, Z.pow2_bits_eqb by lia.
  destruct (Z.eqb_spec n k) as [<-|Hne]; [|reflexivity]. cbn [andb].
  destruct (Z.eq_dec u 0) as [->|Hu0]; [apply Z.bits_0|].
  apply Z.bits_above_log2; [lia|]. apply Z.log2_lt_pow2; lia.
Qed.

Lemma clmul_one q : clmul q 1 = lval q.
Proof.
  induction q as [|b q IH]; [reflexivity|]. cbn [clmul lval]. rewrite IH.
  symmetry. apply low_bit_lxor.
Qed.

Lemma multiple_of_one p : multiple_of 1 (pval p).
Proof. exists (rev p). now rewrite clmul_one, pval_lval. Qed.

(** *** Polynomials as numbers *)

Lemma pval_xor_into a : forall b,
  length a = length b -> pval (xor_into a b) = Z.lxor (pval a) (pval b).
Proof.
  induction a as [|x a IH]; intros [|y b] Hl; try discriminate; [reflexivity|].
  cbn [xor_into pval]. injection Hl as Hl.
  rewrite length_xor_into, <- Hl.
  pose proof (pval_bounds a) as Ha. pose proof (pval_bounds b) as Hb.
  pose proof (pval_bounds (xor_into a b)) as Hx.
  unfold plen in *. rewrite length_xor_into in Hx. rewrite <- Hl in Hb.
  rewrite !top_bit_lxor by lia. rewrite IH by exact Hl.
  rewrite lxor_swap. f_equal.
  destruct x, y; cbn [xorb];
    now rewrite ?Z.lxor_nilpotent, ?Z.lxor_0_l, ?Z.lxor_0_r.
Qed.

Lemma pval_zeros n : pval (repeat false n) = 0.
Proof. induction n as [|n IH]; [reflexivity|]. cbn [repeat pval]. now rewrite IH. Qed.

Lemma pval_app_zeros l k : pval (l ++ repeat false k) = 2 ^ Z.of_nat k * pval l.
Proof.
  induction k as [|k IH]; [rewrite app_nil_r; change (2 ^ Z.of_nat 0) with 1; lia|].
  rewrite <- repeat_snoc, app_assoc, pval_snoc, IH.
  rewrite Nat2Z.inj_succ, Z.pow_succ_r by lia. lia.
Qed.

Lemma double_plus_bit m r (b : bool) :
  Z.lxor (2 * m + (if b then 1 else 0)) (2 * r + (if b then 1 else 0))
  = 2 * Z.lxor m r.
Proof.
  rewrite !(Z.add_comm (2 * _)), !low_bit_lxor, lxor_swap.
  now rewrite Z.lxor_nilpotent, Z.lxor_0_l, double_lxor.
Qed.

Lemma lxor_cancel_mid a b c : Z.lxor (Z.lxor a b) (Z.lxor b c) = Z.lxor a c.
Proof.
  apply Z.bits_inj'. intros n _. rewrite !Z.lxor_spec.
  destruct (Z.testbit a n), (Z.testbit b n), (Z.testbit c n); reflexivity.
Qed.

Section Division.

Variable g : list bool.

Let G := 2 ^ Z.of_nat (length g) + pval g.

(** One step of the division keeps the message and the register congruent
    modulo the polynomial. *)
Lemma crc_step_multiple (reg q : list bool) (b : bool) :
  length reg = length g -> length g <> 0%nat ->
  multiple_of G (Z.lxor (2 * pval reg + (if b then 1 else 0))
                        (pval (fst (crc_step g (reg, q) b)))).
Proof.
  intros Hl Hg. destruct reg as [|top rest]; [cbn in Hl; lia|].
  cbn [crc_step]. cbn [length] in Hl.
  assert (Hs : length (rest ++ [b]) = length g)
    by (rewrite length_app; cbn [length]; lia).
  pose proof (pval_bounds (rest ++ [b])) as Hb. unfold plen in Hb. rewrite Hs in Hb.
  pose proof (pval_bounds g) as Hgb. unfold plen in Hgb.
  assert (He : 2 * pval (top :: rest) + (if b then 1 else 0)
               = (if top then 2 ^ Z.of_nat (length g) else 0) + pval (rest ++ [b])).
  { cbn [pval]. rewrite pval_snoc, <- Hl, Nat2Z.inj_succ, Z.pow_succ_r by lia.
    destruct top; lia. }
  rewrite He, top_bit_lxor by lia.
  destruct top; cbn [fst].
  - rewrite pval_xor_into by exact Hs.
    rewrite lxor_cancel_mid.
    rewrite <- (top_bit_lxor true) by lia. apply multiple_refl.
  - rewrite Z.lxor_0_l, Z.lxor_nilpotent. apply multiple_0.
Qed.

(** The division keeps the message read so far and the register congruent
    modulo the polynomial. *)
Lemma crc_fold_multiple bits : forall (m reg q : list bool),
  length reg = length g -> length g <> 0%nat ->
  multiple_of G (Z.lxor (pval m) (pval reg)) ->
  multiple_of G (Z.lxor (pval (m ++ bits))
                        (pval (fst (fold_left (crc_step g) bits (reg, q))))).
Proof.
  induction bits as [|b bits IH]; intros m reg q Hl Hg H.
  - now rewrite app_nil_r.
  - cbn [fold_left].
    replace (m ++ b :: bits) with ((m ++ [b]) ++ bits)
      by (now rewrite <- app_assoc).
    destruct (crc_step g (reg, q) b) as [reg' q'] eqn:E.
    apply IH; [|exact Hg|].
    + pose proof (crc_step_length g (reg, q) b Hl) as Hl'.
      now rewrite E in Hl'.
    + pose proof (crc_step_multiple reg q b Hl Hg) as Hs.
      rewrite E in Hs. cbn [fst] in Hs.
      rewrite pval_snoc.
      rewrite <- (lxor_cancel_mid _ (2 * pval reg + (if b then 1 else 0))).
      apply multiple_lxor; [|exact Hs].
      rewrite double_plus_bit. now apply multiple_double.
Qed.

(** The remainder that the engine returns is congruent to the message. *)
Lemma pcrc_multiple (msg : list bool) :
  (length g <= length msg)%nat ->
  multiple_of G (Z.lxor (pval msg) (pval (pcrc msg g pzero pzero 0))).
Proof.
  intros Hm. destruct (Nat.eq_dec (length g) 0) as [Hz|Hg].
  - destruct g; [|discriminate]. unfold G. cbn [length pval].
    change (2 ^ Z.of_nat 0 + 0) with 1.
    assert (Hr : pval (pcrc msg [] pzero pzero 0) = 0).
    { pose proof (pval_bounds (pcrc msg [] pzero pzero 0)) as Hb.
      rewrite plen_pcrc in Hb. cbn in Hb. lia. }
    rewrite Hr, Z.lxor_0_r. apply multiple_of_one.
  - unfold pzero. rewrite pcrc_register by exact Hm.
    rewrite xor_into_nil.
    rewrite <- (firstn_skipn (length g) msg) at 1.
    apply crc_fold_multiple; [rewrite length_firstn; lia | exact Hg |].
    rewrite Z.lxor_nilpotent. apply multiple_0.
Qed.

End Division.

End CarryLess.

(** A polynomial with a bit set spells the power of two of its first set
    bit plus what follows that bit. *)
Lemma pval_first w :
  ptst w = true ->
  pval w = (2 ^ Z.of_nat (length (skipn (pfirst w + 1) w))
            + pval (skipn (pfirst w + 1) w))%Z.
Proof.
  induction w as [|[|] t IH]; intros H; [discriminate|reflexivity|].
  cbn [pfirst Nat.add skipn pval]. rewrite Z.add_0_l.
  apply IH. exact H.
Qed.

(** The remainder of [pmod] is congruent to the dividend modulo the
    divisor. *)
Lemma pmod_multiple g w :
  ptst w = true -> plen w <= plen g ->
  multiple_of (pval w) (Z.lxor (pval g) (pval (pmod g w))).
Proof.
  intros Hw Hl. unfold pmod. rewrite pshift_tail, (pval_first w Hw).
  apply pcrc_multiple. rewrite length_skipn. unfold plen in Hl. lia.
Qed.

Lemma drop_zeros_split l : exists k, l = repeat false k ++ drop_zeros l.
Proof.
  induction l as [|[|] t IH]; [now exists 0 | now exists 0 |].
  destruct IH as [k Hk]. exists (S k). cbn [drop_zeros repeat app]. now f_equal.
Qed.

(** [pnorm] divides by a power of [x]. *)
Lemma pval_pnorm p : exists k, pval p = (2 ^ Z.of_nat k * pval (pnorm p))%Z.
Proof.
  destruct (drop_zeros_split (rev p)) as [k Hk]. exists k.
  rewrite <- pval_app_zeros. f_equal. unfold pnorm.
  rewrite <- (rev_involutive p) at 1. rewrite Hk at 1.
  now rewrite rev_app_distr, rev_repeat_false.
Qed.

Lemma pval_plen_0 p : plen p = 0 -> pval p = 0%Z.
Proof. destruct p; [reflexivity | discriminate]. Qed.

Lemma last_odd c : last c false = true -> Z.odd (pval c) = true.
Proof.
  intros H. destruct c as [|x c]; [discriminate|].
  rewrite (app_removelast_last false (l := x :: c)) by discriminate.
  rewrite pval_snoc, H, Z.odd_add, Z.odd_mul. reflexivity.
Qed.

Lemma normal_odd p : normal p -> p <> [] -> Z.odd (pval p) = true.
Proof. intros [->|H] Hne; [congruence | now apply last_odd]. Qed.

Lemma odd_ptst p : Z.odd (pval p) = true -> ptst p = true.
Proof.
  intros H. rewrite ptst_pval. apply negb_true_iff, Z.eqb_neq.
  intros E. rewrite E in H. discriminate.
Qed.

(** One step of the reduction keeps the common divisors that have the +1
    term. *)
Lemma euclid_step g w c :
  ptst w = true -> plen w <= plen g -> Z.odd c = true ->
  (multiple_of c (pval w) /\ multiple_of c (pval (pnorm (pmod g w))))
  <-> (multiple_of c (pval g) /\ multiple_of c (pval w)).
Proof.
  intros Hw Hl Hc.
  pose proof (pmod_multiple g w Hw Hl) as Hm.
  destruct (pval_pnorm (pmod g w)) as [k Hk].
  split.
  - intros [H1 H2]. split; [|exact H1].
    replace (pval g)
      with (Z.lxor (Z.lxor (pval g) (pval (pmod g w))) (pval (pmod g w)))
      by (now rewrite Z.lxor_assoc, Z.lxor_nilpotent, Z.lxor_0_r).
    apply multiple_lxor; [now apply (multiple_trans c (pval w))|].
    rewrite Hk. now apply multiple_pow2.
  - intros [H1 H2]. split; [exact H2|].
    apply (multiple_unpow2 c _ k Hc). rewrite <- Hk.
    replace (pval (pmod g w))
      with (Z.lxor (pval g) (Z.lxor (pval g) (pval (pmod g w))))
      by (now rewrite <- Z.lxor_assoc, Z.lxor_nilpotent, Z.lxor_0_l).
    apply multiple_lxor; [exact H1 | now apply (multiple_trans c (pval w))].
Qed.

Lemma plen_nonempty (p : poly_t) : (plen p =? 0) = false -> p <> [].
Proof. destruct p; [discriminate | discriminate]. Qed.

(** What the reduction loop returns has the common divisors of [gcd] and
    [work] that have the +1 term, and no others. *)
Lemma gcd_loop_common fuel : forall g w r,
  normal g -> g <> [] -> normal w -> w <> [] ->
  gcd_loop fuel g w = Some r ->
  normal r /\ r <> []
  /\ forall c, Z.odd c = true ->
       (multiple_of c (pval r)
        <-> multiple_of c (pval g) /\ multiple_of c (pval w)).
Proof.
  induction fuel as [|fuel IH]; intros g w r Hg Hgn Hw Hwn H; [discriminate|].
  cbn [gcd_loop] in H.
  assert (Hstep : forall g' w',
            normal g' -> g' <> [] -> normal w' -> w' <> [] ->
            plen w' <= plen g' ->
            (if plen (pnorm (pmod g' w')) =? 0 then Some w'
             else gcd_loop fuel w' (pnorm (pmod g' w'))) = Some r ->
            normal r /\ r <> []
            /\ forall c, Z.odd c = true ->
                 (multiple_of c (pval r)
                  <-> multiple_of c (pval g') /\ multiple_of c (pval w'))).
  { intros g' w' Hg' Hgn' Hw' Hwn' Hl H'.
    pose proof (odd_ptst w' (normal_odd w' Hw' Hwn')) as Ht.
    destruct (plen (pnorm (pmod g' w')) =? 0) eqn:Ez.
    - inversion H'; subst r.
      split; [assumption|]. split; [assumption|]. intros c Hc. split.
      + intros Hr. apply (euclid_step g' w' c Ht Hl Hc). split; [exact Hr|].
        apply Nat.eqb_eq in Ez. rewrite (pval_plen_0 _ Ez). apply multiple_0.
      + now intros [_ Hr].
    - destruct (IH w' (pnorm (pmod g' w')) r Hw' Hwn' (normal_pnorm _)
                  (plen_nonempty _ Ez) H') as (Hr & Hrn & Hiff).
      split; [assumption|]. split; [assumption|]. intros c Hc. split.
      + intros Hm. apply (euclid_step g' w' c Ht Hl Hc). now apply Hiff.
      + intros Hm. apply Hiff; [exact Hc|].
        now apply (euclid_step g' w' c Ht Hl Hc). }
  destruct (plen g <? plen w) eqn:E.
  - apply Nat.ltb_lt in E.
    destruct (Hstep w g Hw Hwn Hg Hgn ltac:(lia) H) as (Hr & Hrn & Hiff).
    split; [assumption|]. split; [assumption|]. intros c Hc.
    rewrite (Hiff c Hc). tauto.
  - apply Nat.ltb_ge in E. now apply Hstep.
Qed.

Lemma multiple_pnorm c d :
  Z.odd c = true ->
  (multiple_of c (pval (pnorm d)) <-> multiple_of c (pval d)).
Proof.
  intros Hc. destruct (pval_pnorm d) as [k Hk]. rewrite Hk. split.
  - apply multiple_pow2.
  - now apply multiple_unpow2.
Qed.

Lemma merge_work_merged acc ds d :
  merged acc ds -> merged (merge_work acc d) (d :: ds).
Proof.
  destruct acc as [gcd nogcd]. intros H. rewrite merge_work_eq.
  destruct (plen (pnorm d) =? 0) eqn:Ez.
  - apply Nat.eqb_eq in Ez.
    assert (Hd : pval d = 0%Z).
    { destruct (pval_pnorm d) as [k Hk]. rewrite Hk, (pval_plen_0 _ Ez). lia. }
    destruct H as [(Hn & Hg & Hz)|(Hn & Hg & Hgn & Hiff)]; [left | right];
      cbn [fst snd] in *.
    + repeat split; auto.
    + split; [assumption|]. split; [assumption|]. split; [assumption|].
      intros c Hc. rewrite (Hiff c Hc), Forall_cons_iff, Hd.
      pose proof (multiple_0 c). tauto.
  - right. cbn [fst snd] in *.
    destruct H as [(Hn & Hg & Hz)|(Hn & Hg & Hgn & Hiff)]; cbn [fst snd] in *.
    + subst nogcd. change (Z.shiftr 2 1) with 1%Z. cbn [Z.eqb negb fst snd].
      split; [reflexivity|]. split; [apply normal_pnorm|].
      split; [now apply plen_nonempty|].
      intros c Hc. rewrite Forall_cons_iff, (multiple_pnorm c d Hc).
      assert (Forall (fun d0 => multiple_of c (pval d0)) ds).
      { eapply Forall_impl; [|exact Hz]. cbn beta. intros a ->. apply multiple_0. }
      tauto.
    + rewrite Hn. cbn [Z.eqb negb].
      destruct (gcd_loop_reduction (S (plen (pnorm d))) gcd (pnorm d))
        as (r & Hr & _); [lia|].
      rewrite Hr. cbn [fst snd].
      destruct (gcd_loop_common _ _ _ _ Hg Hgn (normal_pnorm d)
                  (plen_nonempty _ Ez) Hr) as (Hrn & Hrne & Hr').
      split; [reflexivity|]. split; [exact Hrn|]. split; [exact Hrne|].
      intros c Hc.
      rewrite (Hr' c Hc), (Hiff c Hc), Forall_cons_iff, (multiple_pnorm c d Hc).
      tauto.
Qed.

Lemma merge_fold_merged ds : forall acc done,
  merged acc done -> merged (fold_left merge_work ds acc) (rev ds ++ done).
Proof.
  induction ds as [|d ds IH]; intros acc done H; [exact H|].
  cbn [fold_left rev]. rewrite <- app_assoc. cbn [app].
  apply IH. now apply merge_work_merged.
Qed.

Lemma modpol_merged init rflags args :
  merged (modpol init rflags args,
          if length args <? 2 then 2%Z
          else snd (modpol_outer init rflags args (pzero, 2%Z)))
         (rev (map (fun ab => pair_difference init (flag_set rflags R_HAVEI)
                                               (fst ab) (snd ab))
                   (all_pairs args))).
Proof.
  unfold modpol. destruct (length args <? 2) eqn:E.
  - left. cbn [fst snd]. repeat split.
    apply Nat.ltb_lt in E.
    destruct args as [|a [|b rest]]; [constructor | constructor | cbn in E; lia].
  - pose proof (merge_fold_merged
                  (map (fun ab => difference init rflags (fst ab) (snd ab))
                       (all_pairs args)) (pzero, 2%Z) []) as H.
    rewrite app_nil_r, <- modpol_outer_fold in H.
    rewrite (map_ext _ (fun ab => pair_difference init (flag_set rflags R_HAVEI)
                                                   (fst ab) (snd ab))) in H
      by (intros; apply difference_pair).
    rewrite <- surjective_pairing. apply H.
    left. repeat split. constructor.
Qed.

Lemma clmul_double q c : clmul q (2 * c) = (2 * clmul q c)%Z.
Proof.
  induction q as [|b q IH]; [reflexivity|]. cbn [clmul].
  rewrite IH, (double_lxor (if b then c else 0)%Z). now destruct b.
Qed.

(** C6.  [modpol] returns the GCD of the differences of all pairs up to
    powers of [x]: with fewer than two samples the zero polynomial; a result
    that is normal (the zero polynomial or one with the +1 term), that
    divides the difference of every pair, and that every polynomial with the
    +1 term divides which divides the difference of every pair.  A pair of
    equal length contributes its XOR; with [R_HAVEI] a pair of unequal
    lengths contributes the XOR of the right-aligned pair with Init XORed
    into the leftmost bits of each operand, and without [R_HAVEI] nothing.
    The result is that of the reduction: the first difference that does not
    vanish starts the GCD, and every later one is reduced into it by the
    step "swap if [gcd] is the shorter, replace [gcd] by [pmod(gcd, work)],
    swap again", repeated until [work] normalises to zero. *)
Theorem modpol_gcd_of_differences init rflags args :
  let D := modpol init rflags args in
  let ds := map (fun ab => pair_difference init (flag_set rflags R_HAVEI)
                                           (fst ab) (snd ab))
                (all_pairs args) in
  (length args < 2 -> D = pzero)
  /\ normal D
  /\ Forall (pdivides D) ds
  /\ (forall c, last c false = true -> Forall (pdivides c) ds -> pdivides c D)
  /\ reduction_of_differences init (flag_set rflags R_HAVEI) args D.
Proof.
  cbv zeta. split; [apply modpol_few|].
  assert (Hred : reduction_of_differences init (flag_set rflags R_HAVEI) args
                   (modpol init rflags args)).
  { unfold reduction_of_differences, modpol.
    destruct (length args <? 2); [reflexivity|].
    rewrite modpol_outer_fold.
    assert (Hd : map (fun ab => difference init rflags (fst ab) (snd ab))
                     (all_pairs args)
                 = map (fun ab => pair_difference init (flag_set rflags R_HAVEI)
                                                  (fst ab) (snd ab))
                       (all_pairs args))
      by (apply map_ext; intros; apply difference_pair).
    rewrite Hd.
    pose proof (merge_fold_first
                  (map (fun ab => pair_difference init (flag_set rflags R_HAVEI)
                                                  (fst ab) (snd ab))
                       (all_pairs args)) pzero) as H.
    rewrite map_map in H. exact H. }
  destruct (modpol_merged init rflags args)
    as [(_ & Hg & Hz)|(_ & Hg & Hgn & Hiff)]; cbn [fst snd] in *.
  - rewrite Hg in *. split; [now left|]. split; [|split; [|exact Hred]].
    + apply Forall_rev in Hz. rewrite rev_involutive in Hz.
      eapply Forall_impl; [|exact Hz]. cbn beta. intros d Hd.
      exists []. exact Hd.
    + intros c _ _. apply multiple_0.
  - split; [exact Hg|]. split; [|split; [|exact Hred]].
    + pose proof (proj1 (Hiff _ (normal_odd _ Hg Hgn)) (multiple_refl _)) as H.
      apply Forall_rev in H. now rewrite rev_involutive in H.
    + intros c Hc Hall. apply (Hiff _ (last_odd c Hc)).
      now apply Forall_rev.
Qed.

(** For the samples 1010 and 0000 the one difference is 1010 and [modpol]
    returns 101: the polynomial [x] divides every difference and does not
    divide the result, which is therefore not the greatest of the common
    divisors. *)
Lemma modpol_drops_powers_of_x :
  modpol pzero 0 [bits "1010"; bits "0000"] = bits "101"
  /\ Forall (pdivides (bits "10"))
            (map (fun ab => pair_difference pzero (flag_set 0 R_HAVEI)
                                            (fst ab) (snd ab))
                 (all_pairs [bits "1010"; bits "0000"]))
  /\ ~ pdivides (bits "10") (modpol pzero 0 [bits "1010"; bits "0000"]).
Proof.
  split; [reflexivity|]. split.
  - repeat constructor. exists [true; false; true]. reflexivity.
  - intros [q Hq]. change (pval (bits "10")) with (2 * 1)%Z in Hq.
    rewrite clmul_double in Hq.
    change (pval (modpol pzero 0 [bits "1010"; bits "0000"])) with 5%Z in Hq.
    lia.
Qed.
Import Cli Options.






Section Yields.

Context {A : Type}.

Lemma yields_ret (R : list action -> A + Z -> Prop) x :
  R [] (inl x) -> yields R (ret x).
Proof. intros H log. exists []. rewrite app_nil_r. split; [reflexivity | exact H]. Qed.

Lemma yields_exit (R : list action -> A + Z -> Prop) status :
  R [] (inr status) -> yields R (exit status).
Proof. intros H log. exists []. rewrite app_nil_r. split; [reflexivity | exact H]. Qed.

Lemma yields_weaken (R R' : list action -> A + Z -> Prop) c :
  yields R c -> (forall l r, R l r -> R' l r) -> yields R' c.
Proof.
  intros H HR log. destruct (H log) as (l & Hl & Hr). exists l. auto.
Qed.

Lemma yields_bind {B : Type} (R1 : list action -> B + Z -> Prop)
    (R : list action -> A + Z -> Prop) c k :
  yields R1 c ->
  (forall l1 status, R1 l1 (inr status) -> R l1 (inr status)) ->
  (forall l1 x, R1 l1 (inl x) -> yields (fun l2 r => R (l1 ++ l2) r) (k x)) ->
  yields R (bind c k).
Proof.
  intros Hc Hexit Hk log. destruct (Hc log) as (l1 & Hl1 & HR1).
  unfold bind. destruct (c log) as [log1 [x|s]]; cbn [fst snd] in *; subst.
  - destruct (Hk l1 x HR1 (log ++ l1)) as (l2 & Hl2 & HR2).
    exists (l1 ++ l2). rewrite app_assoc. split; assumption.
  - exists l1. split; [reflexivity | now apply Hexit].
Qed.

Lemma yields_act_then (R : list action -> A + Z -> Prop) a (k : cmd A) :
  yields (fun l r => R (a :: l) r) k -> yields R (act a ;;; k).
Proof.
  intros H log. unfold bind, act.
  destruct (H (log ++ [a])) as (l & Hl & Hr).
  exists (a :: l). rewrite Hl, <- app_assoc. split; [reflexivity | exact Hr].
Qed.

Lemma yields_uerror (R : list action -> A + Z -> Prop) env msg :
  R [Eprint (myname env ++ ": " ++ msg)] (inr EXIT_FAILURE) ->
  yields R (uerror env msg).
Proof.
  intros H. unfold uerror. apply yields_act_then. now apply yields_exit.
Qed.

End Yields.

Lemma yields_act (R : list action -> unit + Z -> Prop) a :
  R [a] (inl tt) -> yields R (act a).
Proof. intros H log. exists [a]. split; [reflexivity | exact H]. Qed.

(** *** One turn of the option loop *)

Ltac more_flag_bits :=
  change P_RTJUST with (2 ^ 3)%Z in *; change P_UPPER with (2 ^ 4)%Z in *;
  change P_SPACE with (2 ^ 5)%Z in *; change P_LTLBYT with (2 ^ 6)%Z in *;
  change P_DIRECT with (2 ^ 7)%Z in *; change P_EXHST with (2 ^ 8)%Z in *;
  change R_HAVERO with (2 ^ 12)%Z in *;
  change C_INFILE with (2 ^ 0)%Z in *; change C_NOPCK with (2 ^ 1)%Z in *;
  change C_NOBFS with (2 ^ 2)%Z in *; change C_RESULT with (2 ^ 3)%Z in *;
  flag_bits.

Lemma flag_set_lor x y k :
  (0 <= k)%Z -> flag_set (Z.lor x y) (2 ^ k) = flag_set x (2 ^ k) || flag_set y (2 ^ k).
Proof. intros Hk. now rewrite !flag_set_bit, Z.lor_spec by lia. Qed.

Lemma crossed_flags fl fl' :
  flag_set fl' P_REFIN = flag_set fl P_REFIN ->
  flag_set fl' P_REFOUT = flag_set fl P_REFOUT ->
  crossed fl' = crossed fl.
Proof. unfold crossed. now intros -> ->. Qed.

Ltac effect_of_assignments :=
  unfold option_effect; split; [repeat constructor|];
  cbn -[Z.land Z.lor Z.lnot Z.pow flag_set crossed chr];
  repeat split; try discriminate; try reflexivity; try (now auto);
  try (intros _);
  try (apply crossed_flags);
  try unfold crossed;
  more_flag_bits; try reflexivity; try (now rewrite ?orb_false_r, ?orb_true_r).

Lemma ipqx_effect env c pptr optarg st st0 :
  (forall l st',
      Forall (fun a => is_eprint a = true) l ->
      c_mode st' = c_mode st -> c_model st' = mnovel (c_model (store pptr (strtop env optarg 0 4) st)) ->
      c_uflags st' = c_uflags st -> c_rflags st' = c_rflags st ->
      c_width st' = c_width st ->
      option_effect c st0 l (inl st')) ->
  yields (option_effect c st0) (ipqx env c pptr optarg st).
Proof.
  intros H. unfold ipqx.
  assert (Hs : forall p, c_mode (store pptr p st) = c_mode st
                         /\ c_uflags (store pptr p st) = c_uflags st
                         /\ c_rflags (store pptr p st) = c_rflags st
                         /\ c_width (store pptr p st) = c_width st)
    by (intros p; destruct pptr; repeat split).
  destruct (Hs (strtop env optarg 0 4)) as (H1 & H2 & H3 & H4).
  destruct (_ && _).
  - apply yields_act_then, yields_ret. apply H; auto; repeat constructor.
  - intros log. exists []. rewrite app_nil_r. split; [reflexivity|].
    apply H; auto.
Qed.

Lemma flags_store pptr p st :
  flags (c_model (store pptr p st)) = flags (c_model st).
Proof. destruct pptr; reflexivity. Qed.

Lemma yields_ret_then {A : Type} (R : list action -> A + Z -> Prop) (k : cmd A) :
  yields R k -> yields R (ret tt ;;; k).
Proof. intros H log. exact (H log). Qed.

Lemma yields_uerror_then {A B : Type} (R : list action -> A + Z -> Prop) env msg
    (k : B -> cmd A) :
  R [Eprint (myname env ++ ": " ++ msg)] (inr EXIT_FAILURE) ->
  yields R (bind (uerror env msg) k).
Proof.
  intros H log. eexists [_]. split; [reflexivity | exact H].
Qed.

Ltac simple_option E :=
  apply Ascii.eqb_eq in E; subst; apply yields_ret; effect_of_assignments.

Ltac failing_option :=
  apply yields_act_then, yields_exit; split; [repeat constructor|];
  split; [reflexivity | discriminate].

Ltac ipqx_option E :=
  apply Ascii.eqb_eq in E; subst; apply ipqx_effect;
  let l := fresh "l" in let st' := fresh "st'" in
  intros l st' ? Hmode Hmodel Hu Hr Hw;
  unfold option_effect; split; [assumption|];
  rewrite Hmode, Hmodel, Hu, Hr, Hw;
  cbn -[Z.land Z.lor Z.lnot Z.pow flag_set crossed chr store];
  rewrite ?flags_store;
  cbn -[Z.land Z.lor Z.lnot Z.pow flag_set crossed chr];
  repeat split; try discriminate; try reflexivity;
  more_flag_bits; try reflexivity; try (now rewrite ?orb_false_r, ?orb_true_r).

Lemma option_yields env oenv c optarg st :
  yields (option_effect c st) (option_switch env oenv c optarg st).
Proof.
  unfold option_switch.
  destruct (c =? "1")%char eqn:E1; [simple_option E1|].
  destruct ((c =? "A") || (c =? "a"))%char eqn:E2.
  { destruct (_ <? _)%Z; [failing_option|].
    apply orb_true_iff in E2. destruct E2 as [E2|E2]; simple_option E2. }
  destruct (c =? "b")%char eqn:E4; [simple_option E4|].
  destruct (c =? "B")%char eqn:E5; [simple_option E5|].
  destruct (c =? "r")%char eqn:E6; [simple_option E6|].
  destruct (is_mode c) eqn:Em.
  { assert (Hc : chr c <> 0%Z /\ ((c =? "b") || (c =? "l"))%char = false
                 /\ sets_endian c = false).
    { unfold is_mode in Em.
      repeat (apply orb_true_iff in Em; destruct Em as [Em|Em]);
        apply Ascii.eqb_eq in Em; subst c; repeat split; discriminate. }
    destruct Hc as (Hc0 & Hbl & Hse).
    unfold case_mode.
    destruct (negb (c_mode st =? 0)%Z && negb (c_mode st =? chr c)%Z) eqn:Ec;
      [failing_option|].
    apply yields_ret. unfold option_effect. split; [constructor|].
    rewrite Em, Hbl, Hse, orb_false_r. cbn.
    repeat split; auto.
    intros _. apply andb_false_iff in Ec.
    destruct Ec as [Ec|Ec]; apply negb_false_iff, Z.eqb_eq in Ec; auto. }
  destruct (c =? "F")%char eqn:E7; [simple_option E7|].
  destruct (c =? "f")%char eqn:E8; [simple_option E8|].
  destruct (c =? "G")%char eqn:E9; [simple_option E9|].
  destruct (c =? "i")%char eqn:E10; [ipqx_option E10|].
  destruct ((c =? "k") || (c =? "P"))%char eqn:E11.
  { apply orb_true_iff in E11. destruct E11 as [E11|E11]; simple_option E11. }
  destruct (c =? "l")%char eqn:E12; [simple_option E12|].
  destruct (c =? "L")%char eqn:E13; [simple_option E13|].
  destruct (c =? "t")%char eqn:E14; [simple_option E14|].
  destruct (c =? "m")%char eqn:E15.
  { apply Ascii.eqb_eq in E15; subst c.
    destruct (mbynam oenv (c_model st) optarg) as [found m'].
    destruct (found =? 0)%Z; [failing_option|].
    destruct (found <? 0)%Z.
    - apply yields_uerror_then. split; [repeat constructor|].
      split; [reflexivity | discriminate].
    - apply yields_ret_then, yields_ret. effect_of_assignments.
      rewrite !flag_set_lor by lia.
      destruct (flag_set (c_rflags st) (2 ^ 11)); reflexivity. }
  destruct (c =? "M")%char eqn:E16; [simple_option E16|].
  destruct (c =? "p")%char eqn:E17; [ipqx_option E17|].
  destruct (c =? "q")%char eqn:E18; [ipqx_option E18|].
  destruct (c =? "S")%char eqn:E19; [simple_option E19|].
  destruct (c =? "V")%char eqn:E20; [simple_option E20|].
  destruct (c =? "w")%char eqn:E21; [simple_option E21|].
  destruct (c =? "X")%char eqn:E22; [simple_option E22|].
  destruct (c =? "x")%char eqn:E23; [ipqx_option E23|].
  destruct (c =? "y")%char eqn:E24; [simple_option E24|].
  destruct (c =? "z")%char eqn:E25; [simple_option E25|].
  unfold usage. failing_option.
Qed.



Lemma chr_mode c : is_mode c = true -> chr c <> 0%Z.
Proof.
  unfold is_mode. intros Em.
  repeat (apply orb_true_iff in Em; destruct Em as [Em|Em]);
    apply Ascii.eqb_eq in Em; subst c; discriminate.
Qed.

Lemma option_loop_yields env oenv opts : forall st,
  yields (loop_effect (map fst opts) st) (option_loop env oenv opts st).
Proof.
  induction opts as [|[c optarg] opts IH]; intros st.
  - apply yields_ret. split; [constructor|]. cbn [map existsb].
    rewrite orb_false_r. repeat split; auto. intros c [].
  - cbn [option_loop map fst].
    eapply yields_bind; [apply option_yields| |].
    + intros l1 status (HF & -> & Hne). split; [exact HF|]. now split.
    + intros l1 st1 (HF1 & Hm & Hm0 & Hcr & Hu & Hri & Hw & Hx).
      eapply yields_weaken; [apply IH|].
      intros l2 [st'|status] (HF2 & H2).
      * destruct H2 as (Km & Kin & Kno & Kcr & Ku & Kri & Kw & Kx).
        split; [now apply Forall_app|].
        assert (Hkeep : c_mode st <> 0%Z -> c_mode st1 = c_mode st).
        { intros Hne. rewrite Hm. destruct (is_mode c) eqn:Em; [|reflexivity].
          destruct (Hm0 eq_refl) as [H0|H0]; congruence. }
        split; [|split; [|split; [|split; [|split; [|split; [|split]]]]]].
        -- intros Hne. rewrite Km; [auto | rewrite Hkeep; auto].
        -- intros c0 [<-|Hin] Hc0.
           ++ rewrite Km; rewrite Hm, Hc0; [reflexivity | now apply chr_mode].
           ++ now apply Kin.
        -- intros Hall. apply Forall_cons_iff in Hall. destruct Hall as [Hc Hall].
           rewrite Kno by assumption. now rewrite Hm, Hc.
        -- intros Hall Hc0. apply Forall_cons_iff in Hall. destruct Hall as [Hc Hall].
           apply Kcr; [assumption|].
           destruct ((c =? "b") || (c =? "l"))%char; [assumption|].
           rewrite Hcr; assumption.
        -- congruence.
        -- rewrite Kri, Hri. cbn [existsb]. now rewrite orb_assoc.
        -- intros Hall. apply Forall_cons_iff in Hall. destruct Hall as [Hc Hall].
           rewrite Kw, Hw; auto.
        -- intros Hall. apply Forall_cons_iff in Hall. destruct Hall as [Hc Hall].
           rewrite Kx, Hx; auto.
      * destruct H2 as (-> & Hne). split; [now apply Forall_app|].
        split; [reflexivity|]. intros Happ. apply app_eq_nil in Happ. tauto.
Qed.

(** The option loop started on the defaults. *)
Lemma option_loop_defaults env oenv opts :
  exists l, fst (option_loop env oenv opts defaults []) = l
            /\ loop_effect (map fst opts) defaults l
                           (snd (option_loop env oenv opts defaults [])).
Proof.
  destruct (option_loop_yields env oenv opts defaults []) as (l & Hl & H).
  exists l. split; [exact Hl | exact H].
Qed.

Lemma chr_inj c1 c2 : chr c1 = chr c2 -> c1 = c2.
Proof.
  unfold chr. intros H. apply N2Z.inj in H.
  rewrite <- (ascii_N_embedding c1), <- (ascii_N_embedding c2). now rewrite H.
Qed.

(** X14.  Two different mode switches among the options end [main] with
    [EXIT_FAILURE], and it has written to [stderr] only. *)
Theorem two_mode_switches env oenv opts argv c1 c2 :
  In c1 (map fst opts) -> In c2 (map fst opts) ->
  is_mode c1 = true -> is_mode c2 = true -> c1 <> c2 ->
  snd (main env oenv opts argv) = EXIT_FAILURE
  /\ Forall (fun a => is_eprint a = true) (fst (main env oenv opts argv)).
Proof.
  intros H1 H2 M1 M2 Hne. unfold main.
  destruct (option_loop_defaults env oenv opts) as (l & Hl & HF & H).
  destruct (option_loop env oenv opts defaults []) as [log [st|status]];
    cbn [fst snd] in *; subst.
  - exfalso. destruct H as (_ & Hin & _).
    apply Hne, chr_inj. rewrite <- (Hin c1), <- (Hin c2); auto.
  - destruct H as (-> & _). split; [reflexivity | exact HF].
Qed.


Lemma two_mode_switches_witness :
  snd (main plain_env plain_opt_env
            [("w"%char, "3"%string); ("c"%char, ""%string); ("s"%char, ""%string)]
            ["1011"%string]) = EXIT_FAILURE.
Proof.
  apply (two_mode_switches plain_env plain_opt_env _ _ "c"%char "s"%char);
    cbn; auto; discriminate.
Defined.


(** X15.  When none of the options -B, -L, -m and -V is given, the option
    loop keeps a model that is not crossed-endian so: it ends with a model
    whose [REFIN] and [REFOUT] agree, or it exits with [EXIT_FAILURE]. *)
Theorem endianness_switches env oenv opts st0 log :
  Forall (fun c => may_cross c = false) (map fst opts) ->
  crossed (flags (c_model st0)) = false ->
  match snd (option_loop env oenv opts st0 log) with
  | inl st => crossed (flags (c_model st)) = false
  | inr status => status = EXIT_FAILURE
  end.
Proof.
  intros Hall H0.
  destruct (option_loop_yields env oenv opts st0 log) as (l & _ & _ & H).
  destruct (snd _) as [st|status].
  - destruct H as (_ & _ & _ & Hcr & _). now apply Hcr.
  - now destruct H.
Qed.

Lemma endianness_switches_witness :
  match snd (option_loop plain_env plain_opt_env
               [("l"%char, ""%string); ("w"%char, "3"%string); ("b"%char, ""%string)]
               defaults []) with
  | inl st => crossed (flags (c_model st)) = false
  | inr status => status = EXIT_FAILURE
  end.
Proof.
  apply endianness_switches; [repeat constructor | reflexivity].
Defined.

Lemma main_body_no_width env st argv :
  c_mode st = chr "s" -> c_width st = 0 ->
  exists msg, main_body env st argv = ([Eprint msg], EXIT_FAILURE).
Proof.
  intros Hm Hw. unfold main_body. rewrite Hm, Hw.
  change (chr "s" =? chr "s")%Z with true.
  change (chr "s" =? chr "v")%Z with false.
  change (chr "s" =? chr "c")%Z with false.
  change (chr "s" =? chr "D")%Z with false.
  change (chr "s" =? chr "d")%Z with false.
  change (chr "s" =? chr "e")%Z with false.
  cbn [negb]. unfold mode_s. rewrite Hw. cbn [Nat.eqb].
  unfold bind at 1. unfold ret at 1. cbn [set_polys flags].
  destruct (flag_set _ P_MULXN); eexists; reflexivity.
Qed.

(** X16.  Search mode (-s) with none of the options -w, -k, -P and -m ends
    [main] with [EXIT_FAILURE], and it has written to [stderr] only. *)
Theorem search_needs_width env oenv opts argv :
  In "s"%char (map fst opts) ->
  Forall (fun c => sets_width c = false) (map fst opts) ->
  snd (main env oenv opts argv) = EXIT_FAILURE
  /\ Forall (fun a => is_eprint a = true) (fst (main env oenv opts argv)).
Proof.
  intros Hs Hall. unfold main.
  destruct (option_loop_defaults env oenv opts) as (l & Hl & HF & H).
  destruct (option_loop env oenv opts defaults []) as [log [st|status]];
    cbn [fst snd] in *; subst.
  - destruct H as (_ & Hin & _ & _ & _ & _ & Hw & _).
    destruct (main_body_no_width env st argv) as (msg & ->).
    + now apply Hin.
    + now rewrite Hw.
    + split; [reflexivity|]. apply Forall_app. split; [exact HF|].
      repeat constructor.
  - destruct H as (-> & _). split; [reflexivity | exact HF].
Qed.

Lemma search_needs_width_witness :
  snd (main plain_env plain_opt_env
            [("b"%char, ""%string); ("s"%char, ""%string)]
            ["1011"%string]) = EXIT_FAILURE.
Proof.
  apply search_needs_width; [cbn; auto | repeat constructor].
Defined.
Import Cli Options.


Lemma fails_loudly_app l1 l2 status :
  fails_loudly l2 status -> fails_loudly (l1 ++ l2) status.
Proof.
  intros [H|(H & l' & msg & ->)]; [now left | right].
  split; [exact H|]. exists (l1 ++ l'), msg. now rewrite app_assoc.
Qed.

Lemma loud_ret {A : Type} (x : A) : loud (ret x).
Proof. now apply yields_ret. Qed.

Lemma loud_exit_success {A : Type} : loud (@exit A EXIT_SUCCESS).
Proof. apply yields_exit. now left. Qed.

Lemma loud_act a : loud (act a).
Proof. now apply yields_act. Qed.

Lemma loud_bind {A B : Type} (c : cmd A) (k : A -> cmd B) :
  loud c -> (forall x, loud (k x)) -> loud (bind c k).
Proof.
  intros Hc Hk. eapply yields_bind; [exact Hc | auto |].
  intros l1 x _. eapply yields_weaken; [apply Hk|].
  intros l2 [y|status]; [auto | apply fails_loudly_app].
Qed.

Lemma loud_fail {A : Type} msg : loud (act (Eprint msg) ;;; @exit A EXIT_FAILURE).
Proof.
  apply yields_act_then, yields_exit. right. split; [reflexivity|].
  now exists [], msg.
Qed.

Lemma loud_uerror {A : Type} env msg : loud (@uerror A env msg).
Proof. apply loud_fail. Qed.

Lemma loud_for_each {A : Type} (f : A -> cmd unit) l :
  (forall x, loud (f x)) -> loud (for_each f l).
Proof.
  intros Hf. induction l as [|x l IH]; cbn [for_each].
  - apply loud_ret.
  - apply loud_bind; [apply Hf | intros; apply IH].
Qed.

Lemma loud_map_cmd {A B : Type} (f : A -> cmd B) l :
  (forall x, loud (f x)) -> loud (map_cmd f l).
Proof.
  intros Hf. induction l as [|x l IH]; cbn [map_cmd].
  - apply loud_ret.
  - apply loud_bind; [apply Hf|]. intros y.
    apply loud_bind; [apply IH|]. intros ys. apply loud_ret.
Qed.

Lemma loud_ufound env m : loud (ufound env m).
Proof. apply loud_act. Qed.

Lemma loud_uprog env p fl s : loud (uprog env p fl s).
Proof. unfold uprog. destruct (s =? 0)%Z; [apply loud_ret | apply loud_act]. Qed.

Lemma loud_read_arg env uflags fl ib arg : loud (read_arg env uflags fl ib arg).
Proof.
  unfold read_arg. destruct (flag_set uflags C_INFILE); [|apply loud_ret].
  destruct (Cli.rdpoly env arg fl ib); [apply loud_ret | apply loud_fail].
Qed.

Lemma loud_mcanon env m : loud (mcanon env m).
Proof.
  unfold mcanon. destruct (_ && _); [apply loud_uerror|].
  destruct (_ && _); apply loud_ret.
Qed.

Lemma loud_mode_c env st m argv : loud (mode_c env st m argv).
Proof.
  unfold mode_c. apply loud_for_each. intros arg.
  apply loud_bind; [apply loud_read_arg | intros; apply loud_act].
Qed.

Lemma loud_mode_D env : loud (mode_D env).
Proof.
  unfold mode_D. destruct (presets env); [apply loud_uerror|].
  apply loud_for_each. intros; apply loud_ufound.
Qed.

Lemma loud_mode_d env m : loud (mode_d env m).
Proof.
  unfold mode_d. destruct (flag_set _ _); [apply loud_uerror | apply loud_act].
Qed.

Lemma loud_mode_e env st m argv : loud (mode_e env st m argv).
Proof.
  unfold mode_e. apply loud_for_each. intros arg.
  apply loud_bind; [apply loud_read_arg | intros; apply loud_act].
Qed.

Lemma loud_few_samples_warning env n : loud (few_samples_warning env n).
Proof.
  unfold few_samples_warning.
  destruct (n =? 0)%Z; [apply loud_act|].
  destruct (n <? RECSMP)%Z; [|apply loud_ret].
  apply loud_bind; [apply loud_act | intros; apply loud_act].
Qed.

Lemma loud_preset_try env m rflags width apolys uflags pset :
  loud (preset_try env m rflags width apolys uflags pset).
Proof.
  unfold preset_try.
  repeat (match goal with |- loud (if ?b then _ else _) => destruct b end;
          try apply loud_ret).
  apply loud_bind; [apply loud_ufound | intros; apply loud_ret].
Qed.

Lemma loud_preset_scan env m rflags width apolys psets : forall uflags,
  loud (preset_scan env m rflags width apolys uflags psets).
Proof.
  induction psets as [|pset rest IH]; intros uflags; cbn [preset_scan].
  - apply loud_ret.
  - apply loud_bind; [apply loud_preset_try | intros; apply IH].
Qed.

Lemma loud_preset_passes env rflags ib width fuel : forall pass s uflags,
  loud (preset_passes fuel env rflags ib width pass s uflags).
Proof.
  induction fuel as [|fuel IH]; intros pass s uflags; cbn [preset_passes].
  - apply loud_ret.
  - apply loud_bind; [apply loud_preset_scan|]. intros u.
    destruct (_ && _); [apply IH | apply loud_ret].
Qed.

Lemma loud_call_reveng env guess qpoly rflags apolys :
  loud (call_reveng env guess qpoly rflags apolys).
Proof.
  unfold call_reveng. apply loud_bind; [apply loud_act|]. intros _.
  destruct (reveng _ _ _ _ _ _) as [models events].
  apply loud_bind; [|intros; apply loud_ret].
  apply loud_for_each. intros [m|p f s]; [apply loud_ufound | apply loud_uprog].
Qed.

Lemma loud_reveng_passes env qpoly rflags ib fuel : forall pass s uflags,
  loud (reveng_passes fuel env qpoly rflags ib pass s uflags).
Proof.
  induction fuel as [|fuel IH]; intros pass s uflags; cbn [reveng_passes].
  - apply loud_ret.
  - apply loud_bind; [apply loud_call_reveng|]. intros models.
    destruct (_ && _); [apply IH | apply loud_ret].
Qed.

Lemma loud_brute_force env qpoly rflags ib s uflags :
  loud (brute_force env qpoly rflags ib s uflags).
Proof.
  unfold brute_force.
  destruct (flag_set uflags C_RESULT); [apply loud_exit_success|].
  destruct (_ && _); [apply loud_uerror|].
  destruct (negb _); [apply loud_uerror|].
  apply loud_bind; [apply loud_reveng_passes|]. intros u.
  destruct (flag_set _ _); [apply loud_uerror | apply loud_ret].
Qed.

Lemma loud_mode_s env st m qpoly argv : loud (mode_s env st m qpoly argv).
Proof.
  unfold mode_s.
  destruct (flag_set _ _); [apply loud_uerror|].
  destruct (c_width st =? 0); [apply loud_uerror|].
  cbv zeta. destruct (plen _ =? 0);
    (apply loud_bind; [apply loud_few_samples_warning|]; intros _;
     apply loud_bind; [apply loud_map_cmd; intros; apply loud_read_arg|];
     intros apolys;
     apply loud_bind;
       [destruct (flag_set _ C_NOPCK); [apply loud_preset_passes | apply loud_ret]|];
     intros [[m' ap] u]; apply loud_brute_force).
Qed.

Lemma main_body_loud env st argv :
  fails_loudly (fst (main_body env st argv)) (snd (main_body env st argv)).
Proof.
  unfold main_body.
  match goal with |- context [?run []] =>
    match type of run with cmd unit => assert (Hr : loud run) end end.
  { apply loud_bind.
    - destruct (negb _); [apply loud_mcanon | apply loud_ret].
    - intros m. apply loud_bind; [|intros; apply loud_exit_success].
      repeat (match goal with |- loud (if ?b then _ else _) => destruct b end;
              first [ apply loud_mode_c | apply loud_mode_D | apply loud_mode_d
                    | apply loud_mode_e | apply loud_mode_s | idtac ]).
      apply loud_fail. }
  destruct (Hr []) as (l & Hl & H). cbn [app] in Hl.
  match goal with |- context [?run []] =>
    match type of run with cmd unit =>
      destruct (run []) as [log [x|status]] end end;
  cbn [fst snd] in *; subst; [now left | exact H].
Qed.

(** X17.  [main] ends with [EXIT_SUCCESS], or it ends with [EXIT_FAILURE]
    and the last thing it has done is to write a message to [stderr]. *)
Theorem failure_is_reported env oenv opts argv :
  fails_loudly (fst (main env oenv opts argv)) (snd (main env oenv opts argv)).
Proof.
  unfold main.
  destruct (option_loop_defaults env oenv opts) as (l & Hl & HF & H).
  destruct (option_loop env oenv opts defaults []) as [log [st|status]];
    cbn [fst snd] in *; subst.
  - pose proof (main_body_loud env st argv) as Hb.
    destruct (main_body env st argv) as [log' status]. cbn [fst snd] in *.
    now apply fails_loudly_app.
  - destruct H as (-> & Hne). right. split; [reflexivity|].
    destruct (exists_last Hne) as (l' & a & ->).
    apply Forall_app in HF. destruct HF as [_ Ha].
    inversion Ha as [|? ? Hea _]; subst.
    destruct a; try discriminate. eauto.
Qed.




Lemma has_puts_app l1 l2 : has_puts (l1 ++ l2) = has_puts l1 || has_puts l2.
Proof. apply existsb_app. Qed.

Lemma result_flag_app u0 u1 u2 l1 l2 :
  result_flag u0 l1 u1 -> result_flag u1 l2 u2 -> result_flag u0 (l1 ++ l2) u2.
Proof.
  unfold result_flag. intros H1 H2. now rewrite H2, H1, has_puts_app, orb_assoc.
Qed.

Lemma flag_set_result u : flag_set (Z.lor u C_RESULT) C_RESULT = true.
Proof. more_flag_bits. reflexivity. Qed.

Lemma flag_set_lnot_result u :
  flag_set (Z.lnot u) C_RESULT = negb (flag_set u C_RESULT).
Proof. more_flag_bits. reflexivity. Qed.

Lemma preset_try_result env m rflags width apolys uflags pset :
  yields (fun l r => match r with
                     | inl u => result_flag uflags l u
                     | inr _ => False
                     end)
         (preset_try env m rflags width apolys uflags pset).
Proof.
  assert (Hsame : yields (fun l r => match r with
                                     | inl u => result_flag uflags l u
                                     | inr _ => False
                                     end) (ret uflags)).
  { apply yields_ret. unfold result_flag. now rewrite orb_false_r. }
  unfold preset_try.
  repeat (match goal with |- yields _ (if ?b then _ else _) => destruct b end;
          try exact Hsame).
  unfold ufound. apply yields_act_then, yields_ret.
  unfold result_flag. rewrite flag_set_result. cbn. now rewrite orb_true_r.
Qed.

Lemma preset_scan_result env m rflags width apolys psets : forall uflags,
  yields (fun l r => match r with
                     | inl u => result_flag uflags l u
                     | inr _ => False
                     end)
         (preset_scan env m rflags width apolys uflags psets).
Proof.
  induction psets as [|pset rest IH]; intros uflags; cbn [preset_scan].
  - apply yields_ret. unfold result_flag. now rewrite orb_false_r.
  - eapply yields_bind; [apply preset_try_result | intros ? ? [] |].
    intros l1 u1 H1. eapply yields_weaken; [apply IH|].
    intros l2 [u2|s] H2; [|exact H2]. exact (result_flag_app _ _ _ _ _ H1 H2).
Qed.

Lemma spoly_toggle env rflags ib s :
  spoly (fst (toggle env rflags ib s)) = spoly (fst s).
Proof.
  unfold toggle. destruct s as [m a]. destruct (flag_set _ _); reflexivity.
Qed.

Lemma preset_passes_result env rflags ib width fuel : forall pass s uflags,
  yields (fun l r => match r with
                     | inl (s', u) =>
                         result_flag uflags l u /\ spoly (fst s') = spoly (fst s)
                     | inr _ => False
                     end)
         (preset_passes fuel env rflags ib width pass s uflags).
Proof.
  induction fuel as [|fuel IH]; intros pass s uflags; cbn [preset_passes].
  - apply yields_ret. split; [|reflexivity].
    unfold result_flag. now rewrite orb_false_r.
  - eapply yields_bind; [apply preset_scan_result | intros ? ? [] |].
    intros l1 u1 H1.
    destruct (_ && _).
    + eapply yields_weaken; [apply IH|].
      intros l2 [[s' u2]|st] H2; [|exact H2]. destruct H2 as [H2 Hs].
      split; [exact (result_flag_app _ _ _ _ _ H1 H2)|]. now rewrite Hs, spoly_toggle.
    + apply yields_ret. rewrite app_nil_r. split; [exact H1 | apply spoly_toggle].
Qed.

(** *** The callbacks of a call of [reveng] *)

Lemma for_each_events env events : forall log,
  exists l, for_each (fun e => match e with
                               | Ufound m => ufound env m
                               | Uprog p f s => uprog env p f s
                               end) events log = (log ++ l, inl tt)
            /\ has_puts l = negb (length (ufound_models events) =? 0).
Proof.
  induction events as [|e events IH]; intros log.
  - exists []. now rewrite app_nil_r.
  - cbn [for_each]. unfold bind.
    destruct e as [m|p f s].
    + unfold ufound at 1. unfold act at 1.
      destruct (IH (log ++ [Puts (mtostr env m)])) as (l & -> & Hl).
      exists (Puts (mtostr env m) :: l). rewrite <- app_assoc. split; reflexivity.
    + unfold uprog at 1. destruct (s =? 0)%Z.
      * unfold ret at 1. destruct (IH log) as (l & -> & Hl).
        exists l. split; [reflexivity | exact Hl].
      * unfold act at 1.
        match goal with |- context [log ++ [?a]] =>
          destruct (IH (log ++ [a])) as (l & -> & Hl); exists (a :: l) end.
        rewrite <- app_assoc. split; [reflexivity | exact Hl].
Qed.

Lemma call_reveng_result env guess qpoly rflags apolys :
  plen (spoly guess) <> 0 ->
  yields (fun l r => match r with
                     | inl models =>
                         has_puts l = (0 <? plen (spoly (hd sentinel models)))
                     | inr _ => False
                     end)
         (call_reveng env guess qpoly rflags apolys).
Proof.
  intros Hw log.
  destruct (reveng_grows (ulong_bits env) (R_SPMASK env) guess qpoly rflags apolys)
    as (st & Hr & ms & Hres & Htr & HP).
  destruct (for_each_events env (trace st)
              (log ++ [Call_reveng guess qpoly rflags apolys])) as (l & Hfe & Hl).
  assert (Hc : call_reveng env guess qpoly rflags apolys log
               = (log ++ Call_reveng guess qpoly rflags apolys :: l,
                  inl (result st ++ [sentinel]))).
  { unfold call_reveng, bind, act. rewrite Hr. unfold requit.
    rewrite Hfe, <- app_assoc. reflexivity. }
  rewrite Hc. eexists. split; [reflexivity|].
  cbn [snd has_puts existsb is_puts orb]. fold (has_puts l).
  rewrite Hl, Htr, Hres.
  cbn [rstate0 result trace ufound_models flat_map app].
  destruct ms as [|m ms]; [reflexivity|].
  cbn [app hd length Nat.eqb negb]. symmetry. apply Nat.ltb_lt.
  apply Forall_cons_iff in HP. destruct HP as [(d & (i & xo & -> & _) & Hd & _) _].
  cbn [candidate mcheck spoly]. lia.
Qed.

Lemma reveng_passes_result env qpoly rflags ib fuel : forall pass s uflags,
  plen (spoly (fst s)) <> 0 ->
  yields (fun l r => match r with
                     | inl u => result_flag uflags l u
                     | inr _ => False
                     end)
         (reveng_passes fuel env qpoly rflags ib pass s uflags).
Proof.
  induction fuel as [|fuel IH]; intros pass s uflags Hw; cbn [reveng_passes].
  - apply yields_ret. unfold result_flag. now rewrite orb_false_r.
  - eapply yields_bind; [apply call_reveng_result, Hw | intros ? ? [] |].
    intros l1 models H1.
    assert (Hu : result_flag uflags l1
                   (if 0 <? plen (spoly (hd sentinel models))
                    then Z.lor uflags C_RESULT else uflags)).
    { unfold result_flag. rewrite H1. destruct (0 <? _).
      - rewrite flag_set_result. now rewrite orb_true_r.
      - now rewrite orb_false_r. }
    destruct (_ && _).
    + eapply yields_weaken; [apply IH; now rewrite spoly_toggle|].
      intros l2 [u2|st] H2; [|exact H2]. exact (result_flag_app _ _ _ _ _ Hu H2).
    + apply yields_ret. now rewrite app_nil_r.
Qed.


Lemma search_end_uerror env msg u0 :
  flag_set u0 C_RESULT = false ->
  yields (search_end u0) (uerror env msg).
Proof.
  intros H. apply yields_uerror. unfold search_end. rewrite H. cbn.
  split; discriminate.
Qed.

Lemma brute_force_result env qpoly rflags ib s uflags :
  plen (spoly (fst s)) <> 0 ->
  yields (search_end uflags) (brute_force env qpoly rflags ib s uflags).
Proof.
  intros Hw. unfold brute_force.
  destruct (flag_set uflags C_RESULT) eqn:Hu.
  { apply yields_exit. unfold search_end. rewrite Hu. now split. }
  destruct (_ && _); [now apply search_end_uerror|].
  destruct (negb _); [now apply search_end_uerror|].
  eapply yields_bind; [apply reveng_passes_result, Hw | intros ? ? [] |].
  intros l1 u1 H1. unfold result_flag in H1. rewrite Hu in H1. cbn [orb] in H1.
  rewrite flag_set_lnot_result, H1.
  destruct (has_puts l1) eqn:Hp; cbn [negb].
  - apply yields_ret. unfold search_end. rewrite app_nil_r, Hu, Hp. reflexivity.
  - apply yields_uerror. unfold search_end. rewrite Hu, has_puts_app, Hp. cbn.
    split; discriminate.
Qed.

Lemma no_puts (l : list action) :
  Forall (fun a => is_eprint a = true) l -> has_puts l = false.
Proof.
  induction 1 as [|a l Ha _ IH]; [reflexivity|].
  unfold has_puts in *. cbn [existsb]. rewrite IH.
  destruct a; try discriminate. reflexivity.
Qed.



Lemma quiet_ret {A : Type} (x : A) : quiet (ret x).
Proof. apply yields_ret. split; [constructor | exact I]. Qed.

Lemma quiet_eprint msg : quiet (act (Eprint msg)).
Proof. apply yields_act. split; [repeat constructor | exact I]. Qed.

Lemma quiet_bind {A B : Type} (c : cmd A) (k : A -> cmd B) :
  quiet c -> (forall x, quiet (k x)) -> quiet (bind c k).
Proof.
  intros Hc Hk. eapply yields_bind; [exact Hc | auto |].
  intros l1 x [H1 _]. eapply yields_weaken; [apply Hk|].
  intros l2 r [H2 Hr]. split; [now apply Forall_app | exact Hr].
Qed.

Lemma quiet_fail {A : Type} msg : quiet (act (Eprint msg) ;;; @exit A EXIT_FAILURE).
Proof.
  apply yields_act_then, yields_exit. split; [repeat constructor | reflexivity].
Qed.

Lemma quiet_map_cmd {A B : Type} (f : A -> cmd B) l :
  (forall x, quiet (f x)) -> quiet (map_cmd f l).
Proof.
  intros Hf. induction l as [|x l IH]; cbn [map_cmd].
  - apply quiet_ret.
  - apply quiet_bind; [apply Hf|]. intros y.
    apply quiet_bind; [apply IH|]. intros ys. apply quiet_ret.
Qed.

Lemma quiet_read_arg env uflags fl ib arg : quiet (read_arg env uflags fl ib arg).
Proof.
  unfold read_arg. destruct (flag_set uflags C_INFILE); [|apply quiet_ret].
  destruct (Cli.rdpoly env arg fl ib); [apply quiet_ret | apply quiet_fail].
Qed.

Lemma quiet_few_samples_warning env n : quiet (few_samples_warning env n).
Proof.
  unfold few_samples_warning.
  destruct (n =? 0)%Z; [apply quiet_eprint|].
  destruct (n <? RECSMP)%Z; [|apply quiet_ret].
  apply quiet_bind; [apply quiet_eprint | intros; apply quiet_eprint].
Qed.

(** A quiet command followed by one of the search mode. *)
Lemma search_end_after_quiet {A : Type} u0 (c : cmd A) (k : A -> cmd unit) :
  flag_set u0 C_RESULT = false ->
  quiet c -> (forall x, yields (search_end u0) (k x)) ->
  yields (search_end u0) (bind c k).
Proof.
  intros Hu Hc Hk. eapply yields_bind; [exact Hc | |].
  - intros l1 status [HF ->]. unfold search_end.
    rewrite Hu, (no_puts _ HF). cbn. split; discriminate.
  - intros l1 x [HF _]. eapply yields_weaken; [apply Hk|].
    intros l2 r. unfold search_end. now rewrite has_puts_app, (no_puts _ HF).
Qed.

Lemma plen_praloc p n : plen (praloc p n) = n.
Proof.
  unfold praloc, plen. rewrite length_app, length_firstn, repeat_length. lia.
Qed.

Lemma mode_s_result env st m qpoly argv :
  flag_set (c_uflags st) C_RESULT = false ->
  yields (search_end (c_uflags st)) (mode_s env st m qpoly argv).
Proof.
  intros Hu. unfold mode_s.
  destruct (flag_set (Z.lnot (flags m)) P_MULXN); [now apply search_end_uerror|].
  destruct (c_width st =? 0) eqn:Hw; [now apply search_end_uerror|].
  apply Nat.eqb_neq in Hw. cbv zeta.
  cbn [set_polys spoly init xorout flags].
  rewrite plen_praloc. apply Nat.eqb_neq in Hw. rewrite Hw.
  apply Nat.eqb_neq in Hw.
  apply search_end_after_quiet; [exact Hu | apply quiet_few_samples_warning|].
  intros _.
  apply search_end_after_quiet;
    [exact Hu | apply quiet_map_cmd; intros; apply quiet_read_arg|].
  intros apolys.
  assert (Hb : forall s uflags l1,
             result_flag (c_uflags st) l1 uflags ->
             plen (spoly (fst s)) <> 0 ->
             yields (fun l2 r => search_end (c_uflags st) (l1 ++ l2) r)
                    (brute_force env qpoly
                       (if negb (ptst qpoly)
                        then Z.land (c_rflags st) (Z.lnot R_HAVEQ)
                        else c_rflags st) (c_ibperhx st) s uflags)).
  { intros s uflags l1 H1 Hs. eapply yields_weaken; [apply brute_force_result, Hs|].
    intros l2 r. unfold search_end, result_flag in *.
    now rewrite H1, has_puts_app, orb_assoc. }
  destruct (flag_set _ C_NOPCK).
  - eapply yields_bind; [apply preset_passes_result | intros ? ? [] |].
    intros l1 [s u] [H1 Hs]. apply Hb; [exact H1|].
    rewrite Hs. cbn [fst spoly set_polys]. now rewrite plen_praloc.
  - unfold bind, ret. intros log.
    destruct (Hb (set_polys m (praloc (spoly m) (c_width st))
                    (praloc (init m) (c_width st))
                    (praloc (xorout m) (c_width st)), apolys)
                 (c_uflags st) []) with (log := log) as (l & Hl & H).
    + unfold result_flag. now rewrite orb_false_r.
    + cbn [fst set_polys spoly]. now rewrite plen_praloc.
    + exists l. split; [exact Hl | exact H].
Qed.

Lemma main_body_mode_s env st argv :
  c_mode st = chr "s" ->
  let r := mode_s env st
             (set_polys (c_model st) (pright (spoly (c_model st)) (c_width st))
                        (pright (init (c_model st)) (c_width st))
                        (pright (xorout (c_model st)) (c_width st)))
             (pright (c_qpoly st) (c_width st)) argv [] in
  main_body env st argv
  = (fst r, match snd r with inl _ => EXIT_SUCCESS | inr status => status end).
Proof.
  intros Hm r. unfold main_body. rewrite Hm.
  change (chr "s" =? chr "s")%Z with true.
  change (chr "s" =? chr "v")%Z with false.
  change (chr "s" =? chr "c")%Z with false.
  change (chr "s" =? chr "D")%Z with false.
  change (chr "s" =? chr "d")%Z with false.
  change (chr "s" =? chr "e")%Z with false.
  cbn [negb]. unfold bind, ret, exit. fold r.
  destruct r as [log [x|status]]; reflexivity.
Qed.

Lemma main_body_search_status env st argv :
  c_mode st = chr "s" ->
  flag_set (c_uflags st) C_RESULT = false ->
  (snd (main_body env st argv) = EXIT_SUCCESS
   <-> has_puts (fst (main_body env st argv)) = true).
Proof.
  intros Hm Hu. rewrite (main_body_mode_s env st argv Hm). cbv zeta.
  match goal with |- context [mode_s ?e ?s ?m ?q ?a []] =>
    destruct (mode_s_result e s m q a Hu []) as (l & Hl & H);
    destruct (mode_s e s m q a []) as [log [x|status]] end;
  cbn [fst snd app] in *; subst; unfold search_end in H; rewrite Hu in H;
  cbn [orb] in H.
  - now split.
  - exact H.
Qed.

(** X18.  In search mode (-s) the exit status of [main] is [EXIT_SUCCESS]
    exactly when it has written a line to [stdout], that is, when a model
    was reported. *)
Theorem search_status env oenv opts argv :
  In "s"%char (map fst opts) ->
  (snd (main env oenv opts argv) = EXIT_SUCCESS
   <-> exists line, In (Puts line) (fst (main env oenv opts argv))).
Proof.
  intros Hs.
  assert (Hp : forall l, has_puts l = true <-> exists line, In (Puts line) l).
  { intros l. unfold has_puts. rewrite existsb_exists. split.
    - intros ([line| |] & Hin & Ha); try discriminate. eauto.
    - intros (line & Hin). exists (Puts line). now split. }
  rewrite <- Hp. unfold main.
  destruct (option_loop_defaults env oenv opts) as (l & Hl & HF & H).
  destruct (option_loop env oenv opts defaults []) as [log [st|status]];
    cbn [fst snd] in *; subst.
  - destruct H as (_ & Hin & _ & _ & Hu & _).
    pose proof (main_body_search_status env st argv (Hin _ Hs eq_refl) Hu) as Hb.
    destruct (main_body env st argv) as [log' status]. cbn [fst snd] in *.
    now rewrite has_puts_app, (no_puts _ HF).
  - destruct H as (-> & _). rewrite (no_puts _ HF). split; discriminate.
Qed.

Lemma search_status_witness :
  snd (main plain_env plain_opt_env
            [("w"%char, "3"%string); ("s"%char, ""%string)]
            ["1011"%string; "1011000"%string]) = EXIT_SUCCESS
  <-> exists line,
        In (Puts line)
           (fst (main plain_env plain_opt_env
                      [("w"%char, "3"%string); ("s"%char, ""%string)]
                      ["1011"%string; "1011000"%string])).
Proof. apply search_status. cbn. auto. Defined.



Lemma pcmp_eq a : forall b, pcmp a b = 0%Z -> a = b.
Proof.
  induction a as [|x a IH]; intros [|y b] H; try discriminate; [reflexivity|].
  cbn [pcmp] in H. destruct (Bool.eqb x y) eqn:E.
  - apply eqb_prop in E. subst. f_equal. now apply IH.
  - destruct y; discriminate.
Qed.

Lemma same_reflection a b :
  flag_set (Z.lxor a b) (Z.lor P_REFIN P_REFOUT) = false ->
  flag_set b P_REFIN = flag_set a P_REFIN
  /\ flag_set b P_REFOUT = flag_set a P_REFOUT.
Proof.
  unfold flag_set. intros H. apply negb_false_iff, Z.eqb_eq in H.
  assert (Hb : forall i, (0 <= i < 2)%Z -> Z.testbit b i = Z.testbit a i).
  { intros i Hi.
    assert (Ht : Z.testbit (Z.land (Z.lxor a b) (Z.lor P_REFIN P_REFOUT)) i = false)
      by (rewrite H; apply Z.bits_0).
    rewrite Z.land_spec, Z.lxor_spec in Ht.
    assert (Hm : Z.testbit (Z.lor P_REFIN P_REFOUT) i = true).
    { assert (i = 0 \/ i = 1)%Z as [->| ->] by lia; reflexivity. }
    rewrite Hm, andb_true_r in Ht.
    destruct (Z.testbit a i), (Z.testbit b i); try reflexivity; discriminate. }
  fold (flag_set a P_REFIN) (flag_set b P_REFIN)
       (flag_set a P_REFOUT) (flag_set b P_REFOUT).
  change P_REFIN with (2 ^ 0)%Z. change P_REFOUT with (2 ^ 1)%Z.
  rewrite !flag_set_bit by lia. split; apply Hb; lia.
Qed.

Lemma chkres_loop_agrees_with p apolys :
  chkres_loop (spoly p) (init p)
    (if flag_set (flags p) P_REFOUT then prev (pclone (xorout p))
     else pclone (xorout p)) apolys = true ->
  Forall (agrees p) apolys.
Proof.
  intros H. apply chkres_loop_agrees in H.
  unfold agrees, engine_xorout, pclone in *. exact H.
Qed.

Lemma runs_weaken_actions {A : Type} (P P' : action -> Prop) (Q : A -> Prop) c :
  (forall a, P a -> P' a) -> runs P Q c -> runs P' Q c.
Proof.
  intros HP Hc log. destruct (Hc log) as (l & E & F & V).
  exists l. repeat split; auto. eapply Forall_impl; eauto.
Qed.

(** X19.  The scan of the presets in search mode does nothing but print
    presets, and each preset it prints has the width and the reflection of
    the model, has the Poly, Init and XorOut that are given, and agrees with
    every sample. *)
Theorem preset_scan_sound env m rflags width apolys psets : forall uflags,
  runs (fun a => exists p, a = Puts (mtostr env p) /\ In p psets
                           /\ preset_fits env m rflags width apolys p)
       (fun _ => True)
       (preset_scan env m rflags width apolys uflags psets).
Proof.
  induction psets as [|pset rest IH]; intros uflags; cbn [preset_scan].
  - now apply runs_ret.
  - eapply runs_bind with (Q1 := fun _ => True).
    + unfold preset_try.
      destruct (negb (plen (spoly pset) =? width)
                || flag_set (Z.lxor (flags m) (flags pset)) (Z.lor P_REFIN P_REFOUT))
        eqn:E1; [now apply runs_ret|].
      destruct (flag_set rflags R_HAVEP
                && negb (pcmp (spoly m) (spoly pset) =? 0)%Z) eqn:E2;
        [now apply runs_ret|].
      destruct (flag_set rflags R_HAVEI
                && negb (psncmp env (init m) (init pset) =? 0)%Z) eqn:E3;
        [now apply runs_ret|].
      destruct (flag_set rflags R_HAVEX
                && negb (psncmp env (xorout m) (xorout pset) =? 0)%Z) eqn:E4;
        [now apply runs_ret|].
      destruct (chkres_loop _ _ _ _) eqn:E5; [|now apply runs_ret].
      eapply runs_bind with (Q1 := fun _ => True); [|intros; now apply runs_ret].
      apply runs_act; [|exact I].
      exists pset. split; [reflexivity|]. split; [now left|].
      apply orb_false_iff in E1. destruct E1 as [E1a E1b].
      apply negb_false_iff, Nat.eqb_eq in E1a.
      apply same_reflection in E1b. destruct E1b as [Hri Hro].
      unfold preset_fits. repeat split; auto.
      * intros Hp. rewrite Hp in E2. cbn [andb] in E2.
        apply negb_false_iff, Z.eqb_eq in E2. symmetry. now apply pcmp_eq.
      * intros Hi. rewrite Hi in E3. cbn [andb] in E3.
        now apply negb_false_iff, Z.eqb_eq in E3.
      * intros Hx. rewrite Hx in E4. cbn [andb] in E4.
        now apply negb_false_iff, Z.eqb_eq in E4.
      * now apply chkres_loop_agrees_with.
    + intros u _. eapply runs_weaken_actions; [|apply IH].
      intros a (p & Ha & Hin & Hf). exists p. split; [exact Ha|].
      split; [now right | exact Hf].
Qed.

(* ===================================================================== *)
(** ** Crossed-endian models in search mode (cli.c) *)
(* ===================================================================== *)


Lemma brute_force_crossed env qpoly rflags ib m apolys uflags log :
  crossed (flags m) = true ->
  brute_force env qpoly rflags ib (m, apolys) uflags log
  = if flag_set uflags C_RESULT then (log, inr EXIT_SUCCESS)
    else (log ++ [Eprint (crossed_message env uflags rflags)], inr EXIT_FAILURE).
Proof.
  intros Hc. unfold brute_force, crossed_message.
  destruct (flag_set uflags C_RESULT); [reflexivity|].
  destruct (_ && _); [reflexivity|]. cbn [fst].
  replace (negb (Bool.eqb (negb (flag_set (flags m) P_REFIN))
                          (negb (flag_set (flags m) P_REFOUT))))
    with (crossed (flags m))
    by (unfold crossed; now destruct (flag_set _ P_REFIN), (flag_set _ P_REFOUT)).
  rewrite Hc. reflexivity.
Qed.

Lemma flag_set_result_nobfs u :
  flag_set (Z.lor u C_RESULT) C_NOBFS = flag_set u C_NOBFS.
Proof. more_flag_bits. reflexivity. Qed.

Lemma preset_try_keeps env m rflags width apolys uflags pset :
  yields (fun l r => match r with
                     | inl u => result_flag uflags l u
                                /\ flag_set u C_NOBFS = flag_set uflags C_NOBFS
                     | inr _ => False
                     end)
         (preset_try env m rflags width apolys uflags pset).
Proof.
  assert (Hsame : yields (fun l r => match r with
                                     | inl u => result_flag uflags l u
                                                /\ flag_set u C_NOBFS
                                                   = flag_set uflags C_NOBFS
                                     | inr _ => False
                                     end) (ret uflags)).
  { apply yields_ret. split; [|reflexivity].
    unfold result_flag. now rewrite orb_false_r. }
  unfold preset_try.
  repeat (match goal with |- yields _ (if ?b then _ else _) => destruct b end;
          try exact Hsame).
  unfold ufound. apply yields_act_then, yields_ret.
  split; [|apply flag_set_result_nobfs].
  unfold result_flag. rewrite flag_set_result. cbn. now rewrite orb_true_r.
Qed.

Lemma preset_scan_keeps env m rflags width apolys psets : forall uflags,
  yields (fun l r => match r with
                     | inl u => result_flag uflags l u
                                /\ flag_set u C_NOBFS = flag_set uflags C_NOBFS
                     | inr _ => False
                     end)
         (preset_scan env m rflags width apolys uflags psets).
Proof.
  induction psets as [|pset rest IH]; intros uflags; cbn [preset_scan].
  - apply yields_ret. split; [|reflexivity].
    unfold result_flag. now rewrite orb_false_r.
  - eapply yields_bind; [apply preset_try_keeps | intros ? ? [] |].
    intros l1 u1 [H1 N1]. eapply yields_weaken; [apply IH|].
    intros l2 [u2|s] H2; [|exact H2]. destruct H2 as [H2 N2].
    split; [exact (result_flag_app _ _ _ _ _ H1 H2) | congruence].
Qed.

Lemma preset_passes_keeps env rflags ib width fuel : forall pass s uflags,
  yields (fun l r => match r with
                     | inl (s', u) =>
                         result_flag uflags l u
                         /\ flag_set u C_NOBFS = flag_set uflags C_NOBFS
                         /\ crossed (flags (fst s')) = crossed (flags (fst s))
                     | inr _ => False
                     end)
         (preset_passes fuel env rflags ib width pass s uflags).
Proof.
  induction fuel as [|fuel IH]; intros pass s uflags; cbn [preset_passes].
  - apply yields_ret. split; [|split; reflexivity].
    unfold result_flag. now rewrite orb_false_r.
  - eapply yields_bind; [apply preset_scan_keeps | intros ? ? [] |].
    intros l1 u1 [H1 N1].
    destruct (_ && _).
    + eapply yields_weaken; [apply IH|].
      intros l2 [[s' u2]|st] H2; [|exact H2]. destruct H2 as (H2 & N2 & C2).
      split; [exact (result_flag_app _ _ _ _ _ H1 H2)|].
      split; [congruence|]. now rewrite C2, toggle_crossed.
    + apply yields_ret. rewrite app_nil_r.
      split; [exact H1|]. split; [exact N1 | apply toggle_crossed].
Qed.

Lemma few_samples_warning_goes_on env n :
  yields (fun l r => has_puts l = false /\ r = inl tt) (few_samples_warning env n).
Proof.
  unfold few_samples_warning.
  destruct (n =? 0)%Z; [now apply yields_act|].
  destruct (n <? RECSMP)%Z; [|now apply yields_ret].
  apply yields_act_then. now apply yields_act.
Qed.

Lemma read_args_goes_on env uflags fl ib argv :
  (flag_set uflags C_INFILE = true ->
   Forall (fun arg => exists p, rdpoly env arg fl ib = inl p) argv) ->
  yields (fun l r => l = [] /\ exists apolys, r = inl apolys)
         (map_cmd (read_arg env uflags fl ib) argv).
Proof.
  intros Hf. induction argv as [|a argv IH]; cbn [map_cmd].
  - apply yields_ret. eauto.
  - assert (Ha : exists p, read_arg env uflags fl ib a = ret p).
    { unfold read_arg. destruct (flag_set uflags C_INFILE); [|eauto].
      specialize (Hf eq_refl). apply Forall_cons_iff in Hf.
      destruct Hf as [[p ->] _]. eauto. }
    destruct Ha as [p ->].
    assert (Hrest : flag_set uflags C_INFILE = true ->
                    Forall (fun arg => exists p, rdpoly env arg fl ib = inl p) argv).
    { intros H. specialize (Hf H). now apply Forall_cons_iff in Hf. }
    intros log. unfold bind, ret.
    destruct (IH Hrest log) as (l & Hl & -> & ap & Hr).
    destruct (map_cmd _ argv log) as [log' r]. cbn [fst snd] in *. subst.
    exists []. cbn [fst snd]. split; [reflexivity|]. split; [reflexivity|]. eauto.
Qed.

(** How a search for a crossed-endian model ends when the model is
    Williams-compliant, the width is positive and no sample fails to be
    read. *)
Lemma mode_s_crossed env st m qpoly argv :
  crossed (flags m) = true ->
  flag_set (c_uflags st) C_RESULT = false ->
  flag_set (flags m) P_MULXN = true ->
  c_width st <> 0 ->
  (flag_set (c_uflags st) C_INFILE = true ->
   Forall (fun arg => exists p, rdpoly env arg (flags m) (c_ibperhx st) = inl p)
          argv) ->
  yields (fun l r =>
            match r with
            | inl _ => False
            | inr _ =>
                has_puts l = false ->
                exists l', l = l' ++ [Eprint (crossed_message env (c_uflags st)
                                                (c_rflags st))]
            end)
         (mode_s env st m qpoly argv).
Proof.
  intros Hc Hu Hm Hw Hf. unfold mode_s.
  replace (flag_set (Z.lnot (flags m)) P_MULXN) with false
    by (flag_bits; now rewrite Hm).
  apply Nat.eqb_neq in Hw. rewrite Hw. cbv zeta.
  set (m1 := set_polys m _ _ _).
  assert (Hc1 : forall b w, flags (fst (if b : bool
                              then (set_polys m1 (palloc w) (init m1) (xorout m1), w)
                              else (m1, plen (spoly m1)))) = flags m)
    by (intros [|] w; reflexivity).
  destruct (if plen (spoly m1) =? 0 then _ else _) as [m2 width] eqn:E2.
  assert (Hfl : flags m2 = flags m).
  { specialize (Hc1 (plen (spoly m1) =? 0) (c_width st)). now rewrite E2 in Hc1. }
  assert (Hc2 : crossed (flags m2) = true) by (now rewrite Hfl).
  rewrite Hfl.
  set (rflags := if negb (ptst qpoly) then _ else _).
  assert (Hrf : flag_set (Z.lnot rflags) R_HAVEP
                = flag_set (Z.lnot (c_rflags st)) R_HAVEP).
  { subst rflags. destruct (negb (ptst qpoly)); [|reflexivity]. flag_bits. reflexivity. }
  eapply yields_bind; [apply few_samples_warning_goes_on | intros ? ? [_ ?]; discriminate |].
  intros l0 [] [Hp0 _].
  eapply yields_bind; [apply (read_args_goes_on _ _ _ _ _ Hf)
                      | intros ? ? [_ [? ?]]; discriminate |].
  intros l1 apolys [-> _]. cbn [app].
  assert (Hend : forall l2 s u,
             result_flag (c_uflags st) l2 u ->
             flag_set u C_NOBFS = flag_set (c_uflags st) C_NOBFS ->
             crossed (flags (fst s)) = true ->
             yields (fun l3 r =>
                       match r with
                       | inl _ => False
                       | inr _ =>
                           has_puts (l0 ++ l2 ++ l3) = false ->
                           exists l', l0 ++ l2 ++ l3
                                      = l' ++ [Eprint (crossed_message env (c_uflags st)
                                                         (c_rflags st))]
                       end)
                    (brute_force env qpoly rflags (c_ibperhx st) s u)).
  { intros l2 [m' ap] u Hr Hn Hcs log. cbn [fst] in Hcs.
    rewrite brute_force_crossed by exact Hcs.
    unfold result_flag in Hr. rewrite Hu in Hr. cbn [orb] in Hr.
    destruct (flag_set u C_RESULT) eqn:Er.
    - exists []. rewrite app_nil_r. split; [reflexivity|]. cbn [snd].
      rewrite !has_puts_app, <- Hr, orb_true_r. cbn. discriminate.
    - eexists. split; [reflexivity|]. cbn [snd]. intros _.
      exists (l0 ++ l2). rewrite <- app_assoc. do 3 f_equal.
      unfold crossed_message. now rewrite Hn, Hrf. }
  destruct (flag_set (Z.lnot (c_uflags st)) C_NOPCK).
  - eapply yields_bind; [apply preset_passes_keeps | intros ? ? [] |].
    intros l2 [s u] (Hr & Hn & Hcs). cbn [fst] in Hcs.
    apply Hend; [exact Hr | exact Hn | congruence].
  - intros log. unfold bind, ret.
    destruct (Hend [] (m2, apolys) (c_uflags st)) with (log := log)
      as (l3 & Hl & H).
    + unfold result_flag. now rewrite orb_false_r.
    + reflexivity.
    + exact Hc2.
    + exists l3. split; [exact Hl | exact H].
Qed.

(** C9.  No run of the driver passes a crossed-endian model to [reveng]:
    the guess of every call has [REFIN] and [REFOUT] equal, and a run that
    starts from a model in which they differ makes no call at all.  In
    search mode, once the scan of the presets is over, a crossed-endian
    model ends the run before the search loop: with success when the scan
    has reported a preset, else through [uerror], with the message "no
    models found" when [-G] is given without a polynomial and with "cannot
    search for crossed-endian models" otherwise.  So a run in search mode
    that starts from a crossed-endian model exits with success when it has
    printed a preset, and otherwise fails on a message, which is the one
    just named when the model is Williams-compliant, the width positive and
    no sample fails to be read. *)
Theorem crossed_endian_rejected env st argv :
  (forall g q r a,
      In (Call_reveng g q r a) (fst (main_body env st argv)) ->
      crossed (flags g) = false)
  /\ (crossed (flags (c_model st)) = true ->
      forall a, In a (fst (main_body env st argv)) -> is_call a = false)
  /\ (forall qpoly rflags ib m apolys uflags log,
        crossed (flags m) = true ->
        brute_force env qpoly rflags ib (m, apolys) uflags log
        = if flag_set uflags C_RESULT then (log, inr EXIT_SUCCESS)
          else (log ++ [Eprint (crossed_message env uflags rflags)],
                inr EXIT_FAILURE))
  /\ (c_mode st = chr "s" ->
      crossed (flags (c_model st)) = true ->
      flag_set (c_uflags st) C_RESULT = false ->
      if has_puts (fst (main_body env st argv))
      then snd (main_body env st argv) = EXIT_SUCCESS
      else snd (main_body env st argv) = EXIT_FAILURE
           /\ exists l' msg,
                fst (main_body env st argv) = l' ++ [Eprint msg]
                /\ (flag_set (flags (c_model st)) P_MULXN = true ->
                    c_width st <> 0 ->
                    (flag_set (c_uflags st) C_INFILE = true ->
                     Forall (fun arg =>
                               exists p, rdpoly env arg (flags (c_model st))
                                                (c_ibperhx st) = inl p) argv) ->
                    msg = crossed_message env (c_uflags st) (c_rflags st))).
Proof.
  pose proof (main_body_safe (crossed (flags (c_model st))) env st argv eq_refl)
    as Hsafe.
  rewrite Forall_forall in Hsafe.
  split; [|split; [|split]].
  - intros g q r a Hin. apply Hsafe in Hin. now destruct Hin.
  - intros Hc a Hin. apply Hsafe in Hin.
    destruct a as [s|s|g q r ap]; try reflexivity.
    destruct Hin as [H1 H2]. congruence.
  - intros qpoly rflags ib m apolys uflags log Hc.
    now apply brute_force_crossed.
  - intros Hm Hc Hu.
    pose proof (main_body_search_status env st argv Hm Hu) as Hs.
    pose proof (main_body_loud env st argv) as Hl.
    destruct (has_puts (fst (main_body env st argv))) eqn:Hp; [now apply Hs|].
    destruct Hl as [Hl|(Hl & l' & msg & Hlog)];
      [apply Hs in Hl; congruence|].
    split; [exact Hl|]. exists l', msg. split; [exact Hlog|].
    intros Hx Hw Hf.
    rewrite (main_body_mode_s env st argv Hm) in Hlog, Hp. cbv zeta in Hlog, Hp.
    cbn [fst] in Hlog, Hp.
    match type of Hlog with fst (mode_s ?e ?s ?m ?q ?a []) = _ =>
      destruct (mode_s_crossed e s m q a Hc Hu Hx Hw Hf []) as (l & El & H);
      destruct (mode_s e s m q a []) as [log [x|status]] end;
      cbn [fst snd app] in *; [contradiction|]. subst.
    destruct (H Hp) as (l'' & E).
    apply app_inj_tail in E. destruct E as [_ Hmsg]. now inversion Hmsg.
Qed.

Lemma crossed_endian_rejected_witness :
  (forall a, In a (fst (main_body plain_env after_w3_L_s ["1011"%string])) ->
             is_call a = false)
  /\ crossed (flags (guess3 "000")) = false
  /\ snd (main_body plain_env after_w3_L_s ["1011"%string]) = EXIT_FAILURE
  /\ exists l' msg,
       fst (main_body plain_env after_w3_L_s ["1011"%string]) = l' ++ [Eprint msg]
       /\ (flag_set (flags (c_model after_w3_L_s)) P_MULXN = true ->
           c_width after_w3_L_s <> 0 ->
           (flag_set (c_uflags after_w3_L_s) C_INFILE = true ->
            Forall (fun arg =>
                      exists p, rdpoly plain_env arg (flags (c_model after_w3_L_s))
                                       (c_ibperhx after_w3_L_s) = inl p)
                   ["1011"%string]) ->
           msg = "reveng: cannot search for crossed-endian models"%string).
Proof.
  split; [|split].
  - apply (proj1 (proj2 (crossed_endian_rejected plain_env after_w3_L_s
                           ["1011"%string]))); reflexivity.
  - apply (proj1 (crossed_endian_rejected plain_env (after_options "s" 3)
                    ["1011000"%string; "0000000"%string])
             (guess3 "000") (bits "000") 0%Z [bits "1011000"; bits "0000000"]).
    vm_compute. do 2 right. left. reflexivity.
  - exact (proj2 (proj2 (proj2 (crossed_endian_rejected plain_env after_w3_L_s
                                  ["1011"%string])))
             eq_refl eq_refl eq_refl).
Defined.

(** Four runs in search mode that start from a crossed-endian model and do
    not end on "cannot search for crossed-endian models": with [-G] and no
    polynomial the run ends on "no models found"; with a crossed-endian
    preset that fits the sample it prints the preset and exits with success;
    without a width it ends on the error of the width; and with a sample
    file that cannot be read it ends on the error of reading. *)
Lemma crossed_search_other_endings :
  crossed (flags (c_model after_w3_L_G_s)) = true
  /\ c_mode after_w3_L_G_s = chr "s"
  /\ main_body plain_env after_w3_L_G_s ["1011000"%string]
     = ([Eprint "reveng: warning: you have only given 1 sample";
         Eprint "reveng: warning: to reduce false positives, give 4 or more samples";
         Eprint "reveng: no models found"], EXIT_FAILURE)
  /\ crossed (flags (c_model after_w3_L_s)) = true
  /\ c_mode after_w3_L_s = chr "s"
  /\ main_body preset_env after_w3_L_s ["1011000"%string]
     = ([Eprint "reveng: warning: you have only given 1 sample";
         Eprint "reveng: warning: to reduce false positives, give 4 or more samples";
         Puts "011"], EXIT_SUCCESS)
  /\ crossed (flags (c_model after_L_s)) = true
  /\ c_mode after_L_s = chr "s"
  /\ main_body plain_env after_L_s ["1011000"%string]
     = ([Eprint "reveng: must specify positive -k, -P or -w before -s"],
        EXIT_FAILURE)
  /\ crossed (flags (c_model after_w3_L_f_s)) = true
  /\ c_mode after_w3_L_f_s = chr "s"
  /\ main_body plain_env after_w3_L_f_s ["sample"%string]
     = ([Eprint "reveng: warning: you have only given 1 sample";
         Eprint "reveng: warning: to reduce false positives, give 4 or more samples";
         Eprint "sample: cannot open for reading"], EXIT_FAILURE).
Proof. repeat (split; [reflexivity|]). reflexivity. Qed.
